(** * Obscurity engine: query execution, de-duplication, scoring and filters

    A shallow embedding of the search core of the obscurity engine
    ([app.py], [modules/youtube_engine.py], [modules/secrets_manager.py]),
    followed by the properties established about it.

    Conventions of the embedding.
    - Python [int] is [Z]; Python [float] is [Q].  Every float the modelled
      code produces is a sum of small integers or a decimal rounding, so the
      rational value is the value of the float.
    - Python [str] is [string]; character tests ([str.strip], [str.lower],
      the [re] classes) are the ASCII ones, i.e. text is taken to be ASCII.
    - [dict] is [gmap] where it is only looked up, and a list of pairs in
      insertion order where its values are listed; [set] is [gset].
    - Calls to the remote API are answered by an oracle that is a parameter
      of the executor; the executor keeps a trace of its calls and of the
      messages it shows.
    - A detail record of the provider carries its [id], and [build] gives a
      service for every key of the pool: [d['id']] and
      [get_service_for_key] are total, and what is stated of [_yt] is
      stated of such runs. *)

From Stdlib Require Import ZArith QArith Qround Qabs Lqa String Ascii List Lia.
From Stdlib Require Import DecimalString.
From stdpp Require Import gmap strings list.

Local Open Scope Z_scope.
Local Open Scope string_scope.

(* ===================================================================== *)
(** * Part I: the program                                                  *)
(* ===================================================================== *)

(** ** Text primitives of the Python runtime *)

Module Text.

(** [str.isspace] on an ASCII character: TAB..CR, FS..US and the blank. *)
Definition isspace (c : ascii) : bool :=
  let n := nat_of_ascii c in
  ((9 <=? n) && (n <=? 13) || (28 <=? n) && (n <=? 32))%nat.

Definition isdigit (c : ascii) : bool :=
  let n := nat_of_ascii c in ((48 <=? n) && (n <=? 57))%nat.

Definition lower_char (c : ascii) : ascii :=
  let n := nat_of_ascii c in
  if ((65 <=? n) && (n <=? 90))%nat then ascii_of_nat (n + 32) else c.

Fixpoint lstrip_chars (l : list ascii) : list ascii :=
  match l with
  | c :: l' => if isspace c then lstrip_chars l' else l
  | [] => []
  end.

(** [s.strip()] *)
Definition strip (s : string) : string :=
  string_of_list_ascii
    (rev (lstrip_chars (rev (lstrip_chars (list_ascii_of_string s))))).

(** [s.lower()] *)
Definition lower (s : string) : string :=
  string_of_list_ascii (map lower_char (list_ascii_of_string s)).

Fixpoint starts_with (p s : list ascii) : bool :=
  match p, s with
  | [], _ => true
  | _ :: _, [] => false
  | a :: p', b :: s' => if Ascii.eqb a b then starts_with p' s' else false
  end.

Fixpoint contains_chars (p s : list ascii) : bool :=
  if starts_with p s then true
  else match s with
       | [] => false
       | _ :: s' => contains_chars p s'
       end.

(** [kw in text] *)
Definition contains (kw text : string) : bool :=
  contains_chars (list_ascii_of_string kw) (list_ascii_of_string text).

(** truth value of a string: [bool(s)] *)
Definition truthy (s : string) : bool := negb (String.eqb s EmptyString).

(** [len(s)] *)
Definition len (s : string) : Z := Z.of_nat (String.length s).

(** [s.replace(old, new)] for a one-character [old] *)
Fixpoint replace_char (old : ascii) (new : string) (s : string) : string :=
  match s with
  | EmptyString => EmptyString
  | String c rest =>
      if Ascii.eqb c old then new ++ replace_char old new rest
      else String c (replace_char old new rest)
  end.

(** [s.startswith(c)] for a one-character [c] *)
Definition starts_with_char (c : ascii) (s : string) : bool :=
  match s with
  | String a _ => Ascii.eqb a c
  | EmptyString => false
  end.

(** [c in s] for a character *)
Definition has_char (c : ascii) (s : string) : bool :=
  existsb (Ascii.eqb c) (list_ascii_of_string s).

Fixpoint lstrip_set (cs : string) (l : list ascii) : list ascii :=
  match l with
  | c :: l' => if has_char c cs then lstrip_set cs l' else l
  | [] => []
  end.

(** [s.strip(cs)]: the characters of [cs] are removed from both ends. *)
Definition strip_set (cs : string) (s : string) : string :=
  string_of_list_ascii
    (rev (lstrip_set cs (rev (lstrip_set cs (list_ascii_of_string s))))).

(** [s.partition(sep)] for a one-character [sep]: the text before the first
    [sep] and the text after it; when there is no [sep], all of [s] and the
    empty text. *)
Fixpoint partition_chars (sep : ascii) (l : list ascii)
    : list ascii * list ascii :=
  match l with
  | [] => ([], [])
  | c :: l' =>
      if Ascii.eqb c sep then ([], l')
      else let '(before, after) := partition_chars sep l' in
           (c :: before, after)
  end.

Definition partition (sep : ascii) (s : string) : string * string :=
  let '(before, after) := partition_chars sep (list_ascii_of_string s) in
  (string_of_list_ascii before, string_of_list_ascii after).

(** The line boundaries of [str.splitlines] among the ASCII characters:
    LF, VT, FF, CR, FS, GS and RS. *)
Definition is_linebreak (c : ascii) : bool :=
  let n := nat_of_ascii c in
  ((10 <=? n) && (n <=? 13) || (28 <=? n) && (n <=? 30))%nat.

(** [s.splitlines()].  [cur] holds the characters of the line in progress,
    the last one first; [after_cr] tells that the character before was a
    CR, which an LF then completes. *)
Fixpoint splitlines_from (l cur : list ascii) (after_cr : bool)
    : list string :=
  match l with
  | [] =>
      match cur with
      | [] => []
      | _ => [string_of_list_ascii (rev cur)]
      end
  | c :: l' =>
      if after_cr && Ascii.eqb c "010" then splitlines_from l' cur false
      else if is_linebreak c
      then string_of_list_ascii (rev cur)
           :: splitlines_from l' [] (Ascii.eqb c "013")
      else splitlines_from l' (c :: cur) false
  end.

Definition splitlines (s : string) : list string :=
  splitlines_from (list_ascii_of_string s) [] false.

(** [sep.join(l)] *)
Fixpoint join (sep : string) (l : list string) : string :=
  match l with
  | [] => EmptyString
  | [x] => x
  | x :: rest => x ++ sep ++ join sep rest
  end.

End Text.

(** ** The fragment of [re] used by the filename patterns

    Every pattern of [DEFAULT_FILENAME_RE] is a sequence of single-character
    atoms, each with a repetition range, optionally closed by [$]; all are
    compiled with [re.IGNORECASE] and applied with [re.match]. *)

Module Re.

Record atom := Atom { cset : ascii -> bool; lo : nat; hi : option nat }.
Record pattern := Pattern { atoms : list atom; dollar : bool }.

Definition may_take (hi : option nat) : bool :=
  match hi with Some O => false | _ => true end.
Definition took (hi : option nat) : option nat :=
  match hi with Some n => Some (Nat.pred n) | None => None end.

(** [rep cs lo hi k s]: some number [n] of leading characters of [s], with
    [lo <= n <= hi], all in [cs], can be consumed so that [k] accepts the
    rest. *)
Fixpoint rep (cs : ascii -> bool) (lo : nat) (hi : option nat)
    (k : list ascii -> bool) (s : list ascii) : bool :=
  match lo, s with
  | O, [] => k []
  | O, c :: s' =>
      if k s then true
      else if cs c && may_take hi then rep cs O (took hi) k s'
      else false
  | S _, [] => false
  | S lo', c :: s' =>
      if cs c && may_take hi then rep cs lo' (took hi) k s' else false
  end.

(** [$]: the end of the text, or just before a final newline. *)
Definition at_dollar (s : list ascii) : bool :=
  match s with
  | [] => true
  | [c] => Ascii.eqb c "010"%char
  | _ => false
  end.

Fixpoint match_atoms (ats : list atom) (dol : bool) : list ascii -> bool :=
  match ats with
  | [] => fun s => if dol then at_dollar s else true
  | a :: ats' => rep (cset a) (lo a) (hi a) (match_atoms ats' dol)
  end.

(** [bool(re.match(p, s, re.IGNORECASE))] *)
Definition re_match (p : pattern) (s : string) : bool :=
  match_atoms (atoms p) (dollar p) (list_ascii_of_string s).

(** Character sets, under IGNORECASE. *)
Definition ch (c : ascii) : ascii -> bool :=
  fun x => Ascii.eqb (Text.lower_char x) (Text.lower_char c).
Definition oneof (cs : string) : ascii -> bool :=
  fun x => existsb (fun c => ch c x) (list_ascii_of_string cs).
Definition digit : ascii -> bool := Text.isdigit.                 (* \d *)
Definition sep : ascii -> bool :=                                 (* [\s_-] *)
  fun x => Text.isspace x || oneof "_-" x.
Definition dotsep : ascii -> bool :=                              (* [\s._] *)
  fun x => Text.isspace x || oneof "._" x.
Definition hex : ascii -> bool :=                                 (* [0-9a-f] *)
  fun x => Text.isdigit x || oneof "abcdef" x.
Definition alpha : ascii -> bool :=                               (* [A-Z] *)
  fun x => let n := nat_of_ascii (Text.lower_char x) in
           ((97 <=? n) && (n <=? 122))%nat.

(** Repetitions. *)
Definition one (cs : ascii -> bool) : list atom := [Atom cs 1 (Some 1%nat)].
Definition opt (cs : ascii -> bool) : list atom := [Atom cs 0 (Some 1%nat)].
Definition atleast (n : nat) (cs : ascii -> bool) : list atom := [Atom cs n None].
Definition between (n m : nat) (cs : ascii -> bool) : list atom := [Atom cs n (Some m)].
Definition lit (s : string) : list atom :=
  map (fun c => Atom (ch c) 1 (Some 1%nat)) (list_ascii_of_string s).

Definition pat (ats : list atom) : pattern := Pattern ats false.
Definition pat_end (ats : list atom) : pattern := Pattern ats true.

End Re.

(** ** Numbers of the Python runtime *)

Module Py.

Definition Qltb (x y : Q) : bool := negb (Qle_bool y x).

(** [max(a, b)] and [min(a, b)]: the first argument wins ties. *)
Definition max (a b : Q) : Q := if Qltb a b then b else a.
Definition min (a b : Q) : Q := if Qltb b a then b else a.

(** Nearest integer, ties to even. *)
Definition round_half_even (x : Q) : Z :=
  let f := Qfloor x in
  let r := (x - inject_Z f)%Q in
  if Qltb r (1 # 2) then f
  else if Qltb (1 # 2) r then f + 1
  else if Z.even f then f else f + 1.

(** [round(x, ndigits)] *)
Definition round (x : Q) (ndigits : nat) : Q :=
  let scale := 10 ^ Z.of_nat ndigits in
  (inject_Z (round_half_even (x * inject_Z scale)) / inject_Z scale)%Q.

(** [range(0, stop, step)] *)
Definition range_step (stop step : nat) : list nat :=
  map (fun k => k * step)%nat (seq 0 ((stop + step - 1) / step)).

(** [l[i:j]] for [0 <= i <= j] *)
Definition slice {A} (l : list A) (i j : nat) : list A :=
  take (j - i) (drop i l).

(** A [dict] with string keys, in insertion order: assigning to a key that
    is present replaces its value in place, a new key goes to the end. *)
Fixpoint dict_set {V} (k : string) (v : V) (d : list (string * V))
    : list (string * V) :=
  match d with
  | [] => [(k, v)]
  | (k', v') :: d' =>
      if String.eqb k' k then (k, v) :: d' else (k', v') :: dict_set k v d'
  end.

(** [d.update(other)] *)
Definition dict_update {V} (d other : list (string * V)) : list (string * V) :=
  foldl (fun acc kv => dict_set (fst kv) (snd kv) acc) d other.

(** [list(d.values())] *)
Definition dict_values {V} (d : list (string * V)) : list V := map snd d.

(** [str(n)] for an [int] *)
Definition str (n : Z) : string := NilZero.string_of_int (Z.to_int n).

Definition digit_value (c : ascii) : Z := Z.of_nat (nat_of_ascii c) - 48.

(** Decimal digits, with single underscores allowed between digits. *)
Fixpoint int_digits (l : list ascii) (acc : Z) (after_digit : bool)
    : option Z :=
  match l with
  | [] => if after_digit then Some acc else None
  | c :: l' =>
      if Text.isdigit c then int_digits l' (acc * 10 + digit_value c) true
      else if Ascii.eqb c "_"%char && after_digit then int_digits l' acc false
      else None
  end.

(** [int(s)]; [None] stands for [ValueError]. *)
Definition int (s : string) : option Z :=
  match list_ascii_of_string (Text.strip s) with
  | "-"%char :: l => Z.opp <$> int_digits l 0 false
  | "+"%char :: l => int_digits l 0 false
  | l => int_digits l 0 false
  end.

End Py.

(** ** The remote API as seen by the program *)

Module Api.

(** A raised exception: [e.resp.status] when the exception carries a
    response, and [str(e)]. *)
Record exn := Exn { resp_status : option Z; text : string }.

Inductive result (A : Type) : Type :=
| Ok (a : A)
| Raise (e : exn).
Arguments Ok {A} a.
Arguments Raise {A} e.

(** A service object: the one handed to [_yt], or one made by
    [build('youtube', 'v3', developerKey=k)]. *)
Inductive service := Given | Built (developerKey : string).

(** The [id] entry of a search hit: a dict, with or without [videoId], or
    some other value, kept as its [str()]. *)
Inductive id_value :=
| IdDict (videoId : option string)
| IdOther (repr : string).

(** A search hit; [id] is [None] when the entry is missing. *)
Record item := Item { id : option id_value; snippet : string }.

Record search_response :=
  SearchResponse { response_items : list item;
                   response_nextPageToken : option string }.

(** A detail record, with its [id] entry. *)
Record detail := Detail { detail_id : string; detail_body : string }.

(** What the run does that can be seen from outside: provider calls and
    the messages of [st.warning] and [st.error]. *)
Inductive event :=
| SearchCall (svc : option service) (q : string) (maxResults : Z)
    (pageToken : option string)
| DetailsCall (svc : option service) (ids : list string)
| KeyExhausted (key_number : nat)
| AllKeysDead
| QueryError (q : string) (e : exn).

Definition is_search_call (ev : event) : bool :=
  match ev with SearchCall _ _ _ _ => true | _ => false end.
Definition is_details_call (ev : event) : bool :=
  match ev with DetailsCall _ _ => true | _ => false end.

(** The answers of the two remote methods; an answer may depend on all
    that happened before the call. *)
Definition search_oracle : Type :=
  list event -> option service -> string -> Z -> option string ->
  result search_response.
Definition videos_oracle : Type :=
  list event -> option service -> list string -> result (list detail).

(** truth value of an optional string: [bool(t)], [None] being false *)
Definition token_truthy (t : option string) : bool :=
  match t with Some s => Text.truthy s | None => false end.

End Api.

(** ** A row of the result frame

    The columns of the [DataFrame] built by [parse_video_data] that the
    filters read.  A frame is the list of its rows. *)

Module Row.

Record t := Make {
  video_id : string;
  title : string;
  channel : string;
  description : string;
  views : Z;
  likes : Z;
  comments : Z;
  duration_seconds : Z;
  age_days : Z;
  upload_hour : Z;
  views_per_day : Q;
  weirdness_score : Q;
  is_default_filename : bool;
  has_geo : bool;
  desc_length : Z;
  tag_count : Z;
  title_length : Z;
  all_caps_title : bool;
  has_emoji : bool;
  definition : string;
  has_links_in_desc : bool;
  licensed_content : bool }.

End Row.

Definition DataFrame : Type := list Row.t.

(** ** [modules/youtube_engine.py] *)

Module YoutubeEngine.

Import Re Api.

(** [s] between two double-quote characters. *)
Definition quoted (s : string) : string :=
  String (ascii_of_nat 34) (s ++ String (ascii_of_nat 34) EmptyString).

Definition FILENAME_PATTERNS : gmap string string :=
  list_to_map
    [ ("IMG_XXXX", "IMG_"); ("DSC_XXXX", "DSC_"); ("DSCN_XXXX", "DSCN_");
      ("DSCF_XXXX", "DSCF_"); ("MVI_XXXX", "MVI_"); ("P10XXXXX", "P10");
      ("SAM_XXXX", "SAM_"); ("CIMG_XXXX", "CIMG"); ("PICT_XXXX", "PICT");
      ("CRW_XXXX", "CRW_"); ("IMGP_XXXX", "IMGP"); ("_MG_XXXX", "_MG_");
      ("MOV_XXXX", "MOV_"); ("VID_XXXX", "VID_"); ("VIDEO_XXXX", "VIDEO_");
      ("Trim_XXXX", "trim"); ("Screen Recording", "screen recording");
      ("Screencast", "screencast"); ("20XX-XX-XX", "2009-");
      ("FullSizeRender", "FullSizeRender"); ("RPReplay", "RPReplay");
      ("InShot", "InShot_");
      ("GOPR_XXXX", "GOPR"); ("GP_XXXXXX", "GP0"); ("GX_XXXXXX", "GX01");
      ("HERO_XXXX", "HERO"); ("GH_XXXXXX", "GH01");
      ("DJI_XXXX", "DJI_"); ("DJI_0XXX", "DJI_0");
      ("DCIM", "DCIM"); ("100MEDIA", "100MEDIA"); ("100ANDRO", "100ANDRO");
      ("Untitled", "Untitled"); ("New Video", "new video");
      ("Video 1", quoted "video 1");
      ("test", "test video upload");
      ("Copy of", "copy of"); ("Movie on", "movie on");
      ("clip", quoted "clip");
      ("recording", quoted "recording");
      ("capture", quoted "capture");
      ("vlcsnap", "vlcsnap");
      ("bandicam", "bandicam"); ("OBS_", "OBS ");
      ("Rec_", "Rec_"); ("WIN_", "WIN_");
      ("Skype call", "skype call"); ("Zoom_", "zoom meeting recording");
      ("Hangouts", "hangouts video"); ("Facetime", "facetime recording") ].

Definition WEIRDNESS_BOOSTERS : list string :=
  [ "found footage"; "abandoned"; "3am"; "liminal"; "backrooms"; "vhs";
    "old tape"; "camcorder"; "security camera"; "cctv"; "dashcam";
    "trail cam"; "baby monitor"; "answering machine"; "voicemail";
    "thrift store"; "yard sale"; "estate sale"; "dumpster";
    "strange noise"; "unknown"; "mysterious"; "unexplained";
    "glitch"; "corrupted"; "cursed"; "weird"; "creepy";
    "empty"; "nobody"; "forgotten"; "lost media";
    "found in attic"; "found in basement"; "hidden camera";
    "ring doorbell"; "infrared"; "night vision"; "thermal";
    "police scanner"; "ham radio"; "shortwave"; "numbers station";
    "elevator"; "stairwell"; "parking garage"; "tunnel";
    "underwater"; "cave"; "sewer"; "drain";
    "time capsule"; "1990s"; "2000s"; "childhood";
    "before internet"; "dialup"; "geocities" ].

Definition DEFAULT_FILENAME_RE : list pattern :=
  [ pat (lit "IMG" ++ one sep ++ atleast 3 digit);
    pat (lit "DSC" ++ opt (oneof "NF") ++ opt sep ++ atleast 3 digit);
    pat (lit "MOV" ++ one sep ++ atleast 3 digit);
    pat (lit "VID" ++ opt sep ++ atleast 4 digit);
    pat (lit "MVI" ++ one sep ++ atleast 3 digit);
    pat (lit "GOP" ++ opt (oneof "R") ++ atleast 3 digit);
    pat (lit "G" ++ one (oneof "XHP") ++ atleast 4 digit);
    pat (lit "DJI" ++ one sep ++ atleast 3 digit);
    pat (lit "SAM" ++ one sep ++ atleast 3 digit);
    pat (lit "P" ++ between 7 7 digit);
    pat (lit "20" ++ between 2 2 digit ++ opt sep ++ between 2 2 digit
           ++ opt sep ++ between 2 2 digit);
    pat_end (lit "video" ++ opt sep ++ between 1 4 digit);
    pat (lit "clip" ++ opt sep ++ one digit);
    pat (lit "trim" ++ one dotsep);
    pat (lit "Untitled");
    pat (lit "Movie on " ++ one digit);
    pat (lit "recording" ++ opt sep ++ one digit);
    pat (lit "Screen Recording");
    pat (lit "Screencast");
    pat (lit "capture" ++ opt sep ++ one digit);
    pat_end (between 3 4 digit ++ one sep ++ between 3 4 digit);
    pat (lit "CIMG" ++ atleast 3 digit);
    pat (lit "PICT" ++ atleast 3 digit);
    pat (lit "CRW" ++ one sep ++ atleast 3 digit);
    pat (lit "IMGP" ++ atleast 3 digit);
    pat (lit "_MG_" ++ atleast 3 digit);
    pat (lit "100" ++ one sep ++ atleast 3 digit);
    pat (lit "vlcsnap");
    pat (lit "bandicam");
    pat (lit "OBS" ++ one sep);
    pat (lit "Rec" ++ one sep ++ one digit);
    pat (lit "WIN" ++ one sep ++ one digit);
    pat (lit "FullSizeRender");
    pat (lit "RPReplay");
    pat (lit "InShot" ++ one sep);
    pat_end (lit "new video");
    pat_end (lit "test");
    pat (lit "copy of ");
    pat_end (lit "video");
    pat_end (atleast 10 digit);
    pat_end (atleast 8 hex);
    pat_end (between 2 4 alpha ++ one sep ++ atleast 4 digit) ].

(** [detect_default_filename] *)
Fixpoint any_match (pats : list pattern) (s : string) : bool :=
  match pats with
  | [] => false
  | p :: rest => if re_match p s then true else any_match rest s
  end.

Definition detect_default_filename (title : string) : bool :=
  any_match DEFAULT_FILENAME_RE (Text.strip title).

(** *** [build_search_queries] *)

(** The final loop: keep the first query of each lower-cased form. *)
Fixpoint dedup_queries (queries : list string) (seen : gset string)
    (result : list string) : list string :=
  match queries with
  | [] => result
  | q :: rest =>
      let ql := Text.lower (Text.strip q) in
      if bool_decide (ql ∉ seen)
      then dedup_queries rest ({[ql]} ∪ seen) (result ++ [Text.strip q])
      else dedup_queries rest seen result
  end.

(** The queries collected before the final loop. *)
Definition generated_queries (keywords : string)
    (filename_patterns : list string) (custom_pattern : string)
    (weirdness_keywords : list string) : list string :=
  let kw := Text.strip keywords in
  let with_kw (p : string) := if Text.truthy kw then p ++ " " ++ kw else p in
  (if Text.truthy kw then [kw] else [])
  ++ map (fun pk => with_kw (default pk (FILENAME_PATTERNS !! pk))) filename_patterns
  ++ (if Text.truthy (Text.strip custom_pattern)
      then [Text.strip custom_pattern] else [])
  ++ map with_kw weirdness_keywords.

Definition build_search_queries (keywords : string)
    (filename_patterns : list string) (custom_pattern : string)
    (weirdness_keywords : list string) : list string :=
  let queries :=
    generated_queries keywords filename_patterns custom_pattern
      weirdness_keywords in
  let result := dedup_queries queries ∅ [] in
  match result with [] => ["IMG_"] | _ => result end.

(** *** [compute_weirdness_score]

    The function adds integer increments to a float that starts at [0.0];
    the increments of each group of branches are named after the comment
    that heads the group in the source. *)

Local Open Scope Z_scope.

(** View-based (max 30) *)
Definition view_points (views : Z) : Z :=
  if views =? 0 then 30
  else if views <=? 3 then 27
  else if views <=? 10 then 22
  else if views <=? 50 then 15
  else if views <=? 200 then 10
  else if views <=? 1000 then 5
  else 0.

(** Temporal decay (max 18) *)
Definition temporal_points (age_days views : Z) : Z :=
  if (5475 <? age_days) && (views <=? 10) then 18
  else if (3650 <? age_days) && (views <=? 10) then 15
  else if (1825 <? age_days) && (views <=? 10) then 12
  else if (730 <? age_days) && (views <=? 10) then 8
  else if (365 <? age_days) && (views <=? 5) then 5
  else 0.

(** Title (max 18) *)
Definition title_points (title : string) (numbers_only all_caps : bool)
    (title_entropy : Q) : Z :=
  (if detect_default_filename title then 10 else 0)
  + (if numbers_only then 5 else 0)
  + (if all_caps && (5 <? Text.len title) then 3 else 0)
  + (if Py.Qltb title_entropy 2 && (3 <? Text.len title) then 3
     else if Py.Qltb (45 # 10) title_entropy then 2
     else 0).

(** Description (max 8) *)
Definition description_points (description : string) (desc_length : Z)
    (tags : list string) : Z :=
  (if negb (Text.truthy description) || (desc_length <? 5) then 5
   else if desc_length <? 20 then 3
   else 0)
  + (match tags with [] => 3 | _ => 0 end).

(** Duration (max 6) *)
Definition duration_points (duration_seconds : Z) : Z :=
  if (0 <? duration_seconds) && (duration_seconds <? 3) then 4
  else if (0 <? duration_seconds) && (duration_seconds <? 10) then 3
  else if 7200 <? duration_seconds then 4
  else if 3600 <? duration_seconds then 3
  else 0.

(** Engagement ghost (max 10) *)
Definition ghost_points (likes comments views : Z) : Z :=
  if (likes =? 0) && (comments =? 0) then
    if views <=? 10 then 10
    else if views <=? 100 then 5
    else 0
  else 0.

(** Views per day (max 4) *)
Definition velocity_points (age_days : Z) (views_per_day : Q) : Z :=
  if (365 <? age_days) && Py.Qltb views_per_day (1 # 100) then 4
  else if (365 <? age_days) && Py.Qltb views_per_day (5 # 100) then 2
  else 0.

(** Geo (max 3) *)
Definition geo_points (has_location : bool) : Z :=
  if has_location then 3 else 0.

(** Keywords (max 4) *)
Definition weird_hits (title description : string) : Z :=
  let combined := Text.lower (title ++ " " ++ description) in
  Z.of_nat
    (length (List.filter (fun kw => Text.contains kw combined)
               WEIRDNESS_BOOSTERS)).

Definition keyword_points (title description : string) : Z :=
  Z.min 4 (weird_hits title description * 2).

(** The value of [score] when the [return] is reached. *)
Definition accumulated_score (title description : string)
    (views likes comments duration_seconds age_days : Z)
    (tags : list string) (has_location : bool) (title_entropy : Q)
    (desc_length : Z) (all_caps numbers_only : bool) (views_per_day : Q)
    : Q :=
  let score := 0%Q in
  let score := (score + inject_Z (view_points views))%Q in
  let score := (score + inject_Z (temporal_points age_days views))%Q in
  let score :=
    (score + inject_Z (title_points title numbers_only all_caps title_entropy))%Q in
  let score :=
    (score + inject_Z (description_points description desc_length tags))%Q in
  let score := (score + inject_Z (duration_points duration_seconds))%Q in
  let score := (score + inject_Z (ghost_points likes comments views))%Q in
  let score := (score + inject_Z (velocity_points age_days views_per_day))%Q in
  let score := (score + inject_Z (geo_points has_location))%Q in
  let score := (score + inject_Z (keyword_points title description))%Q in
  score.

Definition compute_weirdness_score (title description : string)
    (views likes comments duration_seconds age_days : Z)
    (tags : list string) (has_location : bool) (title_entropy : Q)
    (desc_length : Z) (all_caps numbers_only : bool) (views_per_day : Q)
    : Q :=
  let score :=
    accumulated_score title description views likes comments
      duration_seconds age_days tags has_location title_entropy
      desc_length all_caps numbers_only views_per_day in
  Py.min 100 (Py.max 0 (Py.round score 1)).

(** *** [parse_video_data]: the derived age and velocity

    Time stamps are microseconds on the naive clock of [datetime];
    [published_dt] is [None] when [strptime] rejects the text, and the
    [except] branch then sets the age to 0. *)

Definition microseconds_per_day : Z := 86400 * 1000000.

(** [(datetime.now() - published_dt).days], or 0 in the [except] branch *)
Definition age_days (now : Z) (published_dt : option Z) : Z :=
  match published_dt with
  | Some p => (now - p) / microseconds_per_day
  | None => 0
  end.

(** [vpd = round(views / max(age_days, 1), 4)] *)
Definition vpd (views age_days : Z) : Q :=
  Py.round (inject_Z views / inject_Z (Z.max age_days 1))%Q 4.

(** *** [search_youtube] and [get_video_details]

    Both wrap the remote call in [try ... except Exception]; the trace is
    threaded through.  The optional search filters other than the query,
    the page size and the page token are the same for every call of a run
    and are left to the oracle. *)

Local Open Scope list_scope.

Record search_result :=
  SearchResult { items : list item;
                 nextPageToken : option string;
                 error : option string }.

Definition search_youtube (search_api : search_oracle)
    (service : option service) (query : string) (max_results : Z)
    (page_token : option string) (tr : list event)
    : search_result * list event :=
  let maxResults := Z.min max_results 50 in
  let pageToken := if token_truthy page_token then page_token else None in
  let tr' := tr ++ [SearchCall service query maxResults pageToken] in
  match search_api tr service query maxResults pageToken with
  | Ok response =>
      (SearchResult (response_items response)
         (response_nextPageToken response) None, tr')
  | Raise e => (SearchResult [] None (Some (text e)), tr')
  end.

(** The loop [for i in range(0, len(video_ids), 50)]. *)
Fixpoint get_video_details_loop (videos_api : videos_oracle)
    (service : option service) (video_ids : list string)
    (starts : list nat) (all_details : list detail) (tr : list event)
    : list detail * list event :=
  match starts with
  | [] => (all_details, tr)
  | i :: rest =>
      let batch := Py.slice video_ids i (i + 50) in
      let tr' := tr ++ [DetailsCall service batch] in
      match videos_api tr service batch with
      | Ok response_items =>
          get_video_details_loop videos_api service video_ids rest
            (all_details ++ response_items) tr'
      | Raise _ =>
          get_video_details_loop videos_api service video_ids rest
            all_details tr'
      end
  end.

Definition get_video_details (videos_api : videos_oracle)
    (service : option service) (video_ids : list string) (tr : list event)
    : result (list detail) * list event :=
  let '(all_details, tr') :=
    get_video_details_loop videos_api service video_ids
      (Py.range_step (length video_ids) 50) [] tr in
  (Ok all_details, tr').

(** The [video_id] column built by [parse_video_data]: one row per item. *)
Definition parse_video_data_video_id (it : item) : string :=
  match id it with
  | None => EmptyString                       (* item.get("id", {}) *)
  | Some (IdDict (Some v)) => v
  | Some (IdDict None) => EmptyString
  | Some (IdOther repr) => repr
  end.

(** *** Filters

    [df[mask]] keeps the rows whose mask entry is true, in order.  Every
    filter starts with [if df.empty: return df]. *)

Definition filter_by_views (df : DataFrame) (max_views : Z) : DataFrame :=
  match df with
  | [] => df
  | _ => List.filter (fun r => Row.views r <=? max_views) df
  end.

Definition filter_by_min_views (df : DataFrame) (min_views : Z) : DataFrame :=
  match df with
  | [] => df
  | _ => List.filter (fun r => min_views <=? Row.views r) df
  end.

Definition filter_by_duration (df : DataFrame) (min_secs max_secs : Z)
    : DataFrame :=
  match df with
  | [] => df
  | _ => List.filter (fun r => (min_secs <=? Row.duration_seconds r)
                               && (Row.duration_seconds r <=? max_secs)) df
  end.

Definition filter_default_filenames_only (df : DataFrame) : DataFrame :=
  match df with
  | [] => df
  | _ => List.filter (fun r => Row.is_default_filename r) df
  end.

Definition filter_by_weirdness (df : DataFrame) (min_score : Q) : DataFrame :=
  match df with
  | [] => df
  | _ => List.filter (fun r => Qle_bool min_score (Row.weirdness_score r)) df
  end.

Definition filter_has_geolocation (df : DataFrame) : DataFrame :=
  match df with
  | [] => df
  | _ => List.filter (fun r => Row.has_geo r) df
  end.

Definition filter_no_engagement (df : DataFrame) : DataFrame :=
  match df with
  | [] => df
  | _ => List.filter (fun r => (Row.likes r =? 0) && (Row.comments r =? 0)) df
  end.

Definition filter_by_age (df : DataFrame) (min_days max_days : Z) : DataFrame :=
  match df with
  | [] => df
  | _ => List.filter (fun r => (min_days <=? Row.age_days r)
                               && (Row.age_days r <=? max_days)) df
  end.

Definition filter_no_description (df : DataFrame) : DataFrame :=
  match df with
  | [] => df
  | _ => List.filter (fun r => Row.desc_length r <? 10) df
  end.

Definition filter_no_tags (df : DataFrame) : DataFrame :=
  match df with
  | [] => df
  | _ => List.filter (fun r => Row.tag_count r =? 0) df
  end.

Definition filter_by_upload_hour (df : DataFrame) (min_hour max_hour : Z)
    : DataFrame :=
  match df with
  | [] => df
  | _ => List.filter (fun r => (min_hour <=? Row.upload_hour r)
                               && (Row.upload_hour r <=? max_hour)) df
  end.

(** [filter_short_title(df, max_len=15)] *)
Definition filter_short_title (df : DataFrame) (max_len : Z) : DataFrame :=
  match df with
  | [] => df
  | _ => List.filter (fun r => Row.title_length r <=? max_len) df
  end.

Definition filter_all_caps (df : DataFrame) : DataFrame :=
  match df with
  | [] => df
  | _ => List.filter (fun r => Row.all_caps_title r) df
  end.

Definition filter_has_emoji (df : DataFrame) : DataFrame :=
  match df with
  | [] => df
  | _ => List.filter (fun r => Row.has_emoji r) df
  end.

Definition filter_sd_only (df : DataFrame) : DataFrame :=
  match df with
  | [] => df
  | _ => List.filter (fun r => String.eqb (Row.definition r) "sd") df
  end.

Definition filter_no_links (df : DataFrame) : DataFrame :=
  match df with
  | [] => df
  | _ => List.filter (fun r => negb (Row.has_links_in_desc r)) df
  end.

Definition filter_by_views_per_day (df : DataFrame) (max_vpd : Q) : DataFrame :=
  match df with
  | [] => df
  | _ => List.filter (fun r => Qle_bool (Row.views_per_day r) max_vpd) df
  end.

Definition filter_exclude_licensed (df : DataFrame) : DataFrame :=
  match df with
  | [] => df
  | _ => List.filter (fun r => negb (Row.licensed_content r)) df
  end.

(** The text filters go through [Series.str.contains(pat, case=False,
    na=False)], which compiles [pat] as a regular expression with
    IGNORECASE and searches each cell.  [re_compile pat] is the search
    predicate of the compiled pattern, or [None] when [re.compile]
    raises. *)
Section TextFilters.

Variable re_compile : string -> option (string -> bool).

Definition re_error : exn := Exn None "re.error".

Definition str_contains (column : Row.t -> string) (pat : string)
    (df : DataFrame) : result DataFrame :=
  match re_compile pat with
  | Some search => Ok (List.filter (fun r => search (column r)) df)
  | None => Raise re_error
  end.

Definition filter_title_contains (df : DataFrame) (substring : string)
    : result DataFrame :=
  match df with
  | [] => Ok df
  | _ => if negb (Text.truthy substring) then Ok df
         else str_contains Row.title substring df
  end.

(** The body is under [try], and [except: return df]. *)
Definition filter_title_regex (df : DataFrame) (pattern : string)
    : result DataFrame :=
  match df with
  | [] => Ok df
  | _ => if negb (Text.truthy pattern) then Ok df
         else match str_contains Row.title pattern df with
              | Ok df' => Ok df'
              | Raise _ => Ok df
              end
  end.

Definition filter_description_contains (df : DataFrame) (substring : string)
    : result DataFrame :=
  match df with
  | [] => Ok df
  | _ => if negb (Text.truthy substring) then Ok df
         else str_contains Row.description substring df
  end.

Definition filter_channel_contains (df : DataFrame) (substring : string)
    : result DataFrame :=
  match df with
  | [] => Ok df
  | _ => if negb (Text.truthy substring) then Ok df
         else str_contains Row.channel substring df
  end.

End TextFilters.

End YoutubeEngine.

(** ** [modules/secrets_manager.py] *)

Module SecretsManager.

Import Api.
Local Open Scope list_scope.

(** [os.environ.get(k, dflt)] *)
Definition getenv (environ : gmap string string) (k dflt : string) : string :=
  default dflt (environ !! k).

(** [load_env]: every [KEY=value] line of the [.env] file, here already
    split into its key and value, is copied into [os.environ]. *)
Definition load_env (env_file : list (string * string))
    (environ : gmap string string) : gmap string string :=
  foldl (fun env kv => <[fst kv := snd kv]> env) environ env_file.

(** "Deduplicate preserving order" *)
Fixpoint unique_keys (keys : list string) (seen : gset string)
    (unique : list string) : list string :=
  match keys with
  | [] => unique
  | k :: rest =>
      if bool_decide (k ∉ seen)
      then unique_keys rest ({[k]} ∪ seen) (unique ++ [k])
      else unique_keys rest seen unique
  end.

Definition get_all_api_keys (env_file : list (string * string))
    (environ : gmap string string) : list string * gmap string string :=
  let environ := load_env env_file environ in
  let single := getenv environ "YOUTUBE_API_KEY" EmptyString in
  let keys := if Text.truthy single then [single] else [] in
  let keys :=
    foldl (fun keys i =>
             let k := getenv environ ("YOUTUBE_API_KEY_" ++ Py.str i)%string
                        EmptyString in
             if Text.truthy k then keys ++ [k] else keys)
      keys (map Z.of_nat (seq 2 19)) in
  (unique_keys keys ∅ [], environ).

Definition value_error : exn := Exn None "ValueError".

(** [rotate_api_key]: "Advance to the next API key in the pool." *)
Definition rotate_api_key (env_file : list (string * string))
    (environ : gmap string string) : result (gmap string string) :=
  let '(keys, environ) := get_all_api_keys env_file environ in
  if (length keys <=? 1)%nat then Ok environ
  else
    match Py.int (getenv environ "_YT_KEY_IDX" "0") with
    | None => Raise value_error
    | Some idx =>
        Ok (<["_YT_KEY_IDX" := Py.str ((idx + 1) mod Z.of_nat (length keys))]>
              environ)
    end.

(** [get_api_key]: the key under the cursor. *)
Definition get_api_key (env_file : list (string * string))
    (environ : gmap string string) : result (option string) :=
  let environ := load_env env_file environ in
  let single := environ !! "YOUTUBE_API_KEY" in
  let '(keys, environ) := get_all_api_keys env_file environ in
  match keys with
  | [] => Ok single
  | _ =>
      match Py.int (getenv environ "_YT_KEY_IDX" "0") with
      | None => Raise value_error
      | Some idx =>
          Ok (keys !! Z.to_nat (idx mod Z.of_nat (length keys)))
      end
  end.

(** One line of the [.env] file, as the loop of [load_env] reads it: the
    key and the value it assigns, or [None] for a line it skips. *)
Definition parse_env_line (line : string) : option (string * string) :=
  let line := Text.strip line in
  if Text.truthy line
     && negb (Text.starts_with_char "#" line)
     && Text.has_char "=" line
  then
    let '(key, value) := Text.partition "=" line in
    Some (Text.strip key,
          Text.strip_set "'"
            (Text.strip_set (String (ascii_of_nat 34) EmptyString)
               (Text.strip value)))
  else None.

(** The line [save_env] writes for an entry: the key, [=], and the value
    between double quotes. *)
Definition env_line (k v : string) : string :=
  (k ++ "=" ++ String (ascii_of_nat 34) (v ++ String (ascii_of_nat 34) EmptyString))%string.

(** The assignments [env_vars[key] = value] made by the loop of [load_env],
    in the order of the lines.  [env_text] is the text of the [.env] file,
    [None] when the file does not exist.  ([read_text] turns CR and CR LF
    into LF before [splitlines] sees them, which leaves the lines as they
    are.) *)
Definition env_assignments (env_text : option string)
    : list (string * string) :=
  match env_text with
  | Some text => omap parse_env_line (Text.splitlines text)
  | None => []
  end.

(** The dict [load_env] returns. *)
Definition env_vars (env_text : option string) : list (string * string) :=
  foldl (fun d kv => Py.dict_set (fst kv) (snd kv) d) []
    (env_assignments env_text).

(** [save_env]: the text written to the file, and [os.environ] after the
    call. *)
Definition save_env (key value : string) (env_text : option string)
    (environ : gmap string string) : string * gmap string string :=
  let environ := load_env (env_assignments env_text) environ in
  let env_vars := Py.dict_set key value (env_vars env_text) in
  let lines := map (fun kv => env_line (fst kv) (snd kv)) env_vars in
  ((Text.join (String "010" EmptyString) lines
    ++ String "010" EmptyString)%string,
   <[key := value]> environ).

(** [save_api_key] and [save_additional_api_key] (the latter for a slot
    from 2 to 20). *)
Definition save_api_key (api_key : string) (env_text : option string)
    (environ : gmap string string) : string * gmap string string :=
  save_env "YOUTUBE_API_KEY" api_key env_text environ.

Definition save_additional_api_key (api_key : string) (slot : Z)
    (env_text : option string) (environ : gmap string string)
    : string * gmap string string :=
  save_env ("YOUTUBE_API_KEY_" ++ Py.str slot)%string api_key env_text environ.

End SecretsManager.

(** ** [app.py] *)

Module App.

Import Api YoutubeEngine.
Local Open Scope list_scope.
Local Open Scope Z_scope.

(** The identifier of a hit as the de-duplication loop of [_yt] reads it. *)
Definition hit_id (it : item) : string :=
  match id it with
  | None => EmptyString                        (* it.get("id", {}) is {} *)
  | Some (IdDict (Some v)) => v
  | Some (IdDict None) => EmptyString
  | Some (IdOther repr) => repr
  end.

(** [_xv] *)
Definition _xv (items : list item) : list string :=
  map (fun it =>
         match id it with
         | Some (IdDict (Some v)) => v
         | Some (IdDict None) => EmptyString
         | Some (IdOther repr) => repr
         | None => EmptyString                 (* str(it.get("id", "")) *)
         end) items.

(** The state of a run of [_yt].  [pages] is not a variable of the source:
    it counts the iterations of [while fetched_count < mpq] begun so far. *)
Record state := State {
  ai : list item;
  search_count : Z;
  current_key_idx : nat;
  active_svc : option service;
  fetched_count : Z;
  next_page_token : option string;
  pages : nat;
  trace : list event }.

Definition with_trace (tr : list event) (s : state) : state :=
  State (ai s) (search_count s) (current_key_idx s) (active_svc s)
    (fetched_count s) (next_page_token s) (pages s) tr.

Definition log (ev : event) (s : state) : state :=
  with_trace (trace s ++ [ev]) s.

Definition with_fetched_count (n : Z) (s : state) : state :=
  State (ai s) (search_count s) (current_key_idx s) (active_svc s)
    n (next_page_token s) (pages s) (trace s).

Definition with_current_key_idx (idx : nat) (s : state) : state :=
  State (ai s) (search_count s) idx (active_svc s)
    (fetched_count s) (next_page_token s) (pages s) (trace s).

Definition with_active_svc (svc : option service) (s : state) : state :=
  State (ai s) (search_count s) (current_key_idx s) svc
    (fetched_count s) (next_page_token s) (pages s) (trace s).

(** [ai.extend(items)], the two counters, and the new page token *)
Definition accumulate (items : list item) (token : option string) (s : state)
    : state :=
  State (ai s ++ items) (search_count s + Z.of_nat (length items))
    (current_key_idx s) (active_svc s)
    (fetched_count s + Z.of_nat (length items)) token (pages s) (trace s).

(** [fetched_count = 0; next_page_token = None] *)
Definition begin_query (s : state) : state :=
  State (ai s) (search_count s) (current_key_idx s) (active_svc s)
    0 None (pages s) (trace s).

Definition begin_page (s : state) : state :=
  State (ai s) (search_count s) (current_key_idx s) (active_svc s)
    (fetched_count s) (next_page_token s) (S (pages s)) (trace s).

(** The exception of the "manual error check":
    [HttpError(MockResp(status=403, reason='Quota'), b'Quota')]. *)
Definition mock_quota_error : exn := Exn (Some 403) "HttpError 403 Quota".

Definition is_quota (e : exn) : bool :=
  match resp_status e with
  | Some status => (status =? 403) || (status =? 429)
  | None => false
  end
  || Text.contains "quota" (Text.lower (text e)).

Inductive control := Continue | Break.

Section Run.

Variable search_api : search_oracle.
Variable videos_api : videos_oracle.
(** the pool: [get_all_api_keys()], or the single configured key *)
Variable keys : list string.

Definition get_service_for_key (idx : nat) : option service :=
  if (length keys <=? idx)%nat then None else Built <$> keys !! idx.

(** The statements of the [try] block after the call. *)
Definition try_body (r : search_result) (mpq : Z) (s : state)
    : result state :=
  match error r with
  | Some _ => Raise mock_quota_error
  | None =>
      let s :=
        match items r with
        | [] => s
        | _ => accumulate (items r) (nextPageToken r) s
        end in
      let s :=
        if match items r with [] => true | _ => false end
           || negb (token_truthy (next_page_token s))
        then with_fetched_count (mpq + 1) s else s in
      Ok s
  end.

(** The [except] block. *)
Definition on_exception (e : exn) (q : string) (mpq : Z) (s : state)
    : control * state :=
  if is_quota e then
    let s := log (KeyExhausted (current_key_idx s + 1)) s in
    let s := with_current_key_idx (current_key_idx s + 1) s in
    if (current_key_idx s <? length keys)%nat
    then (Continue,
          with_active_svc (get_service_for_key (current_key_idx s)) s)
    else (Break, with_fetched_count (mpq + 1) (log AllKeysDead s))
  else (Break, with_fetched_count (mpq + 1) (log (QueryError q e) s)).

(** One pass through the body of the retry loop: the call, then the
    rest of the [try] block or the [except] block. *)
Definition attempt (q : string) (mpq batch_size : Z) (s : state)
    : control * state :=
  let '(r, tr) :=
    search_youtube search_api (active_svc s) q batch_size
      (next_page_token s) (trace s) in
  let s := with_trace tr s in
  match try_body r mpq s with
  | Ok s' => (Break, s')
  | Raise e => on_exception e q mpq s
  end.

(** [while retry < max_retries], by recursion on [max_retries - retry];
    [retry += 1] is the recursive call. *)
Fixpoint retry_loop (budget : nat) (q : string) (mpq batch_size : Z)
    (s : state) : state :=
  match budget with
  | O => s
  | S budget' =>
      match attempt q mpq batch_size s with
      | (Continue, s') => retry_loop budget' q mpq batch_size s'
      | (Break, s') => s'
      end
  end.

(** [while fetched_count < mpq]; [None] when [fuel] iterations were not
    enough to leave the loop. *)
Fixpoint page_loop (fuel : nat) (q : string) (mpq : Z) (s : state)
    : option state :=
  match fuel with
  | O => None
  | S fuel' =>
      if fetched_count s <? mpq then
        let batch_size := Z.min 50 (mpq - fetched_count s) in
        let max_retries := (length keys + 1)%nat in
        page_loop fuel' q mpq
          (retry_loop max_retries q mpq batch_size (begin_page s))
      else Some s
  end.

(** One turn of [for i, q in enumerate(qs)]. *)
Definition run_query (fuel : nat) (q : string) (mpq : Z) (s : state)
    : option state :=
  page_loop fuel q mpq (begin_query s).

Fixpoint query_loop (fuel : nat) (qs : list string) (mpq : Z) (s : state)
    : option state :=
  match qs with
  | [] => Some s
  | q :: rest =>
      match run_query fuel q mpq s with
      | Some s' => query_loop fuel rest mpq s'
      | None => None
      end
  end.

(** The state in which [_yt] enters the query loop. *)
Definition initial (svc : option service) : state :=
  State [] 0 0 svc 0 None 0 [].

(** The de-duplication loop. *)
Fixpoint unique_hits (ai : list item) (seen : gset string) (u : list item)
    : list item :=
  match ai with
  | [] => u
  | it :: rest =>
      let vi := hit_id it in
      if Text.truthy vi && bool_decide (vi ∉ seen)
      then unique_hits rest ({[vi]} ∪ seen) (u ++ [it])
      else unique_hits rest seen u
  end.

(** [[u[i:i + 50] for i in range(0, len(u), 50)]] *)
Definition u_chunks (u : list item) : list (list item) :=
  map (fun i => Py.slice u i (i + 50)) (Py.range_step (length u) 50).

(** [{d['id']: d for d in det}] *)
Definition details_by_id (det : list detail) : list (string * detail) :=
  foldl (fun acc d => Py.dict_set (detail_id d) d acc) [] det.

(** The body of [for idx, chunk in enumerate(u_chunks)], up to the
    binding of [det]; an exception of the second call is not handled. *)
Definition chunk_details (chunk : list item) (s : state)
    : result (list detail) * state :=
  let vs := List.filter Text.truthy (_xv chunk) in
  match get_video_details videos_api (active_svc s) vs (trace s) with
  | (Ok det, tr) => (Ok det, with_trace tr s)
  | (Raise _, tr) =>
      let s := with_trace tr s in
      if (current_key_idx s + 1 <? length keys)%nat then
        let s := with_current_key_idx (current_key_idx s + 1) s in
        let s := with_active_svc (get_service_for_key (current_key_idx s)) s in
        let '(r, tr) :=
          get_video_details videos_api (active_svc s) vs (trace s) in
        (r, with_trace tr s)
      else (Ok [], s)
  end.

Fixpoint details_loop (chunks : list (list item))
    (all_details : list (string * detail)) (s : state)
    : result (list (string * detail)) * state :=
  match chunks with
  | [] => (Ok all_details, s)
  | chunk :: rest =>
      match chunk_details chunk s with
      | (Ok det, s') =>
          let all_details :=
            match det with
            | [] => all_details
            | _ => Py.dict_update all_details (details_by_id det)
            end in
          details_loop rest all_details s'
      | (Raise e, s') => (Raise e, s')
      end
  end.

(** [_yt] up to the call of [parse_video_data]: the unique hits [u] and
    [det_list], the two arguments of that call. *)
Definition _yt (fuel : nat) (svc : option service) (qs : list string)
    (mpq : Z) : option (result (list item * list detail) * state) :=
  match query_loop fuel qs mpq (initial svc) with
  | None => None
  | Some s =>
      let u := unique_hits (ai s) ∅ [] in
      match u with
      | [] => Some (Ok ([], []), s)
      | _ =>
          match details_loop (u_chunks u) [] s with
          | (Ok all_details, s') =>
              Some (Ok (u, Py.dict_values all_details), s')
          | (Raise e, s') => Some (Raise e, s')
          end
      end
  end.

End Run.

(** *** [_pf]: the filter pipeline

    [kw] holds the keyword arguments; a field is [None] when the key is
    absent, and [kw.get(key, default)] supplies the default. *)

Record filter_kw := Kw {
  mnv : option Z; mnd : option Z; mxd : option Z; od : option bool;
  mw : option Q; gh : option bool; go : option bool;
  tc : option string; tr : option string;
  st : option bool; ac : option bool; nd : option bool; nt : option bool;
  nl : option bool; sd : option bool; ul : option bool;
  mvp : option Q; mna : option Z; mxa : option Z; hr : option (Z * Z);
  dc : option string; cf : option string }.

(** truth value of [kw.get(key)] *)
Definition flag (b : option bool) : bool := default false b.
Definition text_set (t : option string) : bool :=
  match t with Some x => Text.truthy x | None => false end.

(** One [if gate: df = action] statement of [_pf]. *)
Record stage := Stage {
  gate : filter_kw -> bool;
  action : filter_kw -> DataFrame -> result DataFrame }.

Definition run_stage (kw : filter_kw) (sg : stage) (df : DataFrame)
    : result DataFrame :=
  if gate sg kw then action sg kw df else Ok df.

Fixpoint run_stages (kw : filter_kw) (sgs : list stage) (df : DataFrame)
    : result DataFrame :=
  match sgs with
  | [] => Ok df
  | sg :: rest =>
      match run_stage kw sg df with
      | Ok df' => run_stages kw rest df'
      | Raise e => Raise e
      end
  end.

Section Filters.

Variable re_compile : string -> option (string -> bool).

(** [df = filter_by_views(df, mv)]: not under an [if]. *)
Definition views_ceiling (mv : Z) : stage :=
  Stage (fun _ => true) (fun _ df => Ok (filter_by_views df mv)).

(** The statements that follow it, in the order of the source. *)
Definition gated_stages : list stage :=
  [ Stage (fun kw => 0 <? default 0 (mnv kw))
      (fun kw df => Ok (filter_by_min_views df (default 0 (mnv kw))));
    Stage (fun kw => (0 <? default 0 (mnd kw))
                     || (default 999999 (mxd kw) <? 999999))
      (fun kw df => Ok (filter_by_duration df (default 0 (mnd kw))
                          (default 999999 (mxd kw))));
    Stage (fun kw => flag (od kw))
      (fun _ df => Ok (filter_default_filenames_only df));
    Stage (fun kw => Py.Qltb 0 (default 0%Q (mw kw)))
      (fun kw df => Ok (filter_by_weirdness df (default 0%Q (mw kw))));
    Stage (fun kw => flag (gh kw))
      (fun _ df => Ok (filter_no_engagement df));
    Stage (fun kw => flag (go kw))
      (fun _ df => Ok (filter_has_geolocation df));
    Stage (fun kw => text_set (tc kw))
      (fun kw df => filter_title_contains re_compile df
                      (default EmptyString (tc kw)));
    Stage (fun kw => text_set (tr kw))
      (fun kw df => filter_title_regex re_compile df
                      (default EmptyString (tr kw)));
    Stage (fun kw => flag (st kw))
      (fun _ df => Ok (filter_short_title df 15));
    Stage (fun kw => flag (ac kw))
      (fun _ df => Ok (filter_all_caps df));
    Stage (fun kw => flag (nd kw))
      (fun _ df => Ok (filter_no_description df));
    Stage (fun kw => flag (nt kw))
      (fun _ df => Ok (filter_no_tags df));
    Stage (fun kw => flag (nl kw))
      (fun _ df => Ok (filter_no_links df));
    Stage (fun kw => flag (sd kw))
      (fun _ df => Ok (filter_sd_only df));
    Stage (fun kw => flag (ul kw))
      (fun _ df => Ok (filter_exclude_licensed df));
    Stage (fun kw => Py.Qltb (default 1000%Q (mvp kw)) 1000)
      (fun kw df => Ok (filter_by_views_per_day df (default 1000%Q (mvp kw))));
    Stage (fun kw => (0 <? default 0 (mna kw))
                     || (default 99999 (mxa kw) <? 99999))
      (fun kw df => Ok (filter_by_age df (default 0 (mna kw))
                          (default 99999 (mxa kw))));
    Stage (fun kw => negb (bool_decide (default (0, 23) (hr kw) = (0, 23))))
      (fun kw df => Ok (filter_by_upload_hour df
                          (fst (default (0, 23) (hr kw)))
                          (snd (default (0, 23) (hr kw)))));
    Stage (fun kw => text_set (dc kw))
      (fun kw df => filter_description_contains re_compile df
                      (default EmptyString (dc kw)));
    Stage (fun kw => text_set (cf kw))
      (fun kw df => filter_channel_contains re_compile df
                      (default EmptyString (cf kw))) ].

Definition stages (mv : Z) : list stage := views_ceiling mv :: gated_stages.

Definition _pf (df : DataFrame) (mv : Z) (kw : filter_kw)
    : result DataFrame :=
  match df with
  | [] => Ok df
  | _ => run_stages kw (stages mv) df
  end.

End Filters.

(** No keyword given. *)
Definition kw_absent : filter_kw :=
  Kw None None None None None None None None None None None None None None
     None None None None None None None None.

(** The keywords as the search page passes them when no filter widget has
    been touched. *)
Definition kw_untouched : filter_kw :=
  Kw (Some 0) (Some 0) (Some 999999) (Some false) (Some 0%Q) (Some false)
     (Some false) (Some EmptyString) (Some EmptyString) (Some false)
     (Some false) (Some false) (Some false) (Some false) (Some false)
     (Some false) (Some 1000%Q) (Some 0) (Some 99999) (Some (0, 23))
     (Some EmptyString) (Some EmptyString).

(** [_e]: the text made safe for HTML. *)
Definition _e (t : string) : string :=
  if negb (Text.truthy t) then EmptyString
  else Text.replace_char ">" "&gt;"
         (Text.replace_char "<" "&lt;"
            (Text.replace_char "&" "&amp;" t)).

End App.

(* ===================================================================== *)
(** * Part II: properties                                                  *)
(* ===================================================================== *)

(** ** Rationals standing for floats *)

Section PyNumbers.

Local Open Scope Q_scope.

Lemma Qltb_true (x y : Q) : Py.Qltb x y = true <-> x < y.
Proof.
  unfold Py.Qltb. rewrite negb_true_iff, <- not_true_iff_false, Qle_bool_iff.
  split; [apply Qnot_le_lt | apply Qlt_not_le].
Qed.

Lemma Qltb_false (x y : Q) : Py.Qltb x y = false <-> y <= x.
Proof.
  unfold Py.Qltb. rewrite negb_false_iff. apply Qle_bool_iff.
Qed.

Lemma Qltb_proper (x x' y y' : Q) :
  x == x' -> y == y' -> Py.Qltb x y = Py.Qltb x' y'.
Proof. intros Hx Hy. unfold Py.Qltb. now rewrite Hx, Hy. Qed.

(** Rounding to the nearest integer moves a number by at most one half. *)
Lemma round_half_even_near (x : Q) :
  inject_Z (Py.round_half_even x) - (1 # 2) <= x /\
  x <= inject_Z (Py.round_half_even x) + (1 # 2).
Proof.
  unfold Py.round_half_even.
  pose proof (Qfloor_le x) as Hlo. pose proof (Qlt_floor x) as Hhi.
  assert (Hup : inject_Z (Qfloor x + 1) == inject_Z (Qfloor x) + 1)
    by (rewrite inject_Z_plus; reflexivity).
  rewrite Hup in Hhi.
  destruct (Py.Qltb (x - inject_Z (Qfloor x)) (1 # 2)) eqn:E1.
  - apply Qltb_true in E1. split; lra.
  - apply Qltb_false in E1.
    destruct (Py.Qltb (1 # 2) (x - inject_Z (Qfloor x))) eqn:E2.
    + rewrite Hup. split; lra.
    + apply Qltb_false in E2. destruct (Z.even (Qfloor x)).
      * split; lra.
      * rewrite Hup. split; lra.
Qed.

Lemma round_half_even_Z (n : Z) : Py.round_half_even (inject_Z n) = n.
Proof.
  unfold Py.round_half_even. rewrite Qfloor_Z.
  replace (Py.Qltb (inject_Z n - inject_Z n) (1 # 2)) with true; [reflexivity|].
  symmetry. apply Qltb_true. lra.
Qed.

Lemma round_half_even_proper (x y : Q) :
  x == y -> Py.round_half_even x = Py.round_half_even y.
Proof.
  intros H. unfold Py.round_half_even.
  rewrite (Qfloor_comp _ _ H).
  rewrite (Qltb_proper (x - _) (y - inject_Z (Qfloor y)) (1 # 2) (1 # 2)),
          (Qltb_proper (1 # 2) (1 # 2) (x - _) (y - inject_Z (Qfloor y)));
    try reflexivity; now rewrite H.
Qed.

Lemma scale_pos (ndigits : nat) : 0 < inject_Z (10 ^ Z.of_nat ndigits).
Proof.
  change 0 with (inject_Z 0). rewrite <- Zlt_Qlt.
  apply Z.pow_pos_nonneg; lia.
Qed.

(** [round(x, n)] is a whole number of units of [10^-n] ... *)
Lemma round_decimal (x : Q) (ndigits : nat) :
  exists k : Z, Py.round x ndigits == inject_Z k / inject_Z (10 ^ Z.of_nat ndigits).
Proof. eexists. unfold Py.round. reflexivity. Qed.

(** ... at most half a unit away from [x]. *)
Lemma round_near (x : Q) (ndigits : nat) :
  Qabs (Py.round x ndigits - x) <= (1 # 2) / inject_Z (10 ^ Z.of_nat ndigits).
Proof.
  unfold Py.round. pose proof (scale_pos ndigits) as Hs.
  set (sc := inject_Z (10 ^ Z.of_nat ndigits)) in *.
  destruct (round_half_even_near (x * sc)) as [Hlo Hhi].
  set (r := inject_Z (Py.round_half_even (x * sc))) in *.
  assert (Hne : ~ sc == 0) by lra.
  assert (E : r / sc - x == (r - x * sc) * / sc) by (field; exact Hne).
  assert (E' : - ((1 # 2) / sc) == (- (1 # 2)) * / sc) by (field; exact Hne).
  assert (Hi : 0 <= / sc) by (apply Qlt_le_weak, Qinv_lt_0_compat; exact Hs).
  apply Qabs_Qle_condition. rewrite E, E'. unfold Qdiv.
  split; (apply Qmult_le_compat_r; [lra | exact Hi]).
Qed.

(** A whole number is its own rounding. *)
Lemma round_Z (n : Z) (ndigits : nat) : Py.round (inject_Z n) ndigits == inject_Z n.
Proof.
  unfold Py.round. pose proof (scale_pos ndigits) as Hs.
  rewrite (round_half_even_proper _ (inject_Z (n * 10 ^ Z.of_nat ndigits)))
    by (rewrite inject_Z_mult; reflexivity).
  rewrite round_half_even_Z, inject_Z_mult. field. lra.
Qed.

End PyNumbers.

(** ** The obscurity score *)

Section Scoring.

Import YoutubeEngine.

Lemma view_points_range (views : Z) : 0 <= view_points views <= 30.
Proof. unfold view_points. repeat case_match; lia. Qed.

Lemma temporal_points_range (age_days views : Z) :
  0 <= temporal_points age_days views <= 18.
Proof. unfold temporal_points. repeat case_match; lia. Qed.

Lemma title_points_range title numbers_only all_caps title_entropy :
  0 <= title_points title numbers_only all_caps title_entropy <= 21.
Proof. unfold title_points. repeat case_match; lia. Qed.

Lemma description_points_range description desc_length tags :
  0 <= description_points description desc_length tags <= 8.
Proof. unfold description_points. repeat case_match; lia. Qed.

Lemma duration_points_range (duration_seconds : Z) :
  0 <= duration_points duration_seconds <= 4.
Proof. unfold duration_points. repeat case_match; lia. Qed.

Lemma ghost_points_range (likes comments views : Z) :
  0 <= ghost_points likes comments views <= 10.
Proof. unfold ghost_points. repeat case_match; lia. Qed.

Lemma velocity_points_range (age_days : Z) (views_per_day : Q) :
  0 <= velocity_points age_days views_per_day <= 4.
Proof. unfold velocity_points. repeat case_match; lia. Qed.

Lemma geo_points_range (has_location : bool) :
  0 <= geo_points has_location <= 3.
Proof. unfold geo_points. case_match; lia. Qed.

Lemma keyword_points_range (title description : string) :
  0 <= keyword_points title description <= 4.
Proof. unfold keyword_points, weird_hits. lia. Qed.

(** The float inputs matter through their value only. *)
Lemma title_points_proper title numbers_only all_caps (e e' : Q) :
  (e == e')%Q ->
  title_points title numbers_only all_caps e
  = title_points title numbers_only all_caps e'.
Proof.
  intros H. unfold title_points.
  rewrite (Qltb_proper e e' 2 2), (Qltb_proper (45 # 10) (45 # 10) e e');
    (reflexivity || exact H).
Qed.

Lemma velocity_points_proper (age_days : Z) (v v' : Q) :
  (v == v')%Q -> velocity_points age_days v = velocity_points age_days v'.
Proof.
  intros H. unfold velocity_points.
  rewrite (Qltb_proper v v' (1 # 100) (1 # 100)),
          (Qltb_proper v v' (5 # 100) (5 # 100));
    (reflexivity || exact H).
Qed.

(** The sum of the increments, as an integer. *)
Definition total_points (title description : string)
    (views likes comments duration_seconds age_days : Z)
    (tags : list string) (has_location : bool) (title_entropy : Q)
    (desc_length : Z) (all_caps numbers_only : bool) (views_per_day : Q) : Z :=
  view_points views + temporal_points age_days views
  + title_points title numbers_only all_caps title_entropy
  + description_points description desc_length tags
  + duration_points duration_seconds + ghost_points likes comments views
  + velocity_points age_days views_per_day + geo_points has_location
  + keyword_points title description.

Lemma accumulated_score_total title description views likes comments
    duration_seconds age_days tags has_location title_entropy desc_length
    all_caps numbers_only views_per_day :
  (accumulated_score title description views likes comments
     duration_seconds age_days tags has_location title_entropy desc_length
     all_caps numbers_only views_per_day
   == inject_Z (total_points title description views likes comments
                  duration_seconds age_days tags has_location title_entropy
                  desc_length all_caps numbers_only views_per_day))%Q.
Proof.
  unfold accumulated_score, total_points. cbv zeta.
  rewrite !inject_Z_plus. ring.
Qed.

Lemma total_points_range title description views likes comments
    duration_seconds age_days tags has_location title_entropy desc_length
    all_caps numbers_only views_per_day :
  0 <= total_points title description views likes comments
         duration_seconds age_days tags has_location title_entropy
         desc_length all_caps numbers_only views_per_day <= 102.
Proof.
  unfold total_points.
  pose proof (view_points_range views).
  pose proof (temporal_points_range age_days views).
  pose proof (title_points_range title numbers_only all_caps title_entropy).
  pose proof (description_points_range description desc_length tags).
  pose proof (duration_points_range duration_seconds).
  pose proof (ghost_points_range likes comments views).
  pose proof (velocity_points_range age_days views_per_day).
  pose proof (geo_points_range has_location).
  pose proof (keyword_points_range title description).
  lia.
Qed.

(** The returned score is the sum of the increments, cut at 100. *)
Lemma compute_weirdness_score_value title description views likes comments
    duration_seconds age_days tags has_location title_entropy desc_length
    all_caps numbers_only views_per_day :
  (compute_weirdness_score title description views likes comments
     duration_seconds age_days tags has_location title_entropy desc_length
     all_caps numbers_only views_per_day
   == inject_Z (Z.min 100
                  (total_points title description views likes comments
                     duration_seconds age_days tags has_location
                     title_entropy desc_length all_caps numbers_only
                     views_per_day)))%Q.
Proof.
  unfold compute_weirdness_score. cbv zeta.
  pose proof (total_points_range title description views likes comments
                duration_seconds age_days tags has_location title_entropy
                desc_length all_caps numbers_only views_per_day) as Hr.
  pose proof (accumulated_score_total title description views likes comments
                duration_seconds age_days tags has_location title_entropy
                desc_length all_caps numbers_only views_per_day) as Ht.
  set (n := total_points _ _ _ _ _ _ _ _ _ _ _ _ _ _) in *.
  set (a := accumulated_score _ _ _ _ _ _ _ _ _ _ _ _ _ _) in *.
  assert (Hround : (Py.round a 1 == inject_Z n)%Q).
  { unfold Py.round. rewrite (round_half_even_proper _ (inject_Z (n * 10 ^ Z.of_nat 1))).
    - rewrite round_half_even_Z, inject_Z_mult. field. 
      pose proof (scale_pos 1). lra.
    - rewrite Ht, inject_Z_mult. reflexivity. }
  set (r := Py.round a 1) in *.
  assert (H0 : (0 <= inject_Z n)%Q)
    by (change 0%Q with (inject_Z 0); rewrite <- Zle_Qle; lia).
  unfold Py.max, Py.min.
  destruct (Py.Qltb 0 r) eqn:E0.
  - destruct (Py.Qltb r 100) eqn:E1.
    + apply Qltb_true in E1. rewrite Hround in *.
      change 100%Q with (inject_Z 100) in E1. rewrite <- Zlt_Qlt in E1.
      rewrite Z.min_r by lia. reflexivity.
    + apply Qltb_false in E1. rewrite Hround in E1.
      change 100%Q with (inject_Z 100) in E1. rewrite <- Zle_Qle in E1.
      rewrite Z.min_l by lia. reflexivity.
  - apply Qltb_false in E0. rewrite Hround in E0.
    assert (n = 0).
    { change 0%Q with (inject_Z 0) in E0. rewrite <- Zle_Qle in E0. lia. }
    replace (Py.Qltb 0 100) with true by reflexivity.
    rewrite H. reflexivity.
Qed.

End Scoring.

Section ScoringClaims.

Import YoutubeEngine.

(** C1. [compute_weirdness_score] is deterministic and bounded: the score
    is fixed by the values of its arguments (two float arguments of equal
    value give the very same score), it lies between 0 and 100, and it is
    a whole number of tenths. *)
Theorem compute_weirdness_score_deterministic_bounded
    (title description : string)
    (views likes comments duration_seconds age_days : Z)
    (tags : list string) (has_location : bool) (title_entropy title_entropy' : Q)
    (desc_length : Z) (all_caps numbers_only : bool)
    (views_per_day views_per_day' : Q) :
  (title_entropy == title_entropy')%Q ->
  (views_per_day == views_per_day')%Q ->
  compute_weirdness_score title description views likes comments
    duration_seconds age_days tags has_location title_entropy desc_length
    all_caps numbers_only views_per_day
  = compute_weirdness_score title description views likes comments
      duration_seconds age_days tags has_location title_entropy' desc_length
      all_caps numbers_only views_per_day'
  /\ (0 <= compute_weirdness_score title description views likes comments
            duration_seconds age_days tags has_location title_entropy
            desc_length all_caps numbers_only views_per_day)%Q
  /\ (compute_weirdness_score title description views likes comments
        duration_seconds age_days tags has_location title_entropy
        desc_length all_caps numbers_only views_per_day <= 100)%Q
  /\ exists tenths : Z,
       (compute_weirdness_score title description views likes comments
          duration_seconds age_days tags has_location title_entropy
          desc_length all_caps numbers_only views_per_day
        == inject_Z tenths / 10)%Q.
Proof.
  intros He Hv.
  pose proof (compute_weirdness_score_value title description views likes
                comments duration_seconds age_days tags has_location
                title_entropy desc_length all_caps numbers_only
                views_per_day) as Hval.
  pose proof (total_points_range title description views likes comments
                duration_seconds age_days tags has_location title_entropy
                desc_length all_caps numbers_only views_per_day) as Hr.
  set (n := total_points _ _ _ _ _ _ _ _ _ _ _ _ _ _) in *.
  split; [|split; [|split]].
  - unfold compute_weirdness_score, accumulated_score.
    now rewrite (title_points_proper _ _ _ _ _ He),
                (velocity_points_proper _ _ _ Hv).
  - rewrite Hval. change 0%Q with (inject_Z 0). rewrite <- Zle_Qle. lia.
  - rewrite Hval. change 100%Q with (inject_Z 100). rewrite <- Zle_Qle. lia.
  - exists (10 * Z.min 100 n). rewrite Hval, inject_Z_mult.
    change (inject_Z 10) with 10%Q. field.
Qed.

Lemma compute_weirdness_score_deterministic_bounded_witness :
  ((1 # 2) == (2 # 4))%Q /\ ((1 # 400) == (2 # 800))%Q /\
  (compute_weirdness_score "IMG_0001 weird" EmptyString 0 0 0 2 6000 []
     true (1 # 2) 0 true false (1 # 400)
   = compute_weirdness_score "IMG_0001 weird" EmptyString 0 0 0 2 6000 []
       true (2 # 4) 0 true false (2 # 800)
   /\ (0 <= compute_weirdness_score "IMG_0001 weird" EmptyString 0 0 0 2
             6000 [] true (1 # 2) 0 true false (1 # 400))%Q
   /\ (compute_weirdness_score "IMG_0001 weird" EmptyString 0 0 0 2 6000 []
         true (1 # 2) 0 true false (1 # 400) <= 100)%Q
   /\ exists tenths : Z,
        (compute_weirdness_score "IMG_0001 weird" EmptyString 0 0 0 2 6000
           [] true (1 # 2) 0 true false (1 # 400)
         == inject_Z tenths / 10)%Q).
Proof.
  assert (He : ((1 # 2) == (2 # 4))%Q) by reflexivity.
  assert (Hv : ((1 # 400) == (2 # 800))%Q) by reflexivity.
  split; [exact He | split; [exact Hv |]].
  exact (compute_weirdness_score_deterministic_bounded
           "IMG_0001 weird" EmptyString 0 0 0 2 6000 [] true (1 # 2) (2 # 4)
           0 true false (1 # 400) (2 # 800) He Hv).
Defined.

(** The score does reach both ends of its range. *)
Example compute_weirdness_score_reaches_100 :
  compute_weirdness_score "IMG_0001 weird creepy" EmptyString 0 0 0 2 6000
    [] true 1 0 true true 0 = 100%Q
  /\ accumulated_score "IMG_0001 weird creepy" EmptyString 0 0 0 2 6000
       [] true 1 0 true true 0 = 102%Q.
Proof. split; vm_compute; reflexivity. Qed.

Example compute_weirdness_score_reaches_0 :
  (compute_weirdness_score "hello world" "a long description here ok" 5000
     3 1 100 10 ["a"] false 3 26 false false 500 == 0)%Q.
Proof. vm_compute. reflexivity. Qed.

(** C2, as stated, fails: 500 views are below the last threshold of the
    view-count band and earn 5 points. *)
Lemma view_points_500_not_zero :
  ~ (view_points 0 = 30 /\ view_points 500 = 0).
Proof. intros [_ H]. vm_compute in H. discriminate H. Qed.

(** C2, amended. In the view-count band a record with 0 views earns
    exactly 30 points and a record with 500 views earns 5; the band gives
    0 points exactly to the records with more than 1000 views, and all
    records between 201 and 1000 views earn 5. *)
Theorem view_points_at_0_and_500 :
  view_points 0 = 30 /\ view_points 500 = 5
  /\ (forall views, view_points views = 0 <-> 1000 < views)
  /\ (forall views, view_points views = 5 <-> 200 < views <= 1000).
Proof.
  split; [reflexivity | split; [reflexivity | split]];
    intros views; unfold view_points; repeat case_match; lia.
Qed.

(** The band is the first thing added to the score: with every other
    increment at 0 the accumulated score is the band alone. *)
Example view_points_alone :
  accumulated_score "hello world" "a long description here ok" 0
    3 1 100 10 ["a"] false 3 26 false false 500 = 30%Q
  /\ accumulated_score "hello world" "a long description here ok" 500
       3 1 100 10 ["a"] false 3 26 false false 500 = 5%Q.
Proof. split; vm_compute; reflexivity. Qed.

(** C9, as stated, fails: a video published one hour after [now] has
    age -1. *)
Lemma age_days_negative :
  ~ (forall now published_dt, 0 <= age_days now published_dt).
Proof.
  intros H.
  specialize (H 1700000000000000 (Some (1700000000000000 + 3600 * 1000000))).
  vm_compute in H. apply H. reflexivity.
Qed.

(** C9, amended. The age is the whole number of days, rounded down, from
    the publish time stamp to [now]: it is negative exactly when the time
    stamp is later than [now], and it is 0 when the time stamp cannot be
    read.  The velocity is [views / max(age, 1)] rounded to four decimals:
    a whole number of ten-thousandths within half a ten-thousandth of the
    quotient, whose divisor is never below 1. *)
Theorem age_days_and_vpd (now views age : Z) :
  age_days now None = 0
  /\ (forall p,
        age_days now (Some p) * microseconds_per_day <= now - p
        < (age_days now (Some p) + 1) * microseconds_per_day)
  /\ (forall p, age_days now (Some p) < 0 <-> now < p)
  /\ (Qabs (vpd views age - inject_Z views / inject_Z (Z.max age 1))
      <= 1 # 20000)%Q
  /\ (exists k : Z, (vpd views age == inject_Z k / 10000)%Q)
  /\ 1 <= Z.max age 1.
Proof.
  assert (Hday : 0 < microseconds_per_day) by reflexivity.
  split; [reflexivity|]. split; [|split; [|split; [|split]]].
  - intros p. unfold age_days.
    pose proof (Z.mul_div_le (now - p) _ Hday).
    pose proof (Z.mul_succ_div_gt (now - p) _ Hday). lia.
  - intros p. unfold age_days. split; intros H.
    + destruct (Z.lt_ge_cases now p) as [|Hge]; [assumption|].
      assert (0 <= (now - p) / microseconds_per_day)
        by (apply Z.div_pos; lia). lia.
    + apply Z.div_lt_upper_bound; lia.
  - unfold vpd. apply (round_near _ 4).
  - unfold vpd. apply (round_decimal _ 4).
  - lia.
Qed.

Example vpd_of_future_video : (vpd 7 (-1) == 7)%Q.
Proof. vm_compute. reflexivity. Qed.

End ScoringClaims.

(** ** Keeping the first element of each key

    The three de-duplication loops of the program have one shape: walk the
    list, admit an element when its key is acceptable and not yet in [seen],
    and add the key to [seen].  [first_seen] is that walk without the
    accumulator. *)

Local Open Scope list_scope.

Section FirstSeen.

Context {A : Type} (key : A -> string) (ok : A -> bool).

Fixpoint first_seen (l : list A) (seen : gset string) : list A :=
  match l with
  | [] => []
  | x :: rest =>
      if ok x && bool_decide (key x ∉ seen)
      then x :: first_seen rest ({[key x]} ∪ seen)
      else first_seen rest seen
  end.

Lemma first_seen_elem (l : list A) (seen : gset string) (x : A) :
  x ∈ first_seen l seen -> x ∈ l /\ ok x = true /\ key x ∉ seen.
Proof.
  revert seen. induction l as [|y l IH]; intros seen Hx; simpl in Hx.
  - inversion Hx.
  - destruct (ok y) eqn:Hok; simpl in Hx.
    + case_bool_decide as Hy.
      * apply elem_of_cons in Hx as [->|Hx].
        -- split; [left|]. auto.
        -- apply IH in Hx as (? & ? & Hn). split; [by right|].
           split; [done|]. set_solver.
      * apply IH in Hx as (? & ? & ?). split; [by right|]. done.
    + apply IH in Hx as (? & ? & ?). split; [by right|]. done.
Qed.

Lemma first_seen_sublist (l : list A) (seen : gset string) :
  sublist (first_seen l seen) l.
Proof.
  revert seen. induction l as [|y l IH]; intros seen; simpl.
  - constructor.
  - destruct (ok y && bool_decide (key y ∉ seen)).
    + by apply sublist_skip.
    + by apply sublist_cons.
Qed.

Lemma first_seen_NoDup (l : list A) (seen : gset string) :
  NoDup (key <$> first_seen l seen).
Proof.
  revert seen. induction l as [|y l IH]; intros seen; simpl.
  - constructor.
  - destruct (ok y && bool_decide (key y ∉ seen)); [|apply IH].
    rewrite fmap_cons. apply NoDup_cons. split; [|apply IH].
    intros Hin. apply list_elem_of_fmap in Hin as (z & Hk & Hz).
    apply first_seen_elem in Hz as (_ & _ & Hn). set_solver.
Qed.

Lemma first_seen_cover (l : list A) (seen : gset string) (x : A) :
  x ∈ l -> ok x = true ->
  key x ∈ seen \/ key x ∈ key <$> first_seen l seen.
Proof.
  revert seen. induction l as [|y l IH]; intros seen Hx Hok.
  - inversion Hx.
  - simpl. apply elem_of_cons in Hx as [->|Hx].
    + rewrite Hok. simpl. case_bool_decide as Hy.
      * right. rewrite fmap_cons. left.
      * left. destruct (decide (key y ∈ seen)); [done | contradiction].
    + destruct (ok y && bool_decide (key y ∉ seen)).
      * destruct (IH ({[key y]} ∪ seen) Hx Hok) as [Hs|Hs].
        -- apply elem_of_union in Hs as [Hs|Hs]; [|by left].
           apply elem_of_singleton in Hs. right. rewrite fmap_cons, Hs. left.
        -- right. rewrite fmap_cons. by right.
      * by apply IH.
Qed.

(** An acceptable element whose key occurs neither in [seen] nor on an
    acceptable element before it is kept. *)
Lemma first_seen_first (pre post : list A) (x : A) (seen : gset string) :
  ok x = true -> key x ∉ seen ->
  (forall y, y ∈ pre -> ok y = true -> key y <> key x) ->
  x ∈ first_seen (pre ++ x :: post) seen.
Proof.
  revert seen. induction pre as [|y pre IH]; intros seen Hok Hn Hpre; simpl.
  - rewrite Hok. simpl. rewrite bool_decide_eq_true_2 by done. left.
  - assert (Hrest : forall z, z ∈ pre -> ok z = true -> key z <> key x)
      by (intros z Hz; apply Hpre; by right).
    destruct (ok y) eqn:Hy; simpl.
    + case_bool_decide.
      * right. apply IH; [done| |done].
        assert (key y <> key x) by (apply Hpre; [left|done]). set_solver.
      * by apply IH.
    + by apply IH.
Qed.

Lemma first_seen_app (l1 l2 : list A) (seen : gset string) :
  first_seen (l1 ++ l2) seen
  = first_seen l1 seen
    ++ first_seen l2 (list_to_set (key <$> first_seen l1 seen) ∪ seen).
Proof.
  revert seen. induction l1 as [|y l1 IH]; intros seen; simpl.
  - f_equal. set_solver.
  - destruct (ok y && bool_decide (key y ∉ seen)); [|apply IH].
    simpl. rewrite IH. do 3 f_equal. set_solver.
Qed.

Lemma first_seen_nothing_new (l : list A) (seen : gset string) :
  (forall x, x ∈ l -> ok x = true -> key x ∈ seen) ->
  first_seen l seen = [].
Proof.
  induction l as [|y l IH]; intros H; simpl; [done|].
  destruct (ok y) eqn:Hy; simpl.
  - rewrite bool_decide_eq_false_2.
    + apply IH. intros x Hx. apply H. by right.
    + intros Hn. apply Hn, H; [left|done].
  - apply IH. intros x Hx. apply H. by right.
Qed.

(** Offering again elements that were offered before changes nothing. *)
Lemma first_seen_again (l again : list A) :
  (forall x, x ∈ again -> x ∈ l) ->
  first_seen (l ++ again) ∅ = first_seen l ∅.
Proof.
  intros H. rewrite first_seen_app, (first_seen_nothing_new again).
  - apply app_nil_r.
  - intros x Hx Hok.
    destruct (first_seen_cover l ∅ x (H x Hx) Hok) as [Hs|Hs]; set_solver.
Qed.

(** A list that is already free of duplicates and of unacceptable
    elements is kept as it is. *)
Lemma first_seen_fixed (l : list A) (seen : gset string) :
  (forall x, x ∈ l -> ok x = true /\ key x ∉ seen) ->
  NoDup (key <$> l) ->
  first_seen l seen = l.
Proof.
  revert seen. induction l as [|y l IH]; intros seen H Hnd; simpl; [done|].
  rewrite fmap_cons in Hnd. apply NoDup_cons in Hnd as [Hy Hnd].
  destruct (H y) as [Hok Hn]; [left|].
  rewrite Hok. simpl. rewrite bool_decide_eq_true_2 by done.
  f_equal. apply IH; [|done].
  intros x Hx. destruct (H x) as [? ?]; [by right|]. split; [done|].
  assert (key x <> key y).
  { intros E. apply Hy. rewrite <- E. apply list_elem_of_fmap. eauto. }
  set_solver.
Qed.

Lemma first_seen_idempotent (l : list A) :
  first_seen (first_seen l ∅) ∅ = first_seen l ∅.
Proof.
  apply first_seen_fixed; [|apply first_seen_NoDup].
  intros x Hx. apply first_seen_elem in Hx as (_ & ? & _). set_solver.
Qed.

End FirstSeen.

(** Walking the images of a list is walking the list. *)
Lemma first_seen_fmap {A B : Type} (f : A -> B) (key : B -> string)
    (ok : B -> bool) (l : list A) (seen : gset string) :
  first_seen key ok (f <$> l) seen
  = f <$> first_seen (fun x => key (f x)) (fun x => ok (f x)) l seen.
Proof.
  revert seen. induction l as [|x l IH]; intros seen; simpl; [done|].
  destruct (ok (f x) && bool_decide (key (f x) ∉ seen)); simpl.
  - by rewrite IH.
  - apply IH.
Qed.

(** ** De-duplication of search hits and of queries *)

Section Deduplication.

Import Api YoutubeEngine App.

Definition has_id (it : item) : bool := Text.truthy (hit_id it).

Lemma truthy_nonempty (s : string) : Text.truthy s = true <-> s <> EmptyString.
Proof.
  unfold Text.truthy. rewrite negb_true_iff. apply String.eqb_neq.
Qed.

(** The loop of [_yt] is [first_seen] with an accumulator. *)
Lemma unique_hits_first_seen (ai : list item) (seen : gset string)
    (u : list item) :
  unique_hits ai seen u = u ++ first_seen hit_id has_id ai seen.
Proof.
  revert seen u. induction ai as [|it ai IH]; intros seen u; simpl.
  - by rewrite app_nil_r.
  - unfold has_id at 1.
    destruct (Text.truthy (hit_id it) && bool_decide (hit_id it ∉ seen)).
    + rewrite IH, <- app_assoc. reflexivity.
    + apply IH.
Qed.

Lemma unique_hits_start (ai : list item) :
  unique_hits ai ∅ [] = first_seen hit_id has_id ai ∅.
Proof. apply unique_hits_first_seen. Qed.

(** [parse_video_data] and [_xv] read the identifier as the loop does. *)
Lemma parse_video_data_video_id_hit_id (it : item) :
  parse_video_data_video_id it = hit_id it.
Proof. reflexivity. Qed.

Lemma _xv_hit_id (items : list item) : _xv items = hit_id <$> items.
Proof.
  unfold _xv. apply map_ext. intros it. unfold hit_id.
  destruct (id it) as [[[v|]|r]|]; reflexivity.
Qed.

(** C5. The unique hits [u] are the hits of [ai] in their order of first
    appearance: no hit without identifier is kept, no identifier is kept
    twice, every identifier that occurs is kept, on the first hit that
    carries it.  Offering hits a second time changes nothing (so merging
    is idempotent), and the rows built from [u] have pairwise different
    [video_id]s. *)
Theorem unique_hits_dedup (ai again : list item) (h : item) :
  let u := unique_hits ai ∅ [] in
  sublist u ai
  /\ (forall it, it ∈ u -> hit_id it <> EmptyString)
  /\ NoDup (hit_id <$> u)
  /\ (forall it, it ∈ ai -> hit_id it <> EmptyString ->
                 hit_id it ∈ hit_id <$> u)
  /\ (forall pre it post,
        ai = pre ++ it :: post -> hit_id it <> EmptyString ->
        hit_id it ∉ hit_id <$> pre -> it ∈ u)
  /\ ((forall it, it ∈ again -> it ∈ ai) ->
      unique_hits (ai ++ again) ∅ [] = u)
  /\ unique_hits ((ai ++ [h]) ++ [h]) ∅ [] = unique_hits (ai ++ [h]) ∅ []
  /\ NoDup (hit_id <$> unique_hits ((ai ++ [h]) ++ [h]) ∅ [])
  /\ unique_hits u ∅ [] = u
  /\ NoDup (parse_video_data_video_id <$> u).
Proof.
  intros u. subst u. rewrite !unique_hits_start.
  repeat split.
  - apply first_seen_sublist.
  - intros it Hit. apply first_seen_elem in Hit as (_ & Hok & _).
    by apply truthy_nonempty.
  - apply first_seen_NoDup.
  - intros it Hit Hne.
    destruct (first_seen_cover hit_id has_id ai ∅ it Hit) as [Hs|Hs];
      [by apply truthy_nonempty | set_solver | done].
  - intros pre it post -> Hne Hpre.
    apply first_seen_first; [by apply truthy_nonempty | set_solver |].
    intros y Hy _ E. apply Hpre. rewrite <- E.
    apply list_elem_of_fmap. eauto.
  - intros H. by apply first_seen_again.
  - apply first_seen_again. intros it Hit. set_solver.
  - apply first_seen_NoDup.
  - apply first_seen_idempotent.
  - apply (first_seen_NoDup hit_id has_id).
Qed.

Definition query_key (q : string) : string := Text.lower (Text.strip q).

(** The final loop of [build_search_queries] is [first_seen] with an
    accumulator, followed by [strip]. *)
Lemma dedup_queries_first_seen (queries : list string) (seen : gset string)
    (result : list string) :
  dedup_queries queries seen result
  = result ++ (Text.strip <$> first_seen query_key (fun _ => true) queries seen).
Proof.
  revert seen result. induction queries as [|q queries IH];
    intros seen result; simpl.
  - by rewrite app_nil_r.
  - fold (query_key q).
    destruct (bool_decide (query_key q ∉ seen)).
    + rewrite IH, <- app_assoc. reflexivity.
    + apply IH.
Qed.

(** C10. [build_search_queries] never returns the empty list.  When no
    query is generated it returns [["IMG_"]]; otherwise it returns the
    generated queries (taken, as the loop takes them, without surrounding
    white space) de-duplicated case-insensitively with the first occurrence
    kept: the order is that of the queries, no lower-case form is returned
    twice, every query is represented, and by its first occurrence. *)
Theorem build_search_queries_nonempty_dedup (keywords : string)
    (filename_patterns : list string) (custom_pattern : string)
    (weirdness_keywords : list string) :
  let queries :=
    Text.strip <$> generated_queries keywords filename_patterns custom_pattern
                     weirdness_keywords in
  let result :=
    build_search_queries keywords filename_patterns custom_pattern
      weirdness_keywords in
  result <> []
  /\ match queries with
     | [] => result = ["IMG_"]
     | _ :: _ =>
         result = first_seen Text.lower (fun _ => true) queries ∅
         /\ sublist result queries
         /\ NoDup (Text.lower <$> result)
         /\ (forall x, x ∈ queries -> Text.lower x ∈ Text.lower <$> result)
         /\ (forall pre x post,
               queries = pre ++ x :: post ->
               Text.lower x ∉ Text.lower <$> pre -> x ∈ result)
     end.
Proof.
  intros queries result. subst result. unfold build_search_queries.
  rewrite dedup_queries_first_seen, app_nil_l.
  change (first_seen query_key (fun _ => true))
    with (first_seen (fun q => Text.lower (Text.strip q))
            (fun q => (fun _ : string => true) (Text.strip q))).
  rewrite <- (first_seen_fmap Text.strip Text.lower (fun _ => true)).
  fold queries. destruct queries as [|q0 rest] eqn:Hq.
  - simpl. split; [discriminate | reflexivity].
  - set (kept := first_seen Text.lower (fun _ => true) (q0 :: rest) ∅).
    assert (Hk : exists k0 ks, kept = k0 :: ks).
    { subst kept. simpl. rewrite bool_decide_eq_true_2 by set_solver. eauto. }
    destruct Hk as (k0 & ks & Hk).
    assert (Hres : match kept with [] => ["IMG_"] | _ :: _ => kept end = kept)
      by (rewrite Hk; reflexivity).
    rewrite Hres. split; [rewrite Hk; discriminate|].
    split; [reflexivity|].
    split; [apply first_seen_sublist|]. split; [apply first_seen_NoDup|].
    split.
    + intros x Hx.
      destruct (first_seen_cover Text.lower (fun _ => true) (q0 :: rest) ∅ x Hx)
        as [Hs|Hs]; [done | set_solver | done].
    + intros pre x post E Hpre. subst kept. rewrite E.
      apply first_seen_first; [done | set_solver |].
      intros y Hy _ Ey. apply Hpre. rewrite <- Ey.
      apply list_elem_of_fmap. eauto.
Qed.

Example build_search_queries_fallback :
  build_search_queries "  " [] EmptyString [] = ["IMG_"].
Proof. vm_compute. reflexivity. Qed.

Example build_search_queries_first_wins :
  build_search_queries " cats " ["IMG_XXXX"; "OBS_"] " Cats" ["weird"; "IMG_"]
  = ["cats"; "IMG_ cats"; "OBS  cats"; "weird cats"].
Proof. vm_compute. reflexivity. Qed.

Example build_search_queries_strips :
  build_search_queries EmptyString ["OBS_"; "obs"] EmptyString [] = ["OBS"].
Proof. vm_compute. reflexivity. Qed.

End Deduplication.

(** ** The filter pipeline *)

Section FilterPipeline.

Import Api YoutubeEngine App.

Lemma mask_sublist {A} (mask : A -> bool) (l : list A) :
  sublist (List.filter mask l) l.
Proof.
  induction l as [|x l IH]; simpl.
  - constructor.
  - destruct (mask x); [by apply sublist_skip | by apply sublist_cons].
Qed.

Lemma nonempty_mask_sublist (mask : Row.t -> bool) (df : DataFrame) :
  sublist match df with [] => df | _ :: _ => List.filter mask df end df.
Proof. destruct df; [constructor | apply mask_sublist]. Qed.

Lemma mask_elem {A} (mask : A -> bool) (l : list A) (x : A) :
  x ∈ List.filter mask l <-> x ∈ l /\ mask x = true.
Proof. rewrite !list_elem_of_In. apply filter_In. Qed.

Variable re_compile : string -> option (string -> bool).

Lemma str_contains_sublist column pat (df df' : DataFrame) :
  str_contains re_compile column pat df = Ok df' -> sublist df' df.
Proof.
  unfold str_contains. destruct (re_compile pat); [|discriminate].
  intros [= <-]. apply mask_sublist.
Qed.

Definition shrinks (f : DataFrame -> result DataFrame) : Prop :=
  forall df df', f df = Ok df' -> sublist df' df.

Lemma text_filter_sublist column pat (df df' : DataFrame) :
  match df with
  | [] => Ok df
  | _ :: _ => if negb (Text.truthy pat) then Ok df
              else str_contains re_compile column pat df
  end = Ok df' -> sublist df' df.
Proof.
  destruct df as [|r df]; [by intros [= <-]|].
  destruct (negb (Text.truthy pat)); [by intros [= <-]|].
  apply str_contains_sublist.
Qed.

Lemma filter_title_regex_sublist pat (df df' : DataFrame) :
  filter_title_regex re_compile df pat = Ok df' -> sublist df' df.
Proof.
  unfold filter_title_regex.
  destruct df as [|r df]; [by intros [= <-]|].
  destruct (negb (Text.truthy pat)); [by intros [= <-]|].
  destruct (str_contains re_compile Row.title pat (r :: df)) as [d|e] eqn:E.
  - intros [= <-]. by apply (str_contains_sublist _ _ _ _ E).
  - by intros [= <-].
Qed.

(** Every statement of [_pf] hands on a sub-sequence of what it got. *)
Lemma stages_shrink (mv : Z) (kw : filter_kw) :
  Forall (fun sg => shrinks (run_stage kw sg)) (stages re_compile mv).
Proof.
  unfold stages, gated_stages, views_ceiling.
  repeat apply Forall_cons_2; try apply Forall_nil_2;
    intros df df'; unfold run_stage; cbn [gate action];
    try (match goal with
         | |- (if ?g then _ else _) = _ -> _ =>
             destruct g; [|by intros [= <-]]
         end);
    first [ apply filter_title_regex_sublist
          | apply (text_filter_sublist Row.title)
          | apply (text_filter_sublist Row.description)
          | apply (text_filter_sublist Row.channel)
          | intros [= <-]; apply nonempty_mask_sublist ].
Qed.

Lemma run_stages_sublist (kw : filter_kw) (sgs : list stage)
    (df df' : DataFrame) :
  Forall (fun sg => shrinks (run_stage kw sg)) sgs ->
  run_stages kw sgs df = Ok df' -> sublist df' df.
Proof.
  intros H. revert df. induction H as [|sg sgs Hsg _ IH]; intros df; simpl.
  - by intros [= <-].
  - destruct (run_stage kw sg df) as [d|e] eqn:E; [|discriminate].
    intros Hrest. transitivity d; [by apply IH | by apply Hsg].
Qed.

(** With no stage enabled only the views ceiling is applied. *)
Lemma run_stages_all_skipped (kw : filter_kw) (sgs : list stage)
    (df : DataFrame) :
  Forall (fun sg => gate sg kw = false) sgs -> run_stages kw sgs df = Ok df.
Proof.
  induction 1 as [|sg sgs Hsg _ IH]; simpl; [done|].
  unfold run_stage. by rewrite Hsg.
Qed.

Lemma gated_stages_default_off :
  Forall (fun sg => gate sg kw_absent = false /\ gate sg kw_untouched = false)
    (gated_stages re_compile).
Proof.
  unfold gated_stages.
  repeat apply Forall_cons_2; try apply Forall_nil_2; split; reflexivity.
Qed.

Lemma _pf_default (df : DataFrame) (mv : Z) (kw : filter_kw) :
  Forall (fun sg => gate sg kw = false) (gated_stages re_compile) ->
  _pf re_compile df mv kw = Ok (filter_by_views df mv).
Proof.
  intros H. unfold _pf, stages. destruct df as [|r df]; [reflexivity|].
  cbn [run_stages]. unfold run_stage at 1. cbn [gate action views_ceiling].
  by apply run_stages_all_skipped.
Qed.

Lemma filter_by_views_elem (df : DataFrame) (mv : Z) (r : Row.t) :
  r ∈ filter_by_views df mv <-> r ∈ df /\ Row.views r <= mv.
Proof.
  unfold filter_by_views. destruct df as [|r0 df].
  - split; [intros H; inversion H | intros [H _]; inversion H].
  - rewrite mask_elem, Z.leb_le. reflexivity.
Qed.

End FilterPipeline.

Section FilterClaims.

Import Api YoutubeEngine App.

Local Open Scope Z_scope.

(** A row with the given number of views. *)
Definition row_with_views (n : Z) : Row.t :=
  Row.Make "id" "title" "channel" "description" n 0 0 60 100 12 0 50
    false false 11 0 5 false false "hd" false false.

(** "Absent or at its default value", for the kinds of option [_pf]
    reads. *)
Definition Z_unset (dflt : Z) (o : option Z) : bool :=
  match o with None => true | Some n => n =? dflt end.

Definition Q_unset (dflt : Q) (o : option Q) : bool :=
  match o with None => true | Some q => Qeq_bool q dflt end.

Definition flag_unset (o : option bool) : bool :=
  match o with None => true | Some b => negb b end.

Definition text_unset (o : option string) : bool :=
  match o with None => true | Some t => String.eqb t EmptyString end.

Definition hours_unset (o : option (Z * Z)) : bool :=
  match o with None => true | Some (a, b) => (a =? 0) && (b =? 23) end.

(** For each gated statement of [_pf], in the order of the source: the
    options that configure that statement, and no other option, are absent
    or at the default the search page passes. *)
Definition own_option_unset : list (filter_kw -> bool) :=
  [ fun kw => Z_unset 0 (mnv kw);
    fun kw => Z_unset 0 (mnd kw) && Z_unset 999999 (mxd kw);
    fun kw => flag_unset (od kw);
    fun kw => Q_unset 0 (mw kw);
    fun kw => flag_unset (gh kw);
    fun kw => flag_unset (go kw);
    fun kw => text_unset (tc kw);
    fun kw => text_unset (tr kw);
    fun kw => flag_unset (st kw);
    fun kw => flag_unset (ac kw);
    fun kw => flag_unset (nd kw);
    fun kw => flag_unset (nt kw);
    fun kw => flag_unset (nl kw);
    fun kw => flag_unset (sd kw);
    fun kw => flag_unset (ul kw);
    fun kw => Q_unset 1000 (mvp kw);
    fun kw => Z_unset 0 (mna kw) && Z_unset 99999 (mxa kw);
    fun kw => hours_unset (hr kw);
    fun kw => text_unset (dc kw);
    fun kw => text_unset (cf kw) ].

(** C7, as stated, fails: with every filter option at its default and a
    views ceiling of 0, [_pf] removes a row with five views. *)
Lemma views_ceiling_zero_removes_rows :
  ~ (forall df, _pf (fun _ => None) df 0 kw_untouched = Ok df).
Proof.
  intros H. specialize (H [row_with_views 5]). vm_compute in H.
  discriminate H.
Qed.

Lemma Z_unset_floor (o : option Z) :
  Z_unset 0 o = true -> (0 <? default 0 o) = false.
Proof.
  destruct o as [n|]; cbn; [|done].
  intros H%Z.eqb_eq. subst n. reflexivity.
Qed.

Lemma Z_unset_ceiling (top : Z) (o : option Z) :
  Z_unset top o = true -> (default top o <? top) = false.
Proof.
  destruct o as [n|]; cbn.
  - intros H%Z.eqb_eq. subst n. apply Z.ltb_irrefl.
  - intros _. apply Z.ltb_irrefl.
Qed.

Lemma Z_unset_range (top : Z) (lo hi : option Z) :
  Z_unset 0 lo && Z_unset top hi = true ->
  (0 <? default 0 lo) || (default top hi <? top) = false.
Proof.
  intros [H1 H2]%andb_true_iff.
  by rewrite (Z_unset_floor _ H1), (Z_unset_ceiling _ _ H2).
Qed.

Lemma Q_unset_floor (o : option Q) :
  Q_unset 0 o = true -> Py.Qltb 0 (default 0%Q o) = false.
Proof.
  unfold Py.Qltb. destruct o as [q|]; [|done].
  change (default 0%Q (Some q)) with q. cbn [Q_unset].
  intros H%Qeq_bool_iff.
  assert (Hle : Qle_bool q 0 = true) by (apply Qle_bool_iff; lra).
  by rewrite Hle.
Qed.

Lemma Q_unset_ceiling (o : option Q) :
  Q_unset 1000 o = true -> Py.Qltb (default 1000%Q o) 1000 = false.
Proof.
  unfold Py.Qltb. destruct o as [q|]; [|done].
  change (default 1000%Q (Some q)) with q. cbn [Q_unset].
  intros H%Qeq_bool_iff.
  assert (Hle : Qle_bool 1000 q = true) by (apply Qle_bool_iff; lra).
  by rewrite Hle.
Qed.

Lemma flag_unset_off (o : option bool) : flag_unset o = true -> flag o = false.
Proof. by destruct o as [[]|]. Qed.

Lemma text_unset_off (o : option string) :
  text_unset o = true -> text_set o = false.
Proof.
  destruct o as [t|]; cbn; [|done]. unfold Text.truthy. by intros ->.
Qed.

Lemma hours_unset_off (o : option (Z * Z)) :
  hours_unset o = true ->
  negb (bool_decide (default (0, 23) o = (0, 23))) = false.
Proof.
  destruct o as [[a b]|]; cbn; [|done].
  intros [->%Z.eqb_eq ->%Z.eqb_eq]%andb_true_iff. done.
Qed.

(** Each gated statement is skipped once its own options are unset,
    whatever the other options are. *)
Lemma gated_stages_own_option
    (re_compile : string -> option (string -> bool)) :
  Forall2 (fun sg unset =>
             forall kw df, unset kw = true ->
                           gate sg kw = false /\ run_stage kw sg df = Ok df)
    (gated_stages re_compile) own_option_unset.
Proof.
  assert (Hskip : forall sg kw df,
             gate sg kw = false ->
             gate sg kw = false /\ run_stage kw sg df = Ok df).
  { intros sg kw df H. unfold run_stage. by rewrite H. }
  unfold gated_stages, own_option_unset.
  repeat match goal with |- Forall2 _ _ _ => constructor end;
    intros kw df H; apply Hskip; cbn [gate];
    first [ by apply Z_unset_range
          | by apply Z_unset_floor
          | by apply Q_unset_floor
          | by apply Q_unset_ceiling
          | by apply flag_unset_off
          | by apply text_unset_off
          | by apply hours_unset_off ].
Qed.

Lemma own_option_unset_default :
  Forall (fun unset => unset kw_absent = true /\ unset kw_untouched = true)
    own_option_unset.
Proof.
  unfold own_option_unset.
  repeat apply Forall_cons_2; try apply Forall_nil_2; split; reflexivity.
Qed.

Lemma all_unset_gates_off
    (re_compile : string -> option (string -> bool)) (kw : filter_kw) :
  Forall (fun unset => unset kw = true) own_option_unset ->
  Forall (fun sg => gate sg kw = false) (gated_stages re_compile).
Proof.
  intros Hall. pose proof (gated_stages_own_option re_compile) as H2.
  revert Hall. induction H2 as [|sg unset sgs unsets Hsg _ IH]; intros Hall.
  - constructor.
  - apply Forall_cons in Hall as [Hu Hall]. constructor; [|by apply IH].
    by apply (Hsg kw []).
Qed.

(** C7, amended. Every statement of [_pf], and [_pf] as a whole, returns a
    sub-sequence of the collection it is given, so never a larger one.
    Every stage but the first is tied to its own option: whatever the other
    options are, and whatever the collection, the stage is skipped and
    leaves the collection unchanged when the option that configures it is
    absent or at its default ([own_option_unset] lists them stage by
    stage).  With every option so, as when no keyword is given or no
    widget of the search page has been touched, [_pf] applies the views
    ceiling alone.  The first stage, the views ceiling, has no such
    default: it is applied whatever the options are and keeps exactly the
    rows with at most [mv] views. *)
Theorem filter_stages_shrink_and_skip
    (re_compile : string -> option (string -> bool))
    (mv : Z) (kw : filter_kw) (df : DataFrame) :
  (forall sg df', sg ∈ stages re_compile mv -> run_stage kw sg df = Ok df' ->
                  sublist df' df /\ (length df' <= length df)%nat)
  /\ (forall df', _pf re_compile df mv kw = Ok df' ->
                  sublist df' df /\ (length df' <= length df)%nat)
  /\ Forall2 (fun sg unset =>
                forall kw' df', unset kw' = true ->
                                gate sg kw' = false
                                /\ run_stage kw' sg df' = Ok df')
       (gated_stages re_compile) own_option_unset
  /\ (Forall (fun unset => unset kw = true) own_option_unset ->
      _pf re_compile df mv kw = Ok (filter_by_views df mv))
  /\ Forall (fun unset => unset kw_absent = true /\ unset kw_untouched = true)
       own_option_unset
  /\ _pf re_compile df mv kw_absent = Ok (filter_by_views df mv)
  /\ _pf re_compile df mv kw_untouched = Ok (filter_by_views df mv)
  /\ stages re_compile mv = views_ceiling mv :: gated_stages re_compile
  /\ (forall kw', run_stage kw' (views_ceiling mv) df
                  = Ok (filter_by_views df mv))
  /\ (forall r, r ∈ filter_by_views df mv <-> r ∈ df /\ Row.views r <= mv).
Proof.
  pose proof (stages_shrink re_compile mv kw) as Hst.
  pose proof own_option_unset_default as Hdef.
  assert (Hpf : forall df', _pf re_compile df mv kw = Ok df' -> sublist df' df).
  { intros df' H. unfold _pf in H.
    destruct df as [|r df]; [by injection H as <-|].
    by apply (run_stages_sublist kw _ _ _ Hst). }
  rewrite Forall_forall in Hst.
  split; [|split; [|split; [|split; [|split; [|split; [|split;
    [|split; [|split]]]]]]]].
  - intros sg df' Hsg Hrun.
    assert (sublist df' df) by (by apply (Hst sg)).
    split; [done | by apply sublist_length].
  - intros df' H. split; [by apply Hpf | by apply sublist_length, Hpf].
  - apply gated_stages_own_option.
  - intros Hall. by apply _pf_default, all_unset_gates_off.
  - exact Hdef.
  - apply _pf_default, all_unset_gates_off.
    eapply Forall_impl; [exact Hdef|]. by intros unset [? ?].
  - apply _pf_default, all_unset_gates_off.
    eapply Forall_impl; [exact Hdef|]. by intros unset [? ?].
  - reflexivity.
  - reflexivity.
  - intros r. apply filter_by_views_elem.
Qed.

(** [_pf] returns a collection whenever the text options compile. *)
Lemma _pf_returns (re_compile : string -> option (string -> bool))
    (mv : Z) (kw : filter_kw) (df : DataFrame) :
  (forall pat, is_Some (re_compile pat)) ->
  exists df', _pf re_compile df mv kw = Ok df'.
Proof.
  intros Hre. unfold _pf. destruct df as [|r0 df0]; [eauto|].
  generalize (r0 :: df0). intros df.
  assert (Htext : forall column pat (d : DataFrame),
             exists d',
               match d with
               | [] => Ok d
               | _ :: _ => if negb (Text.truthy pat) then Ok d
                           else str_contains re_compile column pat d
               end = Ok d').
  { intros column pat d. destruct d as [|r d]; [eauto|].
    destruct (negb (Text.truthy pat)); [eauto|].
    unfold str_contains. destruct (Hre pat) as [f ->]. eauto. }
  assert (Hregex : forall pat d,
             exists d', filter_title_regex re_compile d pat = Ok d').
  { intros pat d. unfold filter_title_regex. destruct d as [|r d]; [eauto|].
    destruct (negb (Text.truthy pat)); [eauto|].
    destruct (str_contains re_compile Row.title pat (r :: d)); eauto. }
  assert (Hall : Forall (fun sg => forall d, exists d', run_stage kw sg d = Ok d')
                   (stages re_compile mv)).
  { unfold stages, gated_stages, views_ceiling.
    repeat apply Forall_cons_2; try apply Forall_nil_2;
      intros d; unfold run_stage; cbn [gate action];
      try (match goal with
           | |- exists _, (if ?g then _ else _) = _ => destruct g; [|by eauto]
           end);
      first [ by eauto
            | apply Hregex
            | apply (Htext Row.title)
            | apply (Htext Row.description)
            | apply (Htext Row.channel) ]. }
  revert df. induction Hall as [|sg sgs Hsg _ IH]; intros df; simpl; [eauto|].
  destruct (Hsg df) as [d' ->]. apply IH.
Qed.

End FilterClaims.

(** ** The paginated query executor *)

Section Executor.

Import Api YoutubeEngine App.
Local Open Scope nat_scope.

Variable search_api : search_oracle.
Variable keys : list string.

(** The provider calls, and the key numbers reported exhausted, in a piece
    of trace. *)
Definition search_calls (tr : list event) : nat :=
  length (List.filter is_search_call tr).

Definition exhausted_numbers (tr : list event) : list nat :=
  flat_map (fun ev => match ev with KeyExhausted k => [k] | _ => [] end) tr.

Definition is_query_error (ev : event) : bool :=
  match ev with QueryError _ _ => true | _ => false end.

Lemma search_calls_app (a b : list event) :
  search_calls (a ++ b) = search_calls a + search_calls b.
Proof. unfold search_calls. by rewrite List.filter_app, length_app. Qed.

Lemma exhausted_numbers_app (a b : list event) :
  exhausted_numbers (a ++ b) = exhausted_numbers a ++ exhausted_numbers b.
Proof. apply flat_map_app. Qed.

(** The call made by a pass through the retry loop from state [s]. *)
Definition the_call (q : string) (batch_size : Z) (s : state) : event :=
  SearchCall (active_svc s) q (Z.min batch_size 50)
    (if token_truthy (next_page_token s) then next_page_token s else None).

(** The three ways a pass can end. *)
Inductive attempt_result (q : string) (mpq batch_size : Z) (s : state)
    : control -> state -> Prop :=
| attempt_answered (s' : state) :
    trace s' = trace s ++ [the_call q batch_size s] ->
    current_key_idx s' = current_key_idx s ->
    active_svc s' = active_svc s ->
    pages s' = pages s ->
    (exists items, ai s' = ai s ++ items) ->
    (fetched_count s' = mpq + 1 \/ fetched_count s < fetched_count s')%Z ->
    attempt_result q mpq batch_size s Break s'
| attempt_rotated (s' : state) :
    trace s' = trace s ++ [the_call q batch_size s;
                           KeyExhausted (S (current_key_idx s))] ->
    current_key_idx s' = S (current_key_idx s) ->
    S (current_key_idx s) < length keys ->
    active_svc s' = get_service_for_key keys (S (current_key_idx s)) ->
    pages s' = pages s ->
    ai s' = ai s ->
    fetched_count s' = fetched_count s ->
    next_page_token s' = next_page_token s ->
    attempt_result q mpq batch_size s Continue s'
| attempt_out_of_keys (s' : state) :
    trace s' = trace s ++ [the_call q batch_size s;
                           KeyExhausted (S (current_key_idx s));
                           AllKeysDead] ->
    current_key_idx s' = S (current_key_idx s) ->
    length keys <= S (current_key_idx s) ->
    active_svc s' = active_svc s ->
    pages s' = pages s ->
    ai s' = ai s ->
    fetched_count s' = (mpq + 1)%Z ->
    attempt_result q mpq batch_size s Break s'.

Lemma is_quota_mock : is_quota mock_quota_error = true.
Proof. reflexivity. Qed.

Lemma attempt_cases (q : string) (mpq batch_size : Z) (s : state) :
  attempt_result q mpq batch_size s
    (fst (attempt search_api keys q mpq batch_size s))
    (snd (attempt search_api keys q mpq batch_size s)).
Proof.
  unfold attempt, search_youtube.
  destruct (search_api _ _ _ _ _) as [[items token]|e];
    unfold try_body; cbn [error YoutubeEngine.items nextPageToken
                           response_items response_nextPageToken].
  - (* an answer *)
    destruct items as [|it items].
    + cbn. apply attempt_answered; cbn; try done.
      * exists []. by rewrite app_nil_r.
      * by left.
    + cbn [negb orb]. 
      destruct (token_truthy token) eqn:Htok.
      * cbn [next_page_token accumulate]. rewrite Htok. cbn [negb fst snd].
        apply attempt_answered; cbn; try done.
        -- eexists. reflexivity.
        -- right. lia.
      * cbn [next_page_token accumulate]. rewrite Htok. cbn [negb fst snd].
        apply attempt_answered; cbn; try done.
        -- eexists. reflexivity.
        -- by left.
  - (* a failure, turned into the quota error *)
    unfold on_exception. rewrite is_quota_mock.
    cbn [log with_trace with_current_key_idx current_key_idx trace].
    replace (current_key_idx s + 1) with (S (current_key_idx s)) by lia.
    destruct (S (current_key_idx s) <? length keys) eqn:Hlt.
    + apply Nat.ltb_lt in Hlt. cbn [fst snd].
      apply attempt_rotated; cbn; try done.
      by rewrite <- app_assoc.
    + apply Nat.ltb_ge in Hlt. cbn [fst snd].
      apply attempt_out_of_keys; cbn; try done.
      by rewrite <- !app_assoc.
Qed.

(** *** One page: the retry loop *)

(** [AllKeysDead], if reported at all, is the last thing that happens,
    and leaves the loop variable past the target. *)
Definition dead_last (mpq : Z) (s' : state) (added : list event) : Prop :=
  AllKeysDead ∉ added
  \/ exists pre, added = pre ++ [AllKeysDead] /\ AllKeysDead ∉ pre
                 /\ fetched_count s' = (mpq + 1)%Z.

Record page_ok (q : string) (mpq batch_size : Z) (budget : nat)
    (s s' : state) (added : list event) : Prop := PageOk {
  pg_trace : trace s' = trace s ++ added;
  pg_calls : search_calls added <= budget;
  pg_same :
    Forall (fun ev => is_search_call ev = true ->
                      exists svc,
                        ev = SearchCall svc q (Z.min batch_size 50)
                               (if token_truthy (next_page_token s)
                                then next_page_token s else None)) added;
  pg_idx :
    exhausted_numbers added
    = seq (S (current_key_idx s)) (current_key_idx s' - current_key_idx s);
  pg_idx_le : current_key_idx s <= current_key_idx s';
  pg_pages : pages s' = pages s;
  pg_ai : exists items, ai s' = ai s ++ items;
  pg_no_hard : Forall (fun ev => is_query_error ev = false) added;
  pg_dead : dead_last mpq s' added }.

Definition progressed (mpq : Z) (s s' : state) : Prop :=
  (fetched_count s' = mpq + 1 \/ fetched_count s < fetched_count s')%Z.

Lemma retry_loop_page (q : string) (mpq batch_size : Z) (budget : nat)
    (s : state) :
  exists added,
    page_ok q mpq batch_size budget s
      (retry_loop search_api keys budget q mpq batch_size s) added
    /\ (1 <= budget -> length keys <= budget + current_key_idx s ->
        progressed mpq s (retry_loop search_api keys budget q mpq batch_size s)
        /\ 1 <= search_calls added).
Proof.
  revert s. induction budget as [|budget IH]; intros s.
  - exists []. split; [|lia]. cbn [retry_loop]. split.
    + by rewrite app_nil_r.
    + cbn. lia.
    + apply Forall_nil_2.
    + by rewrite Nat.sub_diag.
    + lia.
    + done.
    + exists []. by rewrite app_nil_r.
    + apply Forall_nil_2.
    + left. apply not_elem_of_nil.
  - cbn [retry_loop].
    pose proof (attempt_cases q mpq batch_size s) as Hcase.
    destruct (attempt search_api keys q mpq batch_size s) as [c s1].
    cbn [fst snd] in Hcase.
    inversion Hcase as [s0 Htr Hidx Hsvc Hpg Hai Hfc
                       |s0 Htr Hidx Hlt Hsvc Hpg Hai Hfc Htok
                       |s0 Htr Hidx Hge Hsvc Hpg Hai Hfc]; subst.
    + (* answered *)
      exists [the_call q batch_size s]. split; [split|].
      * done.
      * cbn. lia.
      * apply Forall_singleton. intros _. eexists. reflexivity.
      * rewrite Hidx, Nat.sub_diag. reflexivity.
      * lia.
      * done.
      * done.
      * by apply Forall_singleton.
      * left. by intros ?%list_elem_of_singleton.
      * intros _ _. split; [done | cbn; lia].
    + (* rotated: the loop goes on with the next key *)
      destruct (IH s1) as (added1 & [T1 C1 S1 I1 L1 P1 A1 N1 D1] & Hprog).
      set (s' := retry_loop search_api keys budget q mpq batch_size s1) in *.
      exists ([the_call q batch_size s; KeyExhausted (S (current_key_idx s))]
              ++ added1).
      split; [split|].
      * rewrite T1, Htr. by rewrite <- app_assoc.
      * rewrite search_calls_app. cbn. lia.
      * apply Forall_app. split.
        -- repeat apply Forall_cons_2; try apply Forall_nil_2.
           ++ intros _. eexists. reflexivity.
           ++ discriminate.
        -- rewrite Htok in S1. exact S1.
      * rewrite exhausted_numbers_app, I1, Hidx. cbn.
        replace (current_key_idx s' - current_key_idx s)
          with (S (current_key_idx s' - S (current_key_idx s))) by lia.
        reflexivity.
      * lia.
      * congruence.
      * destruct A1 as [items A1]. exists items. by rewrite A1, Hai.
      * apply Forall_app. split; [|done].
        by repeat apply Forall_cons_2; try apply Forall_nil_2.
      * destruct D1 as [D1|(pre & -> & D1 & F1)].
        -- left. rewrite elem_of_app. intros [H|H]; [|done].
           apply elem_of_cons in H as [H|H]; [discriminate|].
           apply list_elem_of_singleton in H. discriminate.
        -- right.
           exists ([the_call q batch_size s;
                    KeyExhausted (S (current_key_idx s))] ++ pre).
           split; [by rewrite <- app_assoc|]. split; [|done].
           rewrite elem_of_app. intros [H|H]; [|done].
           apply elem_of_cons in H as [H|H]; [discriminate|].
           apply list_elem_of_singleton in H. discriminate.
      * intros _ Hn. destruct Hprog as [Hp Hc]; [lia | lia |].
        split.
        -- unfold progressed in *. rewrite <- Hfc. exact Hp.
        -- rewrite search_calls_app. lia.
    + (* out of keys *)
      exists [the_call q batch_size s; KeyExhausted (S (current_key_idx s));
              AllKeysDead].
      split; [split|].
      * done.
      * cbn. lia.
      * repeat apply Forall_cons_2; try apply Forall_nil_2; try discriminate.
        intros _. eexists. reflexivity.
      * rewrite Hidx. cbn.
        replace (S (current_key_idx s) - current_key_idx s) with 1 by lia.
        reflexivity.
      * lia.
      * done.
      * exists []. by rewrite app_nil_r.
      * by repeat apply Forall_cons_2; try apply Forall_nil_2.
      * right. exists [the_call q batch_size s;
                       KeyExhausted (S (current_key_idx s))].
        split; [done|]. split; [|done].
        intros H. apply elem_of_cons in H as [H|H]; [discriminate|].
        apply list_elem_of_singleton in H. discriminate.
      * intros _ _. split; [by left | cbn; lia].
Qed.

(** *** One query, and a batch of queries *)

Record run_ok (s s' : state) (added : list event) : Prop := RunOk {
  ok_trace : trace s' = trace s ++ added;
  ok_idx :
    exhausted_numbers added
    = seq (S (current_key_idx s)) (current_key_idx s' - current_key_idx s);
  ok_idx_le : current_key_idx s <= current_key_idx s';
  ok_pages : pages s <= pages s';
  ok_calls :
    search_calls added <= (pages s' - pages s) * (length keys + 1);
  ok_ai : exists items, ai s' = ai s ++ items;
  ok_no_hard : Forall (fun ev => is_query_error ev = false) added }.

Lemma run_ok_trans (s s1 s2 : state) (a1 a2 : list event) :
  run_ok s s1 a1 -> run_ok s1 s2 a2 -> run_ok s s2 (a1 ++ a2).
Proof.
  intros [T1 I1 L1 P1 C1 [i1 A1] N1] [T2 I2 L2 P2 C2 [i2 A2] N2]. split.
  - by rewrite T2, T1, app_assoc.
  - rewrite exhausted_numbers_app, I1, I2.
    replace (current_key_idx s2 - current_key_idx s)
      with ((current_key_idx s1 - current_key_idx s)
            + (current_key_idx s2 - current_key_idx s1)) by lia.
    rewrite seq_app. do 2 f_equal. lia.
  - lia.
  - lia.
  - rewrite search_calls_app. nia.
  - exists (i1 ++ i2). by rewrite A2, A1, app_assoc.
  - by apply Forall_app.
Qed.

(** A page of the page loop. *)
Lemma page_run_ok (q : string) (mpq batch_size : Z) (s : state) :
  let s' := retry_loop search_api keys (length keys + 1) q mpq batch_size
              (begin_page s) in
  exists added,
    run_ok s s' added /\ pages s' = S (pages s)
    /\ page_ok q mpq batch_size (length keys + 1) (begin_page s) s' added
    /\ progressed mpq s s' /\ 1 <= search_calls added.
Proof.
  intros s'. subst s'.
  destruct (retry_loop_page q mpq batch_size (length keys + 1) (begin_page s))
    as (added & Hpage & Hprog).
  destruct Hprog as [Hp Hc]; [lia | lia |].
  exists added.
  pose proof Hpage as [T C S' I L P A N D]. cbn in T, I, L, P, A.
  split; [split|split; [exact P|split; [exact Hpage|split; [exact Hp|exact Hc]]]].
  - exact T.
  - exact I.
  - exact L.
  - rewrite P. lia.
  - rewrite P. lia.
  - exact A.
  - exact N.
Qed.

Lemma page_loop_stops (fuel : nat) (q : string) (mpq : Z) (s : state) :
  (mpq <= fetched_count s)%Z ->
  page_loop search_api keys (S fuel) q mpq s = Some s.
Proof.
  intros H. cbn [page_loop].
  replace (fetched_count s <? mpq)%Z with false; [done|].
  symmetry. apply Z.ltb_ge. lia.
Qed.

Lemma page_loop_runs (fuel : nat) (q : string) (mpq : Z) (s : state) :
  Z.to_nat (mpq - fetched_count s) < fuel ->
  exists s' added,
    page_loop search_api keys fuel q mpq s = Some s'
    /\ run_ok s s' added
    /\ pages s' - pages s <= Z.to_nat (mpq - fetched_count s)
    /\ dead_last mpq s' added
    /\ (mpq <= fetched_count s')%Z.
Proof.
  revert s. induction fuel as [|fuel IH]; intros s Hfuel; [lia|].
  destruct (Z.ltb_spec (fetched_count s) mpq) as [Hlt|Hge].
  - cbn [page_loop]. replace (fetched_count s <? mpq)%Z with true
      by (symmetry; apply Z.ltb_lt; lia).
    set (bs := Z.min 50 (mpq - fetched_count s)).
    destruct (page_run_ok q mpq bs s)
      as (a1 & Hok1 & Hpg1 & Hpage1 & Hprog1 & _).
    set (s1 := retry_loop search_api keys (length keys + 1) q mpq bs
                 (begin_page s)) in *.
    assert (Hmore : (fetched_count s < fetched_count s1)%Z)
      by (destruct Hprog1; lia).
    destruct (IH s1) as (s' & a2 & Hrun & Hok2 & Hpg2 & Hdead2 & Hdone);
      [lia|].
    exists s', (a1 ++ a2).
    split; [exact Hrun|]. split; [by eapply run_ok_trans|].
    split; [|split; [|done]].
    + pose proof (ok_pages _ _ _ Hok2). lia.
    + destruct (pg_dead _ _ _ _ _ _ _ Hpage1) as [D1|(pre & E1 & D1 & F1)].
      * destruct Hdead2 as [D2|(pre & -> & D2 & F2)].
        -- left. rewrite elem_of_app. tauto.
        -- right. exists (a1 ++ pre). split; [by rewrite app_assoc|].
           split; [|done]. rewrite elem_of_app. tauto.
      * (* the keys ran out on this page: nothing follows *)
        assert (Hs' : s' = s1).
        { destruct fuel as [|fuel']; [lia|].
          rewrite page_loop_stops in Hrun by lia. congruence. }
        subst s'. pose proof (ok_trace _ _ _ Hok2) as T2.
        rewrite <- (app_nil_r (trace s1)) in T2 at 1.
        apply app_inv_head in T2. subst a2. rewrite app_nil_r.
        right. exists pre. done.
  - exists s, []. split; [by apply page_loop_stops|].
    split; [|split; [lia|split; [|done]]].
    + split.
      * by rewrite app_nil_r.
      * by rewrite Nat.sub_diag.
      * lia.
      * lia.
      * cbn. lia.
      * exists []. by rewrite app_nil_r.
      * apply Forall_nil_2.
    + left. apply not_elem_of_nil.
Qed.

Lemma run_query_runs (fuel : nat) (q : string) (mpq : Z) (s : state) :
  Z.to_nat mpq < fuel ->
  exists s' added,
    run_query search_api keys fuel q mpq s = Some s'
    /\ run_ok s s' added
    /\ pages s' - pages s <= Z.to_nat mpq
    /\ dead_last mpq s' added
    /\ (mpq <= fetched_count s')%Z.
Proof.
  intros Hfuel. unfold run_query.
  destruct (page_loop_runs fuel q mpq (begin_query s))
    as (s' & added & Hrun & [T I L P C A N] & Hpg & Hdead & Hdone).
  - cbn. by rewrite Z.sub_0_r.
  - exists s', added. cbn in *. rewrite Z.sub_0_r in Hpg.
    split; [done|]. split; [by split|]. done.
Qed.

Lemma query_loop_runs (fuel : nat) (qs : list string) (mpq : Z) (s : state) :
  Z.to_nat mpq < fuel ->
  exists s' added,
    query_loop search_api keys fuel qs mpq s = Some s'
    /\ run_ok s s' added
    /\ pages s' - pages s <= length qs * Z.to_nat mpq.
Proof.
  intros Hfuel. revert s. induction qs as [|q qs IH]; intros s.
  - exists s, []. split; [done|]. split; [|cbn; lia]. split.
    + by rewrite app_nil_r.
    + by rewrite Nat.sub_diag.
    + lia.
    + lia.
    + cbn. lia.
    + exists []. by rewrite app_nil_r.
    + apply Forall_nil_2.
  - cbn [query_loop].
    destruct (run_query_runs fuel q mpq s Hfuel)
      as (s1 & a1 & -> & Hok1 & Hpg1 & _).
    destruct (IH s1) as (s' & a2 & Hrun & Hok2 & Hpg2).
    exists s', (a1 ++ a2). split; [done|].
    split; [by eapply run_ok_trans|].
    pose proof (ok_pages _ _ _ Hok1). pose proof (ok_pages _ _ _ Hok2).
    cbn [length]. lia.
Qed.

(** C3. Whatever the provider answers, a query ends: with fuel for one
    more iteration than the target count the page loop returns.  It makes
    at most [pages * (poolSize + 1)] provider calls, where [pages], the
    number of pages it went through, is at most the target count; and one
    page, i.e. one run of the retry loop, makes at most [poolSize + 1]
    calls, all for the same query and page token.  The same bound holds
    for a whole batch of queries. *)
Theorem paginated_executor_terminates (q : string) (qs : list string)
    (mpq batch_size : Z) (s : state) :
  (exists added,
     trace (retry_loop search_api keys (length keys + 1) q mpq batch_size s)
     = trace s ++ added
     /\ search_calls added <= length keys + 1
     /\ Forall (fun ev =>
                  is_search_call ev = true ->
                  exists svc,
                    ev = SearchCall svc q (Z.min batch_size 50)
                           (if token_truthy (next_page_token s)
                            then next_page_token s else None)) added)
  /\ (exists s' added,
        run_query search_api keys (S (Z.to_nat mpq)) q mpq s = Some s'
        /\ trace s' = trace s ++ added
        /\ search_calls added <= (pages s' - pages s) * (length keys + 1)
        /\ pages s' - pages s <= Z.to_nat mpq)
  /\ (exists s' added,
        query_loop search_api keys (S (Z.to_nat mpq)) qs mpq s = Some s'
        /\ trace s' = trace s ++ added
        /\ search_calls added <= (pages s' - pages s) * (length keys + 1)
        /\ pages s' - pages s <= length qs * Z.to_nat mpq).
Proof.
  split; [|split].
  - destruct (retry_loop_page q mpq batch_size (length keys + 1) s)
      as (added & [T C S' _ _ _ _ _ _] & _).
    exists added. done.
  - destruct (run_query_runs (S (Z.to_nat mpq)) q mpq s)
      as (s' & added & Hrun & [T _ _ _ C _ _] & Hpg & _); [lia|].
    exists s', added. done.
  - destruct (query_loop_runs (S (Z.to_nat mpq)) qs mpq s)
      as (s' & added & Hrun & [T _ _ _ C _ _] & Hpg); [lia|].
    exists s', added. done.
Qed.

(** The "non-quota" branch of the [except] block is never taken: no run
    reports a query error, whatever the provider answers. *)
Lemma query_error_never_reported (qs : list string) (mpq : Z) (s : state) :
  exists s' added,
    query_loop search_api keys (S (Z.to_nat mpq)) qs mpq s = Some s'
    /\ trace s' = trace s ++ added
    /\ Forall (fun ev => is_query_error ev = false) added.
Proof.
  destruct (query_loop_runs (S (Z.to_nat mpq)) qs mpq s)
    as (s' & added & Hrun & [T _ _ _ _ _ N] & _); [lia|].
  exists s', added. done.
Qed.


End Executor.

(** ** Hard failures of a page *)

Section HardFailure.

Import Api YoutubeEngine App.

(** A failure that is no quota failure: a server error. *)
Definition internal_error : exn := Exn (Some 500) "Internal Server Error".

(** A provider whose first call fails with that error and whose later
    calls return one hit and no further page. *)
Definition fails_once : search_oracle :=
  fun tr _ _ _ _ =>
    match tr with
    | [] => Raise internal_error
    | _ => Ok (SearchResponse [Item (Some (IdDict (Some "v1"))) "hit"] None)
    end.

(** C4: the executor at a hard failure.  The error is no quota failure by
    the executor's own test, and still the same page is asked for again
    with the second key, after the first key has been reported
    exhausted. *)
Theorem hard_failure_is_retried :
  is_quota internal_error = false
  /\ option_map trace
       (run_query fails_once ["key1"; "key2"] 26 "cats" 25
          (initial (Some Given)))
     = Some [ SearchCall (Some Given) "cats" 25 None;
              KeyExhausted 1;
              SearchCall (Some (Built "key2")) "cats" 25 None ]
  /\ option_map current_key_idx
       (run_query fails_once ["key1"; "key2"] 26 "cats" 25
          (initial (Some Given)))
     = Some 1%nat.
Proof. repeat split; vm_compute; reflexivity. Qed.

(** Had the error reached the [except] block, the page would have been
    given up without a retry. *)
Example on_exception_hard_failure :
  on_exception ["key1"; "key2"] internal_error "cats" 25 (initial (Some Given))
  = (Break,
     State [] 0 0 (Some Given) 26 None 0 [QueryError "cats" internal_error]).
Proof. vm_compute. reflexivity. Qed.

End HardFailure.

(** ** The detail resolver *)

Section DetailResolver.

Import Api YoutubeEngine App.
Local Open Scope nat_scope.

Lemma slice_length {A} (l : list A) (i : nat) :
  length (Py.slice l i (i + 50)) = Nat.min 50 (length l - i).
Proof.
  unfold Py.slice. rewrite length_take, length_drop. f_equal. lia.
Qed.

Lemma u_chunks_lengths (u : list item) :
  map length (u_chunks u)
  = map (fun i => Nat.min 50 (length u - i)) (Py.range_step (length u) 50).
Proof.
  unfold u_chunks. rewrite map_map. apply map_ext. intros i.
  apply slice_length.
Qed.

Lemma chunks_concat {A} (m : nat) (l : list A) :
  length l <= m * 50 ->
  concat (map (fun k => take 50 (drop (k * 50) l)) (seq 0 m)) = l.
Proof.
  revert l. induction m as [|m IH]; intros l Hl.
  - destruct l; [done | simpl in Hl; lia].
  - cbn [seq map concat]. rewrite <- seq_shift, map_map.
    rewrite (map_ext _ (fun k => take 50 (drop (k * 50) (drop 50 l)))).
    + rewrite IH.
      * apply take_drop.
      * rewrite length_drop. lia.
    + intros k. rewrite drop_drop. repeat f_equal; lia.
Qed.

(** The chunks, put end to end, are the list of unique hits. *)
Lemma u_chunks_concat (u : list item) : concat (u_chunks u) = u.
Proof.
  unfold u_chunks, Py.range_step, Py.slice. rewrite map_map.
  rewrite (map_ext _ (fun k => take 50 (drop (k * 50) u))).
  - apply chunks_concat.
    pose proof (Nat.div_mod_eq (length u + 50 - 1) 50).
    pose proof (Nat.mod_upper_bound (length u + 50 - 1) 50). lia.
  - intros k. repeat f_equal; lia.
Qed.

(** 120 unique hits make three chunks, of 50, 50 and 20. *)
Lemma u_chunks_120 (u : list item) :
  length u = 120 -> map length (u_chunks u) = [50; 50; 20].
Proof. intros H. rewrite u_chunks_lengths, H. reflexivity. Qed.

Variable videos_api : videos_oracle.
Variable keys : list string.

Lemma get_video_details_loop_calls (service : option service)
    (video_ids : list string) (starts : list nat) (all_details : list detail)
    (tr : list event) :
  exists details,
    get_video_details_loop videos_api service video_ids starts all_details tr
    = (details,
       tr ++ map (fun i => DetailsCall service (Py.slice video_ids i (i + 50)))
               starts).
Proof.
  revert all_details tr. induction starts as [|i starts IH];
    intros all_details tr; cbn [get_video_details_loop map].
  - exists all_details. by rewrite app_nil_r.
  - destruct (videos_api tr service (Py.slice video_ids i (i + 50)))
      as [response_items|e].
    + destruct (IH (all_details ++ response_items)
                  (tr ++ [DetailsCall service (Py.slice video_ids i (i + 50))]))
        as [details ->].
      exists details. by rewrite <- app_assoc.
    + destruct (IH all_details
                  (tr ++ [DetailsCall service (Py.slice video_ids i (i + 50))]))
        as [details ->].
      exists details. by rewrite <- app_assoc.
Qed.

(** [get_video_details] handles every failure itself, so the [except]
    block around its call in [_yt] is never entered: a chunk costs one
    call per batch, all with the service in use, and neither the cursor
    nor the service changes. *)
Lemma chunk_details_never_retries (chunk : list item) (s : state) :
  let vs := List.filter Text.truthy (_xv chunk) in
  exists det,
    chunk_details videos_api keys chunk s
    = (Ok det,
       with_trace
         (trace s
          ++ map (fun i => DetailsCall (active_svc s) (Py.slice vs i (i + 50)))
               (Py.range_step (length vs) 50)) s).
Proof.
  intros vs. unfold chunk_details, get_video_details. fold vs.
  destruct (get_video_details_loop_calls (active_svc s) vs
              (Py.range_step (length vs) 50) [] (trace s)) as [det ->].
  by exists det.
Qed.

Lemma details_loop_never_rotates (chunks : list (list item))
    (all_details : list (string * detail)) (s : state) :
  exists all_details' s',
    details_loop videos_api keys chunks all_details s = (Ok all_details', s')
    /\ current_key_idx s' = current_key_idx s
    /\ active_svc s' = active_svc s.
Proof.
  revert all_details s. induction chunks as [|chunk chunks IH];
    intros all_details s; cbn [details_loop].
  - by exists all_details, s.
  - destruct (chunk_details_never_retries chunk s) as [det ->].
    match goal with
    | |- context [details_loop _ _ _ ?a ?s1] =>
        destruct (IH a s1) as (all' & s' & -> & Hidx & Hsvc)
    end.
    by exists all', s'.
Qed.

End DetailResolver.

Section DetailResolverClaim.

Import Api YoutubeEngine App.

(** A detail provider whose first call fails and whose later calls return
    a record for every identifier asked for. *)
Definition fails_first : videos_oracle :=
  fun tr _ ids =>
    match tr with
    | [] => Raise (Exn (Some 403) "quotaExceeded")
    | _ => Ok (map (fun i => Detail i "details") ids)
    end.

Definition one_hit : list item := [Item (Some (IdDict (Some "v1"))) "hit"].

(** C6: the detail resolver when the call for a chunk fails.  A second
    key is at hand and a second call would succeed, yet the chunk is asked
    for once only, with the service in use; it contributes no record, the
    cursor stays where it was, and the resolve goes on.  For every
    provider the resolver never rotates and never fails as a whole.  The
    chunks do partition the unique hits, 120 of them into 50, 50 and 20. *)
Theorem failed_chunk_is_not_retried :
  chunk_details fails_first ["key1"; "key2"] one_hit (initial (Some Given))
  = (Ok [], State [] 0 0 (Some Given) 0 None 0 [DetailsCall (Some Given) ["v1"]])
  /\ fails_first [DetailsCall (Some Given) ["v1"]] (Some (Built "key2")) ["v1"]
     = Ok [Detail "v1" "details"]
  /\ (forall videos_api keys chunks all_details s,
        exists all_details' s',
          details_loop videos_api keys chunks all_details s
          = (Ok all_details', s')
          /\ current_key_idx s' = current_key_idx s
          /\ active_svc s' = active_svc s)
  /\ (forall u : list item,
        concat (u_chunks u) = u
        /\ (length u = 120%nat -> map length (u_chunks u) = [50; 50; 20]%nat)).
Proof.
  split; [vm_compute; reflexivity|]. split; [vm_compute; reflexivity|].
  split; [apply details_loop_never_rotates|].
  intros u. split; [apply u_chunks_concat | apply u_chunks_120].
Qed.

End DetailResolverClaim.

(** ** The key cursors *)

Section KeyCursor.

Import Api YoutubeEngine SecretsManager App.

(** The cursor of [secrets_manager]: [int(os.environ.get("_YT_KEY_IDX", "0"))]. *)
Definition cursor (environ : gmap string string) : option Z :=
  Py.int (getenv environ "_YT_KEY_IDX" "0").

Lemma unique_keys_length (ks : list string) (seen : gset string)
    (unique : list string) :
  (length (unique_keys ks seen unique) <= length unique + length ks)%nat.
Proof.
  revert seen unique. induction ks as [|k ks IH]; intros seen unique; simpl.
  - lia.
  - destruct (bool_decide (k ∉ seen)).
    + etransitivity; [apply IH|]. rewrite length_app. simpl. lia.
    + etransitivity; [apply IH|]. lia.
Qed.

Lemma collect_keys_length (environ : gmap string string) (slots : list Z)
    (init : list string) :
  (length
     (foldl (fun ks i =>
               let k := getenv environ ("YOUTUBE_API_KEY_" ++ Py.str i)%string
                          EmptyString in
               if Text.truthy k then ks ++ [k] else ks) init slots)
   <= length init + length slots)%nat.
Proof.
  revert init. induction slots as [|i slots IH]; intros init; simpl.
  - lia.
  - etransitivity; [apply IH|].
    destruct (Text.truthy _); [rewrite length_app; simpl|]; lia.
Qed.

(** The pool holds at most twenty keys. *)
Lemma get_all_api_keys_length (env_file : list (string * string))
    (environ : gmap string string) :
  (length (fst (get_all_api_keys env_file environ)) <= 20)%nat.
Proof.
  unfold get_all_api_keys. cbn [fst].
  etransitivity; [apply unique_keys_length|].
  etransitivity; [apply Nat.add_le_mono_l, collect_keys_length|].
  rewrite length_map, length_seq.
  destruct (Text.truthy _); simpl; lia.
Qed.

(** A cursor position is read back as it was written. *)
Lemma int_str_small (n : Z) : 0 <= n < 20 -> Py.int (Py.str n) = Some n.
Proof.
  intros H. rewrite <- (Z2Nat.id n) by lia.
  assert (Hk : (Z.to_nat n < 20)%nat) by lia.
  revert Hk. generalize (Z.to_nat n). intros k Hk.
  do 20 (destruct k as [|k]; [reflexivity|]). lia.
Qed.


(** Two keys, the cursor on the second. *)
Definition two_keys_at_second : gmap string string :=
  list_to_map [ ("YOUTUBE_API_KEY", "key1"); ("YOUTUBE_API_KEY_2", "key2");
                ("_YT_KEY_IDX", "1") ].



(** In [_yt] the last key is used again by the next query after it has
    been reported exhausted. *)
Example exhausted_key_used_by_next_query :
  option_map trace
    (query_loop (fun _ _ _ _ _ => Raise (Exn (Some 403) "quotaExceeded"))
       ["key1"; "key2"] 26 ["a"; "b"] 25 (initial (Some Given)))
  = Some [ SearchCall (Some Given) "a" 25 None; KeyExhausted 1;
           SearchCall (Some (Built "key2")) "a" 25 None; KeyExhausted 2;
           AllKeysDead;
           SearchCall (Some (Built "key2")) "b" 25 None; KeyExhausted 3;
           AllKeysDead ].
Proof. vm_compute. reflexivity. Qed.


End KeyCursor.

(* ===================================================================== *)
(** * Part III: further properties of the code                            *)
(* ===================================================================== *)

(** ** Text: characters, margins and letter case *)

Section TextFacts.

Lemma lower_char_idem (c : ascii) :
  Text.lower_char (Text.lower_char c) = Text.lower_char c.
Proof. destruct c as [[] [] [] [] [] [] [] []]; reflexivity. Qed.

Lemma isspace_lower_char (c : ascii) :
  Text.isspace (Text.lower_char c) = Text.isspace c.
Proof. destruct c as [[] [] [] [] [] [] [] []]; reflexivity. Qed.

Lemma isdigit_lower_char (c : ascii) :
  Text.isdigit (Text.lower_char c) = Text.isdigit c.
Proof. destruct c as [[] [] [] [] [] [] [] []]; reflexivity. Qed.

Lemma newline_lower_char (c : ascii) :
  Ascii.eqb (Text.lower_char c) "010" = Ascii.eqb c "010".
Proof. destruct c as [[] [] [] [] [] [] [] []]; reflexivity. Qed.

Lemma chars_app (a b : string) :
  list_ascii_of_string (a ++ b)%string
  = list_ascii_of_string a ++ list_ascii_of_string b.
Proof. induction a as [|c a IH]; [done|]. simpl. f_equal. exact IH. Qed.

Lemma chars_inj (a b : string) :
  list_ascii_of_string a = list_ascii_of_string b -> a = b.
Proof.
  intros H. rewrite <- (string_of_list_ascii_of_string a),
              <- (string_of_list_ascii_of_string b). by rewrite H.
Qed.

(** What [lstrip] leaves is the end of the text. *)
Lemma lstrip_chars_suffix (l : list ascii) :
  exists w, l = w ++ Text.lstrip_chars l.
Proof.
  induction l as [|c l [w IH]]; [by exists []|]. cbn.
  destruct (Text.isspace c).
  - exists (c :: w). cbn. by rewrite <- IH.
  - by exists [].
Qed.

Lemma lstrip_chars_app (a b : list ascii) :
  Text.lstrip_chars a <> [] ->
  Text.lstrip_chars (a ++ b) = Text.lstrip_chars a ++ b.
Proof.
  induction a as [|c a IH]; [done|]. cbn.
  destruct (Text.isspace c); [exact IH | done].
Qed.

Lemma lstrip_chars_blank (a b : list ascii) :
  Text.lstrip_chars a = [] ->
  Text.lstrip_chars (a ++ b) = Text.lstrip_chars b.
Proof.
  induction a as [|c a IH]; [done|]. cbn.
  destruct (Text.isspace c); [exact IH | done].
Qed.

Lemma lstrip_chars_idem (l : list ascii) :
  Text.lstrip_chars (Text.lstrip_chars l) = Text.lstrip_chars l.
Proof.
  induction l as [|c l IH]; [done|]. cbn.
  destruct (Text.isspace c) eqn:E; [exact IH|]. cbn. by rewrite E.
Qed.

Lemma lstrip_chars_lower (l : list ascii) :
  Text.lstrip_chars (map Text.lower_char l)
  = map Text.lower_char (Text.lstrip_chars l).
Proof.
  induction l as [|c l IH]; [done|]. cbn. rewrite isspace_lower_char.
  by destruct (Text.isspace c).
Qed.

(** [rstrip], on characters. *)
Definition rstrip_chars (l : list ascii) : list ascii :=
  rev (Text.lstrip_chars (rev l)).

Definition strip_chars (l : list ascii) : list ascii :=
  rstrip_chars (Text.lstrip_chars l).

Lemma strip_chars_spec (s : string) :
  list_ascii_of_string (Text.strip s) = strip_chars (list_ascii_of_string s).
Proof. unfold Text.strip. by rewrite list_ascii_of_string_of_list_ascii. Qed.

Lemma rstrip_chars_prefix (l : list ascii) :
  exists w, l = rstrip_chars l ++ w.
Proof.
  unfold rstrip_chars. destruct (lstrip_chars_suffix (rev l)) as [w Hw].
  exists (rev w). rewrite <- rev_app_distr, <- Hw. by rewrite rev_involutive.
Qed.

Lemma rstrip_chars_app (x y : list ascii) :
  exists z, rstrip_chars (x ++ y) = rstrip_chars x ++ z.
Proof.
  unfold rstrip_chars. rewrite rev_app_distr.
  destruct (Text.lstrip_chars (rev y)) as [|c r] eqn:E.
  - exists []. rewrite lstrip_chars_blank by done. by rewrite app_nil_r.
  - rewrite lstrip_chars_app by (by rewrite E).
    rewrite rev_app_distr, rev_involutive.
    destruct (rstrip_chars_prefix x) as [w Hw]. unfold rstrip_chars in Hw.
    exists (w ++ rev (Text.lstrip_chars (rev y))).
    rewrite app_assoc, <- Hw. by rewrite E.
Qed.

(** The stripped text stays at the head when something is appended. *)
Lemma strip_chars_app (a b : list ascii) :
  strip_chars a <> [] ->
  exists z, strip_chars (a ++ b) = strip_chars a ++ z.
Proof.
  unfold strip_chars. intros H.
  rewrite lstrip_chars_app.
  - apply rstrip_chars_app.
  - intros E. apply H. by rewrite E.
Qed.

Lemma strip_lower (s : string) :
  Text.strip (Text.lower s) = Text.lower (Text.strip s).
Proof.
  apply chars_inj. rewrite strip_chars_spec. unfold Text.lower.
  rewrite !list_ascii_of_string_of_list_ascii, strip_chars_spec.
  unfold strip_chars, rstrip_chars.
  rewrite lstrip_chars_lower, <- map_rev, lstrip_chars_lower, map_rev.
  reflexivity.
Qed.

Lemma lower_idem (s : string) : Text.lower (Text.lower s) = Text.lower s.
Proof.
  unfold Text.lower. rewrite list_ascii_of_string_of_list_ascii, map_map.
  f_equal. apply map_ext. intros c. apply lower_char_idem.
Qed.

End TextFacts.

(** ** The default-filename detector *)

Section DefaultFilename.

Import Re YoutubeEngine.

(** A character set that does not tell a letter from its lower-case form. *)
Definition case_blind (cs : ascii -> bool) : Prop :=
  forall x, cs (Text.lower_char x) = cs x.

Lemma case_blind_ch (c : ascii) : case_blind (ch c).
Proof. intros x. unfold ch. by rewrite lower_char_idem. Qed.

Lemma case_blind_oneof (cs : string) : case_blind (oneof cs).
Proof.
  intros x. unfold oneof.
  induction (list_ascii_of_string cs) as [|c l IH]; [done|].
  cbn. by rewrite IH, case_blind_ch.
Qed.

Lemma case_blind_digit : case_blind digit.
Proof. intros x. apply isdigit_lower_char. Qed.

Lemma case_blind_sep : case_blind sep.
Proof.
  intros x. unfold sep. by rewrite isspace_lower_char, case_blind_oneof.
Qed.

Lemma case_blind_dotsep : case_blind dotsep.
Proof.
  intros x. unfold dotsep. by rewrite isspace_lower_char, case_blind_oneof.
Qed.

Lemma case_blind_hex : case_blind hex.
Proof.
  intros x. unfold hex. by rewrite isdigit_lower_char, case_blind_oneof.
Qed.

Lemma case_blind_alpha : case_blind alpha.
Proof. intros x. unfold alpha. by rewrite lower_char_idem. Qed.

Lemma rep_lower (cs : ascii -> bool) (k k' : list ascii -> bool)
    (s : list ascii) (lo : nat) (hi : option nat) :
  case_blind cs ->
  (forall t, k' (map Text.lower_char t) = k t) ->
  rep cs lo hi k' (map Text.lower_char s) = rep cs lo hi k s.
Proof.
  intros Hcs Hk. revert lo hi.
  induction s as [|c s IH]; intros lo hi.
  - destruct lo; cbn; [apply (Hk [])|done].
  - destruct lo as [|lo]; cbn [map rep].
    + pose proof (Hk (c :: s)) as Hk1. cbn [map] in Hk1.
      rewrite Hk1, Hcs, IH. reflexivity.
    + rewrite Hcs, IH. reflexivity.
Qed.

Lemma at_dollar_lower (s : list ascii) :
  at_dollar (map Text.lower_char s) = at_dollar s.
Proof.
  destruct s as [|c [|d s]]; cbn; [done| |done]. apply newline_lower_char.
Qed.

Lemma match_atoms_lower (ats : list atom) (dol : bool) (s : list ascii) :
  Forall (fun a => case_blind (cset a)) ats ->
  match_atoms ats dol (map Text.lower_char s) = match_atoms ats dol s.
Proof.
  intros H. revert s. induction H as [|a ats Ha _ IH]; intros s.
  - cbn. destruct dol; [apply at_dollar_lower | done].
  - cbn [match_atoms]. by apply rep_lower.
Qed.

Lemma lit_case_blind (s : string) :
  Forall (fun a => case_blind (cset a)) (lit s).
Proof.
  unfold lit. apply Forall_map, Forall_forall. intros c _. apply case_blind_ch.
Qed.

Lemma atom_case_blind (cs : ascii -> bool) (n : nat) (m : option nat) :
  case_blind cs -> Forall (fun a => case_blind (cset a)) [Atom cs n m].
Proof. intros H. by apply Forall_singleton. Qed.

(** Every pattern of the table is built from such sets. *)
Lemma DEFAULT_FILENAME_RE_case_blind :
  Forall (fun p => Forall (fun a => case_blind (cset a)) (atoms p))
    DEFAULT_FILENAME_RE.
Proof.
  unfold DEFAULT_FILENAME_RE, pat, pat_end, one, opt, atleast, between.
  repeat (apply Forall_cons_2; [cbn [atoms];
    repeat first
      [ apply lit_case_blind
      | apply Forall_app_2
      | apply atom_case_blind;
        first [ apply case_blind_oneof | apply case_blind_digit
              | apply case_blind_sep | apply case_blind_dotsep
              | apply case_blind_hex | apply case_blind_alpha ] ] |]).
  apply Forall_nil_2.
Qed.

Lemma any_match_true (pats : list pattern) (s : string) :
  any_match pats s = true <-> exists p, p ∈ pats /\ re_match p s = true.
Proof.
  induction pats as [|p pats IH]; cbn.
  - split; [done | intros (p & Hp & _); by apply elem_of_nil in Hp].
  - destruct (re_match p s) eqn:E.
    + split; [|done]. intros _. exists p. split; [left | done].
    + rewrite IH. split.
      * intros (p' & Hp & Hm). exists p'. split; [by right | done].
      * intros (p' & Hp & Hm). apply elem_of_cons in Hp as [->|Hp].
        -- congruence.
        -- by exists p'.
Qed.

Lemma re_match_lower (p : pattern) (s : string) :
  Forall (fun a => case_blind (cset a)) (atoms p) ->
  re_match p (Text.lower s) = re_match p s.
Proof.
  intros H. unfold re_match, Text.lower.
  rewrite list_ascii_of_string_of_list_ascii. by apply match_atoms_lower.
Qed.

Lemma any_match_lower (pats : list pattern) (s : string) :
  Forall (fun p => Forall (fun a => case_blind (cset a)) (atoms p)) pats ->
  any_match pats (Text.lower s) = any_match pats s.
Proof.
  induction 1 as [|p pats Hp _ IH]; [done|]. cbn [any_match].
  by rewrite re_match_lower, IH.
Qed.

(** [s.isascii()]: every character of the title has a code below 128.
    Outside ASCII the runtime folds case in ways the embedding does not
    follow (a dotted capital I lower-cases to two characters), so the
    statement below is about ASCII titles. *)
Definition isascii (s : string) : bool :=
  forallb (fun c => (nat_of_ascii c <? 128)%nat) (list_ascii_of_string s).

(** X1. On ASCII titles the detector looks at the title without its
    margins and without regard to letter case: two ASCII titles that agree
    once stripped and lower-cased get the same verdict. *)
Theorem detect_default_filename_case_and_margins (title title' : string) :
  isascii title = true ->
  isascii title' = true ->
  Text.lower (Text.strip title) = Text.lower (Text.strip title') ->
  detect_default_filename title = detect_default_filename title'.
Proof.
  intros _ _ H. unfold detect_default_filename.
  rewrite <- (any_match_lower _ (Text.strip title)),
          <- (any_match_lower _ (Text.strip title'))
    by apply DEFAULT_FILENAME_RE_case_blind.
  by rewrite H.
Qed.

Lemma detect_default_filename_case_and_margins_witness :
  isascii "  img_0042 clip " = true
  /\ isascii "IMG_0042 Clip" = true
  /\ Text.lower (Text.strip "  img_0042 clip ")
     = Text.lower (Text.strip "IMG_0042 Clip")
  /\ detect_default_filename "  img_0042 clip "
     = detect_default_filename "IMG_0042 Clip"
  /\ detect_default_filename "IMG_0042 Clip" = true.
Proof.
  split; [reflexivity|]. split; [reflexivity|]. split; [reflexivity|].
  split; [|reflexivity].
  apply (detect_default_filename_case_and_margins
           "  img_0042 clip " "IMG_0042 Clip"); reflexivity.
Defined.

(** The patterns that do not end in [$]. *)
Definition open_ended (p : pattern) : bool := negb (dollar p).

Lemma rep_app (cs : ascii -> bool) (k k' : list ascii -> bool)
    (t s : list ascii) (lo : nat) (hi : option nat) :
  (forall u, k u = true -> k' (u ++ t) = true) ->
  rep cs lo hi k s = true -> rep cs lo hi k' (s ++ t) = true.
Proof.
  intros Hk. revert lo hi. induction s as [|c s IH]; intros lo hi.
  - destruct lo; cbn [rep app]; [|done]. intros H0.
    pose proof (Hk [] H0) as H1. cbn in H1.
    destruct t as [|d t]; cbn [rep]; [done|]. by rewrite H1.
  - destruct lo as [|lo]; cbn [rep app].
    + destruct (k (c :: s)) eqn:E.
      * intros _. pose proof (Hk _ E) as H1. cbn in H1. by rewrite H1.
      * destruct (k' (c :: s ++ t)); [done|].
        destruct (cs c && may_take hi); [apply IH | done].
    + destruct (cs c && may_take hi); [apply IH | done].
Qed.

Lemma match_atoms_app (ats : list atom) (s t : list ascii) :
  match_atoms ats false s = true -> match_atoms ats false (s ++ t) = true.
Proof.
  revert s. induction ats as [|a ats IH]; intros s; [done|].
  cbn [match_atoms]. apply rep_app. exact IH.
Qed.

(** X2. [re.match] anchors a pattern at the start of the title only: when
    the stripped title matches a pattern that does not end in [$], every
    title obtained by appending text is a default filename too. *)
Theorem detect_default_filename_prefix (title rest : string) :
  any_match (List.filter open_ended DEFAULT_FILENAME_RE) (Text.strip title)
  = true ->
  detect_default_filename (title ++ rest)%string = true.
Proof.
  intros H. unfold detect_default_filename.
  destruct (strip_chars (list_ascii_of_string title)) as [|c l] eqn:E.
  - exfalso. rewrite <- strip_chars_spec in E.
    replace (Text.strip title) with EmptyString in H
      by (apply chars_inj; by rewrite E).
    vm_compute in H. discriminate H.
  - apply any_match_true in H as (p & Hp & Hm).
    apply list_elem_of_In, List.filter_In in Hp as [Hp Hopen].
    apply any_match_true. exists p. split; [by apply list_elem_of_In|].
    unfold re_match in *. unfold open_ended in Hopen.
    destruct (dollar p); [discriminate|].
    rewrite strip_chars_spec in *. rewrite chars_app.
    destruct (strip_chars_app (list_ascii_of_string title)
                (list_ascii_of_string rest)) as [z ->]; [by rewrite E|].
    by apply match_atoms_app.
Qed.

Lemma detect_default_filename_prefix_witness :
  any_match (List.filter open_ended DEFAULT_FILENAME_RE)
    (Text.strip "Untitled") = true
  /\ detect_default_filename ("Untitled" ++ " Goose Game review")%string = true.
Proof.
  split; [reflexivity|].
  apply (detect_default_filename_prefix "Untitled" " Goose Game review").
  reflexivity.
Defined.

End DefaultFilename.

(** ** The score and the popularity of a video *)

Section ScoreFacts.

Import YoutubeEngine.
Local Open Scope Z_scope.

Ltac z_cases :=
  repeat match goal with
         | |- context [(?a <? ?b)%Z] => destruct (Z.ltb_spec a b)
         | |- context [(?a <=? ?b)%Z] => destruct (Z.leb_spec a b)
         | |- context [(?a =? ?b)%Z] => destruct (Z.eqb_spec a b)
         end; cbn [andb orb negb].

Lemma view_points_antitone (views views' : Z) :
  0 <= views <= views' -> view_points views' <= view_points views.
Proof. intros H. unfold view_points. z_cases; lia. Qed.

Lemma temporal_points_antitone (age_days views views' : Z) :
  views <= views' ->
  temporal_points age_days views' <= temporal_points age_days views.
Proof. intros H. unfold temporal_points. z_cases; lia. Qed.

Lemma ghost_points_antitone (likes comments views views' : Z) :
  views <= views' ->
  ghost_points likes comments views' <= ghost_points likes comments views.
Proof. intros H. unfold ghost_points. z_cases; lia. Qed.

Lemma velocity_points_antitone (age_days : Z) (v v' : Q) :
  (v <= v')%Q -> velocity_points age_days v' <= velocity_points age_days v.
Proof.
  intros H. unfold velocity_points.
  destruct (365 <? age_days); cbn [andb]; [|lia].
  destruct (Py.Qltb v' (1 # 100)) eqn:E1.
  - apply Qltb_true in E1.
    replace (Py.Qltb v (1 # 100)) with true; [lia|].
    symmetry. apply Qltb_true. lra.
  - destruct (Py.Qltb v' (5 # 100)) eqn:E2.
    + apply Qltb_true in E2.
      destruct (Py.Qltb v (1 # 100)); [lia|].
      replace (Py.Qltb v (5 # 100)) with true; [lia|].
      symmetry. apply Qltb_true. lra.
    + destruct (Py.Qltb v (1 # 100)); [lia|].
      destruct (Py.Qltb v (5 # 100)); lia.
Qed.

Lemma round_half_even_mono (x y : Q) :
  (x <= y)%Q -> Py.round_half_even x <= Py.round_half_even y.
Proof.
  intros H.
  destruct (Z_le_gt_dec (Py.round_half_even x) (Py.round_half_even y))
    as [|Hgt]; [done|].
  destruct (round_half_even_near x) as [Hx _].
  destruct (round_half_even_near y) as [_ Hy].
  assert (Hz : (inject_Z (Py.round_half_even y) + 1
                <= inject_Z (Py.round_half_even x))%Q).
  { change 1%Q with (inject_Z 1). rewrite <- inject_Z_plus, <- Zle_Qle. lia. }
  assert (E : (x == y)%Q) by lra.
  pose proof (round_half_even_proper x y E). lia.
Qed.

Lemma round_mono (x y : Q) (ndigits : nat) :
  (x <= y)%Q -> (Py.round x ndigits <= Py.round y ndigits)%Q.
Proof.
  intros H. unfold Py.round. pose proof (scale_pos ndigits) as Hs.
  set (sc := inject_Z (10 ^ Z.of_nat ndigits)) in *.
  unfold Qdiv. apply Qmult_le_compat_r.
  - rewrite <- Zle_Qle. apply round_half_even_mono.
    apply Qmult_le_compat_r; [exact H | lra].
  - apply Qlt_le_weak, Qinv_lt_0_compat. exact Hs.
Qed.

(** More views on the same day never lower the velocity. *)
Lemma vpd_mono (views views' age_days : Z) :
  views <= views' -> (vpd views age_days <= vpd views' age_days)%Q.
Proof.
  intros H. unfold vpd. apply round_mono. unfold Qdiv.
  apply Qmult_le_compat_r.
  - by rewrite <- Zle_Qle.
  - apply Qlt_le_weak, Qinv_lt_0_compat.
    change 0%Q with (inject_Z 0). rewrite <- Zlt_Qlt. lia.
Qed.

Lemma total_points_antitone title description views views' likes comments
    duration_seconds age_days tags has_location title_entropy desc_length
    all_caps numbers_only (views_per_day views_per_day' : Q) :
  0 <= views <= views' -> (views_per_day <= views_per_day')%Q ->
  total_points title description views' likes comments duration_seconds
    age_days tags has_location title_entropy desc_length all_caps
    numbers_only views_per_day'
  <= total_points title description views likes comments duration_seconds
       age_days tags has_location title_entropy desc_length all_caps
       numbers_only views_per_day.
Proof.
  intros Hv Hq. unfold total_points.
  pose proof (view_points_antitone views views' Hv).
  pose proof (temporal_points_antitone age_days views views' (proj2 Hv)).
  pose proof (ghost_points_antitone likes comments views views' (proj2 Hv)).
  pose proof (velocity_points_antitone age_days _ _ Hq).
  lia.
Qed.

(** X3. Popularity never raises the score.  With everything else equal, a
    record with more views (and a velocity that is not lower) scores at most
    what the record with fewer views scores; in particular so when the
    velocity is the one [parse_video_data] derives from the views and the
    age. *)
Theorem compute_weirdness_score_antitone_in_views
    (title description : string)
    (views views' likes comments duration_seconds age_days : Z)
    (tags : list string) (has_location : bool) (title_entropy : Q)
    (desc_length : Z) (all_caps numbers_only : bool)
    (views_per_day views_per_day' : Q) :
  0 <= views <= views' ->
  (views_per_day <= views_per_day')%Q ->
  (compute_weirdness_score title description views' likes comments
     duration_seconds age_days tags has_location title_entropy desc_length
     all_caps numbers_only views_per_day'
   <= compute_weirdness_score title description views likes comments
        duration_seconds age_days tags has_location title_entropy
        desc_length all_caps numbers_only views_per_day)%Q
  /\ (compute_weirdness_score title description views' likes comments
        duration_seconds age_days tags has_location title_entropy
        desc_length all_caps numbers_only (vpd views' age_days)
      <= compute_weirdness_score title description views likes comments
           duration_seconds age_days tags has_location title_entropy
           desc_length all_caps numbers_only (vpd views age_days))%Q.
Proof.
  intros Hv Hq. split.
  - rewrite !compute_weirdness_score_value, <- Zle_Qle.
    apply Z.min_le_compat_l. by apply total_points_antitone.
  - rewrite !compute_weirdness_score_value, <- Zle_Qle.
    apply Z.min_le_compat_l. apply total_points_antitone; [done|].
    apply vpd_mono. lia.
Qed.

Lemma compute_weirdness_score_antitone_in_views_witness :
  0 <= 3 <= 40 /\ ((3 # 1000) <= (4 # 100))%Q
  /\ (compute_weirdness_score "MVI_0012" EmptyString 40 0 0 2 1000 [] false
        1 0 false false (4 # 100)
      <= compute_weirdness_score "MVI_0012" EmptyString 3 0 0 2 1000 [] false
           1 0 false false (3 # 1000))%Q
  /\ (compute_weirdness_score "MVI_0012" EmptyString 40 0 0 2 1000 [] false
        1 0 false false (vpd 40 1000)
      <= compute_weirdness_score "MVI_0012" EmptyString 3 0 0 2 1000 [] false
           1 0 false false (vpd 3 1000))%Q.
Proof.
  assert (Hv : 0 <= 3 <= 40) by lia.
  assert (Hq : ((3 # 1000) <= (4 # 100))%Q) by (vm_compute; discriminate).
  split; [exact Hv|]. split; [exact Hq|].
  exact (compute_weirdness_score_antitone_in_views "MVI_0012" EmptyString
           3 40 0 0 2 1000 [] false 1 0 false false (3 # 1000) (4 # 100)
           Hv Hq).
Defined.

(** X4. A record with more than 1000 views earns nothing in the view,
    age and engagement groups, so its score is at most 44. *)
Theorem compute_weirdness_score_popular_cap
    (title description : string)
    (views likes comments duration_seconds age_days : Z)
    (tags : list string) (has_location : bool) (title_entropy : Q)
    (desc_length : Z) (all_caps numbers_only : bool) (views_per_day : Q) :
  1000 < views ->
  (compute_weirdness_score title description views likes comments
     duration_seconds age_days tags has_location title_entropy desc_length
     all_caps numbers_only views_per_day <= 44)%Q.
Proof.
  intros Hv. rewrite compute_weirdness_score_value.
  change 44%Q with (inject_Z 44). rewrite <- Zle_Qle.
  unfold total_points.
  pose proof (title_points_range title numbers_only all_caps title_entropy).
  pose proof (description_points_range description desc_length tags).
  pose proof (duration_points_range duration_seconds).
  pose proof (velocity_points_range age_days views_per_day).
  pose proof (geo_points_range has_location).
  pose proof (keyword_points_range title description).
  assert (view_points views = 0) as -> by (unfold view_points; z_cases; lia).
  assert (temporal_points age_days views = 0) as ->
    by (unfold temporal_points; z_cases; lia).
  assert (ghost_points likes comments views = 0) as ->
    by (unfold ghost_points; z_cases; lia).
  lia.
Qed.

Lemma compute_weirdness_score_popular_cap_witness :
  1000 < 1001
  /\ (compute_weirdness_score "IMG_0001 weird creepy" EmptyString 1001 0 0 2
        6000 [] true 1 0 true true 0 <= 44)%Q.
Proof.
  split; [lia|].
  apply (compute_weirdness_score_popular_cap "IMG_0001 weird creepy"
           EmptyString 1001 0 0 2 6000 [] true 1 0 true true 0).
  lia.
Defined.

(** The cap is reached. *)
Example compute_weirdness_score_popular_44 :
  (compute_weirdness_score "IMG_0001 weird creepy" EmptyString 1001 0 0 2
     6000 [] true 1 0 true true 0 == 44)%Q.
Proof. vm_compute. reflexivity. Qed.

(** X5. A record that nobody has viewed, liked or commented on scores at
    least 40, whatever the rest of its data. *)
Theorem compute_weirdness_score_unseen_floor
    (title description : string)
    (views likes comments duration_seconds age_days : Z)
    (tags : list string) (has_location : bool) (title_entropy : Q)
    (desc_length : Z) (all_caps numbers_only : bool) (views_per_day : Q) :
  views = 0 -> likes = 0 -> comments = 0 ->
  (40 <= compute_weirdness_score title description views likes comments
           duration_seconds age_days tags has_location title_entropy
           desc_length all_caps numbers_only views_per_day)%Q.
Proof.
  intros -> -> ->. rewrite compute_weirdness_score_value.
  change 40%Q with (inject_Z 40). rewrite <- Zle_Qle.
  unfold total_points.
  pose proof (temporal_points_range age_days 0).
  pose proof (title_points_range title numbers_only all_caps title_entropy).
  pose proof (description_points_range description desc_length tags).
  pose proof (duration_points_range duration_seconds).
  pose proof (velocity_points_range age_days views_per_day).
  pose proof (geo_points_range has_location).
  pose proof (keyword_points_range title description).
  change (view_points 0) with 30. change (ghost_points 0 0 0) with 10.
  lia.
Qed.

Lemma compute_weirdness_score_unseen_floor_witness :
  0 = 0 /\ 0 = 0 /\ 0 = 0
  /\ (40 <= compute_weirdness_score "hello world"
              "a long description here ok" 0 0 0 100 10 ["a"] false 3 26
              false false 0)%Q.
Proof.
  split; [reflexivity|]. split; [reflexivity|]. split; [reflexivity|].
  apply (compute_weirdness_score_unseen_floor "hello world"
           "a long description here ok" 0 0 0 100 10 ["a"] false 3 26
           false false 0); reflexivity.
Defined.

End ScoreFacts.

(** ** The query executor: what it asks for and what it collects *)

Section ExecutorFacts.

Import Api YoutubeEngine App.
Local Open Scope nat_scope.

Variable search_api : search_oracle.
Variable keys : list string.

(** A provider call for one of the queries [qs], for 1 to 50 results. *)
Definition asks_for (qs : list string) (ev : event) : Prop :=
  match ev with
  | SearchCall _ q n _ => q ∈ qs /\ (1 <= n <= 50)%Z
  | _ => True
  end.

Lemma asks_for_mono (qs qs' : list string) (ev : event) :
  (forall q, q ∈ qs -> q ∈ qs') -> asks_for qs ev -> asks_for qs' ev.
Proof. intros H. destruct ev; cbn; [|done..]. intros [? ?]. auto. Qed.

Lemma page_loop_calls (fuel : nat) (q : string) (mpq : Z) (s s' : state) :
  page_loop search_api keys fuel q mpq s = Some s' ->
  exists added,
    trace s' = trace s ++ added
    /\ Forall (asks_for [q]) added
    /\ ((fetched_count s < mpq)%Z ->
        exists svc n tok, SearchCall svc q n tok ∈ added).
Proof.
  revert s. induction fuel as [|fuel IH]; intros s; [done|].
  cbn [page_loop]. destruct (Z.ltb_spec (fetched_count s) mpq) as [Hlt|Hge].
  - set (bs := Z.min 50 (mpq - fetched_count s)).
    destruct (page_run_ok search_api keys q mpq bs s)
      as (a1 & Hok1 & _ & Hpage1 & _ & Hcall1).
    intros Hrun. destruct (IH _ Hrun) as (a2 & T2 & F2 & _).
    pose proof Hok1 as [T1 _ _ _ _ _ _].
    pose proof Hpage1 as [_ _ Hsame _ _ _ _ _ _].
    exists (a1 ++ a2). split; [|split].
    + rewrite T2, T1. by rewrite app_assoc.
    + apply Forall_app. split; [|done].
      eapply Forall_impl; [exact Hsame|].
      intros ev Hev. destruct ev as [svc q' n tok| | | |]; cbn; try done.
      destruct (Hev eq_refl) as [svc' E]. inversion E; subst.
      split; [by apply list_elem_of_singleton | subst bs; lia].
    + intros _. unfold search_calls in Hcall1.
      destruct (List.filter is_search_call a1) as [|ev l] eqn:E;
        [cbn in Hcall1; lia|].
      assert (Hin : List.In ev (List.filter is_search_call a1))
        by (rewrite E; by left).
      apply List.filter_In in Hin as [Hin Hsc].
      rewrite Forall_forall in Hsame.
      apply list_elem_of_In in Hin.
      destruct (Hsame ev Hin Hsc) as [svc E'].
      eexists _, _, _. rewrite elem_of_app. left. rewrite <- E'. exact Hin.
  - intros [= <-]. exists []. split; [by rewrite app_nil_r|].
    split; [apply Forall_nil_2 | lia].
Qed.

Lemma query_loop_calls (fuel : nat) (qs : list string) (mpq : Z)
    (s s' : state) :
  query_loop search_api keys fuel qs mpq s = Some s' ->
  exists added,
    trace s' = trace s ++ added
    /\ Forall (asks_for qs) added
    /\ ((0 < mpq)%Z ->
        forall q, q ∈ qs -> exists svc n tok, SearchCall svc q n tok ∈ added).
Proof.
  revert s. induction qs as [|q qs IH]; intros s; cbn [query_loop].
  - intros [= <-]. exists []. split; [by rewrite app_nil_r|].
    split; [apply Forall_nil_2|]. intros _ q Hq. by apply elem_of_nil in Hq.
  - unfold run_query.
    destruct (page_loop search_api keys fuel q mpq (begin_query s))
      as [s1|] eqn:E1; [|done].
    intros Hrun. destruct (page_loop_calls _ _ _ _ _ E1) as (a1 & T1 & F1 & C1).
    destruct (IH _ Hrun) as (a2 & T2 & F2 & C2).
    exists (a1 ++ a2). split; [|split].
    + rewrite T2, T1. cbn. by rewrite app_assoc.
    + apply Forall_app. split.
      * eapply Forall_impl; [exact F1|]. intros ev. apply asks_for_mono.
        intros q' ->%list_elem_of_singleton. left.
      * eapply Forall_impl; [exact F2|]. intros ev. apply asks_for_mono.
        intros q' Hq'. by right.
    + intros Hpos q' Hq'. apply elem_of_cons in Hq' as [->|Hq'].
      * destruct C1 as (svc & n & tok & Hin); [cbn; lia|].
        exists svc, n, tok. rewrite elem_of_app. by left.
      * destruct (C2 Hpos q' Hq') as (svc & n & tok & Hin).
        exists svc, n, tok. rewrite elem_of_app. by right.
Qed.

(** X6. Whatever the provider answers, a run of the query loop returns,
    and every provider call it makes is for one of the given queries and
    asks for at least 1 and at most 50 results; with a positive target
    every given query is sent at least once. *)
Theorem query_loop_asks_for_the_queries (qs : list string) (mpq : Z)
    (s : state) :
  exists s' added,
    query_loop search_api keys (S (Z.to_nat mpq)) qs mpq s = Some s'
    /\ trace s' = trace s ++ added
    /\ Forall (asks_for qs) added
    /\ ((0 < mpq)%Z ->
        forall q, q ∈ qs -> exists svc n tok, SearchCall svc q n tok ∈ added).
Proof.
  destruct (query_loop_runs search_api keys (S (Z.to_nat mpq)) qs mpq s)
    as (s' & _ & Hrun & _); [lia|].
  destruct (query_loop_calls _ _ _ _ _ Hrun) as (added & T & F & C).
  by exists s', added.
Qed.

(** *** Properties kept by every step of a run *)

Section Preservation.

Variable R : state -> state -> Prop.
Hypothesis R_refl : forall s, R s s.
Hypothesis R_trans : forall a b c, R a b -> R b c -> R a c.
Hypothesis R_begin_page : forall s, R s (begin_page s).
Hypothesis R_begin_query : forall s, R s (begin_query s).
Hypothesis R_attempt :
  forall q mpq batch_size s,
    R s (snd (attempt search_api keys q mpq batch_size s)).

Lemma retry_loop_keeps (budget : nat) (q : string) (mpq batch_size : Z)
    (s : state) :
  R s (retry_loop search_api keys budget q mpq batch_size s).
Proof.
  revert s. induction budget as [|budget IH]; intros s; cbn [retry_loop];
    [apply R_refl|].
  pose proof (R_attempt q mpq batch_size s) as H.
  destruct (attempt search_api keys q mpq batch_size s) as [[|] s1];
    cbn [snd] in H; [|exact H].
  eapply R_trans; [exact H | apply IH].
Qed.

Lemma page_loop_keeps (fuel : nat) (q : string) (mpq : Z) (s s' : state) :
  page_loop search_api keys fuel q mpq s = Some s' -> R s s'.
Proof.
  revert s. induction fuel as [|fuel IH]; intros s; [done|].
  cbn [page_loop]. destruct (fetched_count s <? mpq)%Z.
  - intros Hrun. eapply R_trans; [apply R_begin_page|].
    eapply R_trans; [apply retry_loop_keeps | by apply IH].
  - intros [= <-]. apply R_refl.
Qed.

Lemma query_loop_keeps (fuel : nat) (qs : list string) (mpq : Z)
    (s s' : state) :
  query_loop search_api keys fuel qs mpq s = Some s' -> R s s'.
Proof.
  revert s. induction qs as [|q qs IH]; intros s; cbn [query_loop].
  - intros [= <-]. apply R_refl.
  - unfold run_query.
    destruct (page_loop search_api keys fuel q mpq (begin_query s))
      as [s1|] eqn:E1; [|done].
    intros Hrun. eapply R_trans; [apply R_begin_query|].
    eapply R_trans; [by eapply page_loop_keeps | by apply IH].
Qed.

End Preservation.

(** *** The hits collected are the hits answered *)

(** The hits of the answers to the provider calls of [added], a piece of
    trace that follows [pre]. *)
Fixpoint answered_items (pre added : list event) : list item :=
  match added with
  | [] => []
  | ev :: rest =>
      match ev with
      | SearchCall svc q n tok =>
          match search_api pre svc q n tok with
          | Ok response => response_items response
          | Raise _ => []
          end
      | _ => []
      end ++ answered_items (pre ++ [ev]) rest
  end.

Lemma answered_items_app (pre a b : list event) :
  answered_items pre (a ++ b)
  = answered_items pre a ++ answered_items (pre ++ a) b.
Proof.
  revert pre. induction a as [|ev a IH]; intros pre; cbn [answered_items app].
  - by rewrite app_nil_r.
  - rewrite IH, <- !app_assoc. reflexivity.
Qed.

Definition collects (s s' : state) : Prop :=
  exists added,
    trace s' = trace s ++ added
    /\ ai s' = ai s ++ answered_items (trace s) added
    /\ search_count s'
       = (search_count s
          + Z.of_nat (length (answered_items (trace s) added)))%Z.

Lemma collects_refl (s : state) : collects s s.
Proof.
  exists []. cbn. rewrite !app_nil_r. split; [done|]. split; [done|lia].
Qed.

Lemma collects_trans (a b c : state) :
  collects a b -> collects b c -> collects a c.
Proof.
  intros (x & T1 & A1 & C1) (y & T2 & A2 & C2). exists (x ++ y).
  rewrite answered_items_app, <- T1. split; [|split].
  - by rewrite T2, T1, app_assoc.
  - by rewrite A2, A1, app_assoc.
  - rewrite C2, C1, length_app. lia.
Qed.

Lemma collects_attempt (q : string) (mpq batch_size : Z) (s : state) :
  collects s (snd (attempt search_api keys q mpq batch_size s)).
Proof.
  unfold attempt, search_youtube.
  destruct (search_api (trace s) (active_svc s) q (Z.min batch_size 50)
              (if token_truthy (next_page_token s)
               then next_page_token s else None))
    as [[items token]|e] eqn:E; unfold try_body;
    cbn [error YoutubeEngine.items nextPageToken response_items
         response_nextPageToken].
  - exists [SearchCall (active_svc s) q (Z.min batch_size 50)
              (if token_truthy (next_page_token s)
               then next_page_token s else None)].
    cbn [answered_items]. rewrite E. cbn [response_items].
    rewrite app_nil_r.
    destruct items as [|it items].
    + cbn. rewrite app_nil_r. split; [done|]. split; [done|lia].
    + cbn [negb orb].
      destruct (token_truthy (next_page_token
                  (accumulate (it :: items) token (with_trace _ s))));
        cbn; done.
  - unfold on_exception. rewrite is_quota_mock.
    cbn [log with_trace with_current_key_idx current_key_idx trace].
    destruct (current_key_idx s + 1 <? length keys).
    + exists [SearchCall (active_svc s) q (Z.min batch_size 50)
                (if token_truthy (next_page_token s)
                 then next_page_token s else None);
              KeyExhausted (current_key_idx s + 1)].
      cbn [answered_items]. rewrite E. cbn.
      rewrite <- !app_assoc, !app_nil_r. split; [done|]. split; [done|lia].
    + exists [SearchCall (active_svc s) q (Z.min batch_size 50)
                (if token_truthy (next_page_token s)
                 then next_page_token s else None);
              KeyExhausted (current_key_idx s + 1); AllKeysDead].
      cbn [answered_items]. rewrite E. cbn.
      rewrite <- !app_assoc, !app_nil_r. split; [done|]. split; [done|lia].
Qed.

(** X7. No hit is lost and none is invented.  After a run, [ai] is what
    it was followed by the hits of the provider's answers, call after call
    in the order of the calls, and the session counter has grown by the
    number of these hits. *)
Theorem query_loop_collects_the_answers (qs : list string) (mpq : Z)
    (s : state) :
  exists s' added,
    query_loop search_api keys (S (Z.to_nat mpq)) qs mpq s = Some s'
    /\ trace s' = trace s ++ added
    /\ ai s' = ai s ++ answered_items (trace s) added
    /\ search_count s'
       = (search_count s
          + Z.of_nat (length (answered_items (trace s) added)))%Z.
Proof.
  destruct (query_loop_runs search_api keys (S (Z.to_nat mpq)) qs mpq s)
    as (s' & _ & Hrun & _); [lia|].
  assert (H : collects s s').
  { eapply (query_loop_keeps collects); [apply collects_refl
      | apply collects_trans | | | apply collects_attempt | exact Hrun].
    - intros s0. exists []. cbn. rewrite !app_nil_r.
      split; [done|]. split; [done|lia].
    - intros s0. exists []. cbn. rewrite !app_nil_r.
      split; [done|]. split; [done|lia]. }
  destruct H as (added & T & A & C). by exists s', added.
Qed.

(** *** The service in use *)

(** The service passed to the run, or one built from a key of the pool. *)
Definition known_service (svc0 svc : option service) : Prop :=
  svc = svc0 \/ exists k, k ∈ keys /\ svc = Some (Built k).

Definition uses_known_service (svc0 : option service) (ev : event) : Prop :=
  match ev with
  | SearchCall svc _ _ _ => known_service svc0 svc
  | _ => True
  end.

Definition keeps_service (svc0 : option service) (s s' : state) : Prop :=
  known_service svc0 (active_svc s) ->
  known_service svc0 (active_svc s')
  /\ exists added,
       trace s' = trace s ++ added
       /\ Forall (uses_known_service svc0) added.

Lemma keeps_service_refl (svc0 : option service) (s : state) :
  keeps_service svc0 s s.
Proof.
  intros H. split; [done|]. exists []. split; [by rewrite app_nil_r|].
  apply Forall_nil_2.
Qed.

Lemma keeps_service_trans (svc0 : option service) (a b c : state) :
  keeps_service svc0 a b -> keeps_service svc0 b c -> keeps_service svc0 a c.
Proof.
  intros H1 H2 Ha. destruct (H1 Ha) as (Hb & x & T1 & F1).
  destruct (H2 Hb) as (Hc & y & T2 & F2). split; [done|].
  exists (x ++ y). split; [by rewrite T2, T1, app_assoc|].
  by apply Forall_app.
Qed.

Lemma get_service_for_key_known (svc0 : option service) (idx : nat) :
  idx < length keys -> known_service svc0 (get_service_for_key keys idx).
Proof.
  intros Hlt. unfold get_service_for_key.
  replace (length keys <=? idx) with false by (symmetry; apply Nat.leb_gt; lia).
  destruct (lookup_lt_is_Some_2 keys idx Hlt) as [k Hk].
  rewrite Hk. right. exists k. split; [|done].
  by eapply list_elem_of_lookup_2.
Qed.

Lemma keeps_service_attempt (svc0 : option service) (q : string)
    (mpq batch_size : Z) (s : state) :
  keeps_service svc0 s (snd (attempt search_api keys q mpq batch_size s)).
Proof.
  intros Hs.
  pose proof (attempt_cases search_api keys q mpq batch_size s) as Hcase.
  destruct (attempt search_api keys q mpq batch_size s) as [c s1].
  cbn [fst snd] in *.
  inversion Hcase as [s0 Htr Hidx Hsvc Hpg Hai Hfc
                     |s0 Htr Hidx Hlt Hsvc Hpg Hai Hfc Htok
                     |s0 Htr Hidx Hge Hsvc Hpg Hai Hfc]; subst.
  - split; [by rewrite Hsvc|]. eexists. split; [exact Htr|].
    apply Forall_singleton. exact Hs.
  - split; [rewrite Hsvc; by apply get_service_for_key_known|].
    eexists. split; [exact Htr|].
    repeat apply Forall_cons_2; try apply Forall_nil_2; [exact Hs | done].
  - split; [by rewrite Hsvc|]. eexists. split; [exact Htr|].
    repeat apply Forall_cons_2; try apply Forall_nil_2; [exact Hs | done..].
Qed.

(** X8. Every provider call of a run is made with the service that was
    passed in or with a service built from a key of the pool. *)
Theorem query_loop_uses_known_services (svc : option service)
    (qs : list string) (mpq : Z) :
  exists s',
    query_loop search_api keys (S (Z.to_nat mpq)) qs mpq (initial svc)
    = Some s'
    /\ Forall (uses_known_service svc) (trace s')
    /\ known_service svc (active_svc s').
Proof.
  destruct (query_loop_runs search_api keys (S (Z.to_nat mpq)) qs mpq
              (initial svc)) as (s' & _ & Hrun & _); [lia|].
  exists s'. split; [exact Hrun|].
  assert (H : keeps_service svc (initial svc) s').
  { eapply (query_loop_keeps (keeps_service svc));
      [apply keeps_service_refl | apply keeps_service_trans
      | | | apply keeps_service_attempt | exact Hrun].
    - intros s0. apply (keeps_service_refl svc s0).
    - intros s0. apply (keeps_service_refl svc s0). }
  destruct H as (Hk & added & T & F); [by left|].
  cbn in T. rewrite T. done.
Qed.

End ExecutorFacts.

(** ** Dictionaries in insertion order *)

Section DictFacts.

Context {V : Type}.

Lemma dict_set_keys (k : string) (v : V) (d : list (string * V)) :
  (Py.dict_set k v d).*1
  = if bool_decide (k ∈ d.*1) then d.*1 else d.*1 ++ [k].
Proof.
  induction d as [|[k' v'] d IH]; [done|]. cbn [Py.dict_set].
  destruct (String.eqb_spec k' k) as [->|Hne].
  - cbn. by rewrite bool_decide_eq_true_2 by left.
  - cbn [fmap list_fmap fst]. cbn [fmap] in IH. rewrite IH.
    destruct (decide (k ∈ d.*1)) as [Hin|Hout].
    + rewrite !bool_decide_eq_true_2; [done | by right | done].
    + rewrite !bool_decide_eq_false_2; [done | | done].
      intros [E|Hin]%elem_of_cons; [by apply Hne | by apply Hout].
Qed.

Lemma dict_set_NoDup (k : string) (v : V) (d : list (string * V)) :
  NoDup d.*1 -> NoDup (Py.dict_set k v d).*1.
Proof.
  intros H. rewrite dict_set_keys. case_bool_decide as Hin; [done|].
  apply NoDup_app. split; [done|]. split; [|apply NoDup_singleton].
  intros x Hx ->%list_elem_of_singleton. by apply Hin.
Qed.

Lemma dict_set_Forall (P : string * V -> Prop) (k : string) (v : V)
    (d : list (string * V)) :
  Forall P d -> P (k, v) -> Forall P (Py.dict_set k v d).
Proof.
  intros Hd Hkv. induction Hd as [|[k' v'] d Hx Hd IH];
    cbn [Py.dict_set]; [by apply Forall_singleton|].
  destruct (String.eqb k' k); apply Forall_cons_2; done.
Qed.

(** Entering the images of a list one by one. *)
Lemma dict_fold {X : Type} (f : X -> string * V) (P : string * V -> Prop)
    (xs : list X) (d : list (string * V)) :
  NoDup d.*1 -> Forall P d -> Forall (fun x => P ((f x).1, (f x).2)) xs ->
  NoDup (foldl (fun acc x => Py.dict_set (f x).1 (f x).2 acc) d xs).*1
  /\ Forall P (foldl (fun acc x => Py.dict_set (f x).1 (f x).2 acc) d xs).
Proof.
  intros Hnd Hd Hxs. revert d Hnd Hd.
  induction Hxs as [|x xs Hx _ IH]; intros d Hnd Hd; cbn [foldl]; [done|].
  apply IH; [by apply dict_set_NoDup | by apply dict_set_Forall].
Qed.

End DictFacts.

(** ** Batches of fifty *)

Section Batches.

Local Open Scope nat_scope.

Context {A : Type}.

(** [[l[i:i + 50] for i in range(0, len(l), 50)]] *)
Definition batches (l : list A) : list (list A) :=
  map (fun i => Py.slice l i (i + 50)) (Py.range_step (length l) 50).

Lemma range_step_start (n i : nat) :
  i ∈ Py.range_step n 50 -> i < n.
Proof.
  unfold Py.range_step. intros Hin.
  apply list_elem_of_In, in_map_iff in Hin as (k & <- & Hk).
  apply in_seq in Hk.
  pose proof (Nat.div_mod_eq (n + 50 - 1) 50).
  pose proof (Nat.mod_upper_bound (n + 50 - 1) 50). lia.
Qed.

Lemma range_step_one (n : nat) : 1 <= n <= 50 -> Py.range_step n 50 = [0].
Proof.
  intros H. unfold Py.range_step.
  replace ((n + 50 - 1) / 50) with 1; [reflexivity|].
  apply (Nat.div_unique _ _ _ (n - 1)); lia.
Qed.

Lemma range_step_none : Py.range_step 0 50 = [].
Proof. reflexivity. Qed.

Lemma batches_concat (l : list A) : concat (batches l) = l.
Proof.
  unfold batches, Py.range_step, Py.slice. rewrite map_map.
  rewrite (map_ext _ (fun k => take 50 (drop (k * 50) l))).
  - apply chunks_concat.
    pose proof (Nat.div_mod_eq (length l + 50 - 1) 50).
    pose proof (Nat.mod_upper_bound (length l + 50 - 1) 50). lia.
  - intros k. repeat f_equal; lia.
Qed.

Lemma batches_sizes (l : list A) :
  Forall (fun b => 1 <= length b <= 50) (batches l).
Proof.
  unfold batches. apply Forall_map, Forall_forall. intros i Hi.
  apply range_step_start in Hi. rewrite slice_length. lia.
Qed.

Lemma batches_Forall (P : A -> Prop) (l : list A) :
  Forall P l -> Forall (Forall P) (batches l).
Proof.
  intros H. unfold batches, Py.slice. apply Forall_map, Forall_forall.
  intros i _. by apply Forall_take, Forall_drop.
Qed.

Lemma batches_nil : batches (@nil A) = [].
Proof. reflexivity. Qed.

(** A list of at most fifty elements is its own single batch. *)
Lemma batches_small (l : list A) :
  1 <= length l <= 50 -> batches l = [l].
Proof.
  intros H. unfold batches. rewrite range_step_one by done.
  cbn [map]. unfold Py.slice. cbn [drop]. f_equal.
  apply take_ge. lia.
Qed.

End Batches.

(** ** [get_video_details] and the detail phase of [_yt] *)

Section DetailFacts.

Import Api YoutubeEngine App.
Local Open Scope nat_scope.

Variable videos_api : videos_oracle.

(** A record that some answer of the provider contains. *)
Definition from_provider (d : detail) : Prop :=
  exists pre svc ids answer,
    videos_api pre svc ids = Ok answer /\ d ∈ answer.

Lemma get_video_details_loop_from_provider (service : option service)
    (video_ids : list string) (starts : list nat) (all_details : list detail)
    (tr : list event) :
  Forall from_provider all_details ->
  Forall from_provider
    (fst (get_video_details_loop videos_api service video_ids starts
            all_details tr)).
Proof.
  revert all_details tr. induction starts as [|i starts IH];
    intros all_details tr H; cbn [get_video_details_loop]; [done|].
  destruct (videos_api tr service (Py.slice video_ids i (i + 50)))
    as [answer|e] eqn:E.
  - apply IH. apply Forall_app. split; [done|].
    apply Forall_forall. intros d Hd.
    by exists tr, service, (Py.slice video_ids i (i + 50)), answer.
  - by apply IH.
Qed.

(** When every call fails nothing is returned. *)
Lemma get_video_details_loop_all_fail (service : option service)
    (video_ids : list string) (starts : list nat) (all_details : list detail)
    (tr : list event) :
  (forall pre ids, exists e, videos_api pre service ids = Raise e) ->
  fst (get_video_details_loop videos_api service video_ids starts
         all_details tr) = all_details.
Proof.
  intros Hfail. revert tr. induction starts as [|i starts IH]; intros tr;
    cbn [get_video_details_loop]; [done|].
  destruct (Hfail tr (Py.slice video_ids i (i + 50))) as [e ->]. apply IH.
Qed.

(** The result and the calls of [get_video_details]. *)
Lemma get_video_details_result (service : option service)
    (video_ids : list string) (tr : list event) :
  exists details,
    get_video_details videos_api service video_ids tr
    = (Ok details, tr ++ map (DetailsCall service) (batches video_ids))
    /\ Forall from_provider details
    /\ ((forall pre ids, exists e, videos_api pre service ids = Raise e) ->
        details = []).
Proof.
  unfold get_video_details.
  pose proof (get_video_details_loop_from_provider service video_ids
                (Py.range_step (length video_ids) 50) [] tr
                (Forall_nil_2 _)) as Hfrom.
  pose proof (get_video_details_loop_all_fail service video_ids
                (Py.range_step (length video_ids) 50) [] tr) as Hfail.
  destruct (get_video_details_loop_calls videos_api service video_ids
              (Py.range_step (length video_ids) 50) [] tr) as [details E].
  rewrite E in *. cbn [fst] in *. exists details.
  split; [by unfold batches; rewrite map_map|].
  split; [exact Hfrom | exact Hfail].
Qed.

(** X9. [get_video_details] never raises.  It asks for the identifiers in
    batches that, put end to end, are the list it was given, each of 1 to
    50 identifiers, one call per batch and all with the same service; an
    empty list costs no call.  Every record it returns comes from an
    answer of the provider, and when every call fails the result is
    empty. *)
Theorem get_video_details_batches (service : option service)
    (video_ids : list string) (tr : list event) :
  exists details,
    get_video_details videos_api service video_ids tr
    = (Ok details, tr ++ map (DetailsCall service) (batches video_ids))
    /\ concat (batches video_ids) = video_ids
    /\ Forall (fun b => 1 <= length b <= 50) (batches video_ids)
    /\ batches (@nil string) = []
    /\ Forall from_provider details
    /\ ((forall pre ids, exists e, videos_api pre service ids = Raise e) ->
        details = []).
Proof.
  destruct (get_video_details_result service video_ids tr)
    as (details & E & Hfrom & Hfail).
  exists details. split; [exact E|].
  split; [apply batches_concat|]. split; [apply batches_sizes|].
  split; [reflexivity|]. split; [exact Hfrom | exact Hfail].
Qed.

Variable search_api : search_oracle.
Variable keys : list string.

(** The entries of [all_details]: filed under their own identifier, and
    taken from an answer. *)
Definition filed (kv : string * detail) : Prop :=
  kv.1 = detail_id kv.2 /\ from_provider kv.2.

Lemma details_by_id_filed (det : list detail) :
  Forall from_provider det ->
  NoDup (details_by_id det).*1 /\ Forall filed (details_by_id det).
Proof.
  intros H. unfold details_by_id.
  apply (dict_fold (fun d => (detail_id d, d)) filed det []).
  - apply NoDup_nil_2.
  - apply Forall_nil_2.
  - eapply Forall_impl; [exact H|]. intros d Hd. by split.
Qed.

Lemma dict_update_filed (d other : list (string * detail)) :
  NoDup d.*1 -> Forall filed d -> Forall filed other ->
  NoDup (Py.dict_update d other).*1 /\ Forall filed (Py.dict_update d other).
Proof.
  intros Hnd Hd Ho. unfold Py.dict_update.
  apply (dict_fold (fun kv => kv) filed other d); [done..|].
  eapply Forall_impl; [exact Ho|]. by intros [k v].
Qed.

(** The calls for one chunk. *)
Definition chunk_calls (svc : option service) (chunk : list item)
    : list event :=
  map (DetailsCall svc) (batches (List.filter Text.truthy (_xv chunk))).

Lemma chunk_details_result (chunk : list item) (s : state) :
  exists det,
    chunk_details videos_api keys chunk s
    = (Ok det, with_trace (trace s ++ chunk_calls (active_svc s) chunk) s)
    /\ Forall from_provider det.
Proof.
  unfold chunk_details, chunk_calls.
  set (vs := List.filter Text.truthy (_xv chunk)).
  destruct (get_video_details_result (active_svc s) vs (trace s))
    as (det & -> & Hfrom & _).
  by exists det.
Qed.

Lemma details_loop_result (chunks : list (list item))
    (all_details : list (string * detail)) (s : state) :
  NoDup all_details.*1 -> Forall filed all_details ->
  exists all_details' s',
    details_loop videos_api keys chunks all_details s = (Ok all_details', s')
    /\ NoDup all_details'.*1 /\ Forall filed all_details'
    /\ trace s' = trace s ++ flat_map (chunk_calls (active_svc s)) chunks
    /\ active_svc s' = active_svc s
    /\ current_key_idx s' = current_key_idx s
    /\ ai s' = ai s.
Proof.
  revert all_details s. induction chunks as [|chunk chunks IH];
    intros all_details s Hnd Hf; cbn [details_loop flat_map].
  - exists all_details, s. by rewrite app_nil_r.
  - destruct (chunk_details_result chunk s) as (det & -> & Hdet).
    set (s1 := with_trace _ s).
    set (all1 := match det with
                 | [] => all_details
                 | _ :: _ => Py.dict_update all_details (details_by_id det)
                 end).
    assert (H1 : NoDup all1.*1 /\ Forall filed all1).
    { subst all1. destruct det as [|d det]; [done|].
      apply dict_update_filed; [done..|].
      by apply details_by_id_filed. }
    destruct H1 as [Hnd1 Hf1].
    destruct (IH all1 s1 Hnd1 Hf1)
      as (all' & s' & -> & Hnd' & Hf' & T & Hsvc & Hidx & Hai).
    exists all', s'. split; [done|]. split; [done|]. split; [done|].
    split; [|done]. rewrite T. subst s1. cbn. by rewrite app_assoc.
Qed.

Lemma filter_truthy_hit_ids (chunk : list item) :
  Forall (fun it => Text.truthy (hit_id it) = true) chunk ->
  List.filter Text.truthy (_xv chunk) = hit_id <$> chunk.
Proof.
  rewrite _xv_hit_id. induction 1 as [|it chunk Hit _ IH]; [done|].
  cbn. rewrite Hit. f_equal. exact IH.
Qed.

(** The chunks of unique hits cost one call each. *)
Lemma u_chunks_calls (svc : option service) (u : list item) :
  Forall (fun it => Text.truthy (hit_id it) = true) u ->
  flat_map (chunk_calls svc) (u_chunks u)
  = map (fun chunk => DetailsCall svc (hit_id <$> chunk)) (u_chunks u).
Proof.
  intros Hu. change (u_chunks u) with (batches u).
  pose proof (batches_sizes u) as Hsz.
  pose proof (batches_Forall _ u Hu) as Hid.
  induction (batches u) as [|chunk chunks IH]; [done|].
  apply Forall_cons in Hsz as [Hsz1 Hsz]. apply Forall_cons in Hid as [Hid1 Hid].
  cbn [flat_map map]. rewrite IH by done.
  unfold chunk_calls at 1. rewrite filter_truthy_hit_ids by done.
  rewrite batches_small by (by rewrite length_fmap). reflexivity.
Qed.

Lemma unique_hits_have_ids (ai : list item) :
  Forall (fun it => Text.truthy (hit_id it) = true) (unique_hits ai ∅ []).
Proof.
  rewrite unique_hits_start. apply Forall_forall. intros it Hit.
  by apply first_seen_elem in Hit as (_ & Hok & _).
Qed.

(** The two phases of [_yt]. *)
Lemma _yt_phases (fuel : nat) (svc : option service) (qs : list string)
    (mpq : Z) (s : state) :
  query_loop search_api keys fuel qs mpq (initial svc) = Some s ->
  let u := unique_hits (ai s) ∅ [] in
  exists all_details s',
    _yt search_api videos_api keys fuel svc qs mpq
    = Some (Ok (u, Py.dict_values all_details), s')
    /\ NoDup all_details.*1 /\ Forall filed all_details
    /\ trace s'
       = trace s
         ++ map (fun chunk => DetailsCall (active_svc s) (hit_id <$> chunk))
              (u_chunks u)
    /\ active_svc s' = active_svc s
    /\ current_key_idx s' = current_key_idx s.
Proof.
  intros Hrun u. unfold _yt. rewrite Hrun. fold u.
  destruct (details_loop_result (u_chunks u) [] s)
    as (all' & s' & E & Hnd & Hf & T & Hsvc & Hidx & _);
    [apply NoDup_nil_2 | apply Forall_nil_2 |].
  rewrite u_chunks_calls in T by apply unique_hits_have_ids.
  destruct u as [|it u'] eqn:Hu.
  - exists [], s. cbn. rewrite app_nil_r. repeat split; try done.
    + apply NoDup_nil_2.
  - rewrite E. by exists all', s'.
Qed.

(** X10. What [_yt] hands to [parse_video_data], in a run in which
    [build] gives a service for every pool key and every detail record of
    the provider carries its [id], as the embedding takes them to: the hits
    have pairwise different, non-empty identifiers; the detail records
    have pairwise different identifiers and each comes from an answer of
    the provider.  Nothing is said of a run in which [build] raises or a
    record lacks its [id]. *)
Theorem _yt_hands_on_distinct_records
    (svc : option service) (qs : list string) (mpq : Z) :
  exists u det_list s',
    _yt search_api videos_api keys (S (Z.to_nat mpq)) svc qs mpq
    = Some (Ok (u, det_list), s')
    /\ NoDup (hit_id <$> u)
    /\ Forall (fun it => hit_id it <> EmptyString) u
    /\ NoDup (detail_id <$> det_list)
    /\ Forall from_provider det_list.
Proof.
  destruct (query_loop_runs search_api keys (S (Z.to_nat mpq)) qs mpq
              (initial svc)) as (s & _ & Hrun & _); [lia|].
  destruct (_yt_phases _ _ _ _ _ Hrun)
    as (all' & s' & E & Hnd & Hf & _).
  eexists _, _, s'. split; [exact E|].
  rewrite unique_hits_start.
  split; [apply first_seen_NoDup|]. split; [|split].
  - apply Forall_forall. intros it Hit.
    apply first_seen_elem in Hit as (_ & Hok & _). by apply truthy_nonempty.
  - unfold Py.dict_values.
    replace (detail_id <$> map snd all') with (all'.*1); [done|].
    clear -Hf. induction Hf as [|[k d] l [Hk _] _ IH]; [done|].
    cbn in *. by rewrite IH, Hk.
  - unfold Py.dict_values. apply Forall_map.
    eapply Forall_impl; [exact Hf|]. by intros kv [_ H].
Qed.

(** X11. The detail phase asks for every unique hit exactly once: one
    call per chunk, with the identifiers of the chunk in the order of the
    hits, at most 50 to a call, all with the service the search phase
    ended with; the key cursor is not moved. *)
Theorem _yt_detail_calls (svc : option service) (qs : list string) (mpq : Z) :
  exists s u det_list s',
    query_loop search_api keys (S (Z.to_nat mpq)) qs mpq (initial svc)
    = Some s
    /\ _yt search_api videos_api keys (S (Z.to_nat mpq)) svc qs mpq
       = Some (Ok (u, det_list), s')
    /\ trace s'
       = trace s
         ++ map (fun chunk => DetailsCall (active_svc s) (hit_id <$> chunk))
              (u_chunks u)
    /\ concat (map (fmap hit_id) (u_chunks u)) = hit_id <$> u
    /\ NoDup (hit_id <$> u)
    /\ Forall (fun chunk => 1 <= length chunk <= 50) (u_chunks u)
    /\ current_key_idx s' = current_key_idx s.
Proof.
  destruct (query_loop_runs search_api keys (S (Z.to_nat mpq)) qs mpq
              (initial svc)) as (s & _ & Hrun & _); [lia|].
  destruct (_yt_phases _ _ _ _ _ Hrun)
    as (all' & s' & E & _ & _ & T & _ & Hidx).
  eexists s, _, _, s'. split; [exact Hrun|]. split; [exact E|].
  split; [exact T|]. split; [|split; [|split; [|exact Hidx]]].
  - rewrite <- (u_chunks_concat (unique_hits (ai s) ∅ [])) at 2.
    generalize (u_chunks (unique_hits (ai s) ∅ [])). intros l.
    induction l as [|c l IH]; [done|]. cbn. by rewrite fmap_app, IH.
  - rewrite unique_hits_start. apply first_seen_NoDup.
  - apply (batches_sizes (unique_hits (ai s) ∅ [])).
Qed.

Lemma query_loop_idle (fuel : nat) (qs : list string) (mpq : Z) (s : state) :
  (mpq <= 0)%Z ->
  exists s',
    query_loop search_api keys (S fuel) qs mpq s = Some s'
    /\ ai s' = ai s /\ trace s' = trace s.
Proof.
  intros Hm. revert s. induction qs as [|q qs IH]; intros s;
    cbn [query_loop]; [by exists s|].
  unfold run_query.
  rewrite (page_loop_stops search_api keys fuel q mpq (begin_query s))
    by (cbn; lia).
  destruct (IH (begin_query s)) as (s' & E & Hai & Htr).
  rewrite E. by exists s'.
Qed.

(** X12. With a target that is not positive [_yt] makes no provider call
    at all and returns no hit and no record. *)
Theorem _yt_nonpositive_target (fuel : nat) (svc : option service)
    (qs : list string) (mpq : Z) :
  (mpq <= 0)%Z ->
  exists s',
    _yt search_api videos_api keys (S fuel) svc qs mpq
    = Some (Ok ([], []), s')
    /\ trace s' = [].
Proof.
  intros Hm.
  destruct (query_loop_idle fuel qs mpq (initial svc) Hm)
    as (s & Hrun & Hai & Htr).
  unfold _yt. rewrite Hrun, Hai. cbn. by exists s.
Qed.

End DetailFacts.

Lemma _yt_nonpositive_target_witness :
  (0 <= 0)%Z
  /\ exists s',
       App._yt (fun _ _ _ _ _ => Api.Ok (Api.SearchResponse [] None))
         (fun _ _ _ => Api.Ok []) ["key1"] 1 (Some Api.Given) ["a"; "b"] 0
       = Some (Api.Ok ([], []), s')
       /\ App.trace s' = [].
Proof.
  split; [lia|].
  apply (_yt_nonpositive_target (fun _ _ _ => Api.Ok [])
           (fun _ _ _ _ _ => Api.Ok (Api.SearchResponse [] None))
           ["key1"] 0 (Some Api.Given) ["a"; "b"] 0).
  lia.
Defined.

(** ** The key pool of [secrets_manager] *)

Section KeyPool.

Import Api SecretsManager.
Local Open Scope Z_scope.

(** [os.environ] after [load_env]: the assignments of the file, laid over
    what was there. *)
Lemma load_env_union (env_file : list (string * string))
    (environ : gmap string string) :
  load_env env_file environ = load_env env_file ∅ ∪ environ.
Proof.
  unfold load_env. revert environ.
  induction env_file as [|[k v] env_file IH]; intros environ; cbn [foldl].
  - by rewrite (left_id_L ∅ (∪)).
  - cbn [fst snd]. rewrite IH, (IH (<[k:=v]> ∅)).
    rewrite insert_empty, (insert_union_singleton_l environ).
    by rewrite (assoc_L (∪)).
Qed.

Lemma load_env_idem (env_file : list (string * string))
    (environ : gmap string string) :
  load_env env_file (load_env env_file environ) = load_env env_file environ.
Proof.
  rewrite (load_env_union env_file (load_env env_file environ)).
  rewrite (load_env_union env_file environ).
  by rewrite (assoc_L (∪)), (idemp_L (∪)).
Qed.

Lemma load_env_lookup_other (env_file : list (string * string))
    (environ : gmap string string) (name : string) :
  name ∉ env_file.*1 -> load_env env_file environ !! name = environ !! name.
Proof.
  unfold load_env. revert environ.
  induction env_file as [|[k v] env_file IH]; intros environ Hn; [done|].
  cbn [foldl fst snd]. rewrite IH.
  - apply lookup_insert_ne. intros ->. apply Hn. left.
  - intros Hin. apply Hn. by right.
Qed.

(** A variable the file does not assign survives a reload. *)
Lemma load_env_keeps (env_file : list (string * string))
    (environ : gmap string string) (name value : string) :
  name ∉ env_file.*1 ->
  load_env env_file (<[name := value]> (load_env env_file environ))
  = <[name := value]> (load_env env_file environ).
Proof.
  intros Hn.
  rewrite (load_env_union env_file (<[name := value]> _)).
  rewrite <- insert_union_r.
  - by rewrite <- load_env_union, load_env_idem.
  - rewrite load_env_lookup_other by done. apply lookup_empty.
Qed.

(** The pool as a function of [os.environ]. *)
Definition slot_key (environ : gmap string string) (i : Z) : string :=
  getenv environ ("YOUTUBE_API_KEY_" ++ Py.str i)%string EmptyString.

Definition collected (environ : gmap string string) (init : list string)
    (slots : list Z) : list string :=
  foldl (fun keys i =>
           let k := slot_key environ i in
           if Text.truthy k then keys ++ [k] else keys) init slots.

Definition pool_with (slots : list Z) (environ : gmap string string)
    : list string :=
  let single := getenv environ "YOUTUBE_API_KEY" EmptyString in
  unique_keys
    (collected environ (if Text.truthy single then [single] else []) slots)
    ∅ [].

Definition pool_of (environ : gmap string string) : list string :=
  pool_with (map Z.of_nat (seq 2 19)) environ.

Lemma get_all_api_keys_pool_of (env_file : list (string * string))
    (environ : gmap string string) :
  get_all_api_keys env_file environ
  = (pool_of (load_env env_file environ), load_env env_file environ).
Proof.
  unfold get_all_api_keys, pool_of, pool_with, collected, slot_key.
  reflexivity.
Qed.

Lemma fst_get_all_api_keys (env_file : list (string * string))
    (environ : gmap string string) :
  fst (get_all_api_keys env_file environ)
  = pool_of (load_env env_file environ).
Proof.
  rewrite get_all_api_keys_pool_of.
  generalize (pool_of (load_env env_file environ)). reflexivity.
Qed.

Lemma snd_get_all_api_keys (env_file : list (string * string))
    (environ : gmap string string) :
  snd (get_all_api_keys env_file environ) = load_env env_file environ.
Proof.
  rewrite get_all_api_keys_pool_of.
  generalize (pool_of (load_env env_file environ)). reflexivity.
Qed.

Lemma collected_app (environ : gmap string string) (init : list string)
    (slots : list Z) :
  collected environ init slots = init ++ collected environ [] slots.
Proof.
  unfold collected. revert init.
  induction slots as [|i slots IH]; intros init; cbn [foldl].
  - by rewrite app_nil_r.
  - rewrite IH. rewrite (IH (if Text.truthy _ then _ else _)).
    destruct (Text.truthy (slot_key environ i)); [|done].
    by rewrite <- app_assoc.
Qed.

Lemma collected_Forall (P : string -> Prop) (environ : gmap string string)
    (init : list string) (slots : list Z) :
  Forall P init ->
  (forall i, Text.truthy (slot_key environ i) = true ->
             P (slot_key environ i)) ->
  Forall P (collected environ init slots).
Proof.
  intros Hinit Hslot. unfold collected. revert init Hinit.
  induction slots as [|i slots IH]; intros init Hinit; cbn [foldl]; [done|].
  apply IH. destruct (Text.truthy (slot_key environ i)) eqn:E; [|done].
  apply Forall_app. split; [done|]. apply Forall_singleton. by apply Hslot.
Qed.

Lemma unique_keys_first_seen (ks : list string) (seen : gset string)
    (unique : list string) :
  unique_keys ks seen unique
  = unique ++ first_seen (fun k => k) (fun _ => true) ks seen.
Proof.
  revert seen unique. induction ks as [|k ks IH]; intros seen unique; simpl.
  - by rewrite app_nil_r.
  - destruct (bool_decide (k ∉ seen)).
    + rewrite IH, <- app_assoc. reflexivity.
    + apply IH.
Qed.

(** A key taken from the environment: not empty, and the value of one of
    its variables. *)
Definition configured (environ : gmap string string) (k : string) : Prop :=
  k <> EmptyString /\ exists name, environ !! name = Some k.

Lemma getenv_configured (environ : gmap string string) (name : string) :
  Text.truthy (getenv environ name EmptyString) = true ->
  configured environ (getenv environ name EmptyString).
Proof.
  intros H. split; [by apply truthy_nonempty|]. unfold getenv in *.
  destruct (environ !! name) as [k|] eqn:E; [|discriminate].
  by exists name.
Qed.

Lemma pool_with_facts (slots : list Z) (environ : gmap string string) :
  NoDup (pool_with slots environ)
  /\ Forall (configured environ) (pool_with slots environ)
  /\ (forall k, environ !! "YOUTUBE_API_KEY" = Some k -> k <> EmptyString ->
                head (pool_with slots environ) = Some k).
Proof.
  unfold pool_with. rewrite unique_keys_first_seen, app_nil_l.
  set (single := getenv environ "YOUTUBE_API_KEY" EmptyString).
  split; [|split].
  - rewrite <- (list_fmap_id (first_seen _ _ _ _)).
    apply (first_seen_NoDup (fun k : string => k)).
  - apply Forall_forall. intros k Hk.
    apply first_seen_elem in Hk as (Hk & _ & _). revert k Hk.
    apply Forall_forall, collected_Forall.
    + destruct (Text.truthy single) eqn:E; [|done].
      apply Forall_singleton. by apply getenv_configured.
    + intros i. apply getenv_configured.
  - intros k Hk Hne. subst single. unfold getenv. rewrite Hk.
    change (default EmptyString (Some k)) with k.
    replace (Text.truthy k) with true
      by (symmetry; by apply truthy_nonempty).
    rewrite collected_app. cbn [app first_seen].
    by rewrite bool_decide_eq_true_2 by set_solver.
Qed.

Lemma pool_of_facts (environ : gmap string string) :
  NoDup (pool_of environ)
  /\ Forall (configured environ) (pool_of environ)
  /\ (forall k, environ !! "YOUTUBE_API_KEY" = Some k -> k <> EmptyString ->
                head (pool_of environ) = Some k).
Proof. apply pool_with_facts. Qed.

(** X13. The pool of [get_all_api_keys] holds at most twenty keys, none of
    them empty, no key twice, each the value of a variable of the
    environment after [load_env]; and the key of [YOUTUBE_API_KEY], when
    there is one, comes first. *)
Theorem get_all_api_keys_pool (env_file : list (string * string))
    (environ : gmap string string) :
  let pool := fst (get_all_api_keys env_file environ) in
  let environ' := snd (get_all_api_keys env_file environ) in
  NoDup pool
  /\ (length pool <= 20)%nat
  /\ Forall (fun k => k <> EmptyString
                      /\ exists name, environ' !! name = Some k) pool
  /\ (forall k, environ' !! "YOUTUBE_API_KEY" = Some k -> k <> EmptyString ->
                head pool = Some k).
Proof.
  intros pool environ'. subst pool environ'.
  pose proof (get_all_api_keys_length env_file environ) as Hlen.
  rewrite fst_get_all_api_keys in *. rewrite snd_get_all_api_keys.
  destruct (pool_of_facts (load_env env_file environ)) as (Hnd & Hconf & Hhd).
  done.
Qed.

(** [get_api_key] loads the file twice; the second load changes nothing. *)
Lemma get_api_key_eq (env_file : list (string * string))
    (environ : gmap string string) :
  get_api_key env_file environ
  = match pool_of (load_env env_file environ) with
    | [] => Ok (load_env env_file environ !! "YOUTUBE_API_KEY")
    | _ :: _ =>
        match cursor (load_env env_file environ) with
        | None => Raise value_error
        | Some idx =>
            Ok (pool_of (load_env env_file environ)
                  !! Z.to_nat
                       (idx mod Z.of_nat
                                  (length (pool_of (load_env env_file environ)))))
        end
    end.
Proof.
  unfold get_api_key. rewrite get_all_api_keys_pool_of, load_env_idem.
  unfold cursor. generalize (pool_of (load_env env_file environ)).
  reflexivity.
Qed.

(** X14. [get_api_key] returns a key of the pool whatever whole number the
    cursor holds, negative or beyond the pool included: the key at the
    position [cursor mod poolSize].  It raises [ValueError] when the cursor
    is no number, and returns no key (or the empty [YOUTUBE_API_KEY]) when
    the pool is empty. *)
Theorem get_api_key_in_pool (env_file : list (string * string))
    (environ : gmap string string) :
  let pool := fst (get_all_api_keys env_file environ) in
  let environ' := snd (get_all_api_keys env_file environ) in
  match pool with
  | [] =>
      get_api_key env_file environ = Ok (environ' !! "YOUTUBE_API_KEY")
      /\ (environ' !! "YOUTUBE_API_KEY" = None
          \/ environ' !! "YOUTUBE_API_KEY" = Some EmptyString)
  | _ :: _ =>
      match cursor environ' with
      | Some idx =>
          exists k,
            get_api_key env_file environ = Ok (Some k)
            /\ k ∈ pool
            /\ pool !! Z.to_nat (idx mod Z.of_nat (length pool)) = Some k
      | None => get_api_key env_file environ = Raise value_error
      end
  end.
Proof.
  intros pool environ'. subst pool environ'.
  rewrite get_api_key_eq, fst_get_all_api_keys, snd_get_all_api_keys.
  destruct (pool_of_facts (load_env env_file environ)) as (_ & _ & Hhd).
  destruct (pool_of (load_env env_file environ)) as [|k0 pool] eqn:E.
  - split; [done|].
    destruct (load_env env_file environ !! "YOUTUBE_API_KEY") as [k|] eqn:Ek;
      [|by left].
    right. f_equal. destruct (decide (k = EmptyString)) as [|Hne]; [done|].
    by specialize (Hhd k eq_refl Hne).
  - destruct (cursor (load_env env_file environ)) as [idx|]; [|done].
    assert (Hlt : (Z.to_nat (idx mod Z.of_nat (length (k0 :: pool)))
                   < length (k0 :: pool))%nat).
    { pose proof (Z.mod_pos_bound idx (Z.of_nat (length (k0 :: pool)))) as Hm.
      cbn [length] in *. lia. }
    destruct (lookup_lt_is_Some_2 _ _ Hlt) as [k Hk].
    exists k. rewrite Hk. split; [done|]. split; [|done].
    by eapply list_elem_of_lookup_2.
Qed.

Lemma slot_key_insert_cursor (environ : gmap string string) (value : string)
    (i : Z) :
  slot_key (<["_YT_KEY_IDX" := value]> environ) i = slot_key environ i.
Proof.
  unfold slot_key, getenv. rewrite lookup_insert_ne; [done|].
  intros H. simpl in H. discriminate H.
Qed.

Lemma pool_of_insert_cursor (environ : gmap string string) (value : string) :
  pool_of (<["_YT_KEY_IDX" := value]> environ) = pool_of environ.
Proof.
  unfold pool_of. generalize (map Z.of_nat (seq 2 19)). intros slots.
  unfold pool_with.
  replace (getenv (<["_YT_KEY_IDX" := value]> environ) "YOUTUBE_API_KEY"
             EmptyString)
    with (getenv environ "YOUTUBE_API_KEY" EmptyString)
    by (unfold getenv; by rewrite lookup_insert_ne).
  f_equal. generalize (if Text.truthy (getenv environ "YOUTUBE_API_KEY"
                                         EmptyString)
                       then [getenv environ "YOUTUBE_API_KEY" EmptyString]
                       else []).
  unfold collected. induction slots as [|i slots IH];
    intros init; cbn [foldl]; [done|].
  by rewrite slot_key_insert_cursor, IH.
Qed.

(** X15. Rotating and then asking for the key gives the next key of the
    pool, the first one after the last: provided the pool has two keys or
    more, the cursor is a number, and the [.env] file does not itself
    assign the cursor.  The pool is the same before and after. *)
Theorem rotate_api_key_then_get_api_key (env_file : list (string * string))
    (environ : gmap string string) (idx : Z) :
  "_YT_KEY_IDX" ∉ env_file.*1 ->
  (2 <= length (fst (get_all_api_keys env_file environ)))%nat ->
  cursor (snd (get_all_api_keys env_file environ)) = Some idx ->
  exists environ',
    rotate_api_key env_file environ = Ok environ'
    /\ get_api_key env_file environ
       = Ok (fst (get_all_api_keys env_file environ)
               !! Z.to_nat
                    (idx mod Z.of_nat
                       (length (fst (get_all_api_keys env_file environ)))))
    /\ get_api_key env_file environ'
       = Ok (fst (get_all_api_keys env_file environ)
               !! Z.to_nat
                    ((idx + 1) mod Z.of_nat
                       (length (fst (get_all_api_keys env_file environ)))))
    /\ fst (get_all_api_keys env_file environ')
       = fst (get_all_api_keys env_file environ).
Proof.
  intros Hfile Hlen Hcur.
  pose proof (get_all_api_keys_length env_file environ) as Hmax.
  rewrite fst_get_all_api_keys in Hlen, Hmax |- *.
  rewrite snd_get_all_api_keys in Hcur.
  remember (load_env env_file environ) as E eqn:HE.
  remember (pool_of E) as P eqn:HP.
  assert (Hmod : 0 <= (idx + 1) mod Z.of_nat (length P) < Z.of_nat (length P))
    by (apply Z.mod_pos_bound; lia).
  assert (Hpool : exists k0 pool, P = k0 :: pool).
  { destruct P as [|k0 pool]; [simpl in Hlen; lia | eauto]. }
  set (value := Py.str ((idx + 1) mod Z.of_nat (length P))).
  assert (Hnext : cursor (<["_YT_KEY_IDX" := value]> E)
                  = Some ((idx + 1) mod Z.of_nat (length P))).
  { unfold cursor, getenv. rewrite lookup_insert_eq.
    apply int_str_small. lia. }
  assert (Hload : load_env env_file (<["_YT_KEY_IDX" := value]> E)
                  = <["_YT_KEY_IDX" := value]> E)
    by (rewrite HE; by apply load_env_keeps).
  exists (<["_YT_KEY_IDX" := value]> E).
  split; [|split; [|split]].
  - unfold rotate_api_key.
    rewrite get_all_api_keys_pool_of, <- HE, <- HP.
    replace (length P <=? 1)%nat with false
      by (symmetry; apply Nat.leb_gt; lia).
    unfold cursor in Hcur. rewrite Hcur. reflexivity.
  - rewrite get_api_key_eq, <- HE, <- HP, Hcur.
    destruct Hpool as (k0 & pool & ->). reflexivity.
  - rewrite get_api_key_eq, Hload, pool_of_insert_cursor, <- HP, Hnext.
    rewrite Z.mod_mod by lia.
    destruct Hpool as (k0 & pool & ->). reflexivity.
  - rewrite fst_get_all_api_keys.
    by rewrite Hload, pool_of_insert_cursor.
Qed.

Lemma rotate_api_key_then_get_api_key_witness :
  ("_YT_KEY_IDX" ∉ (@nil (string * string)).*1)
  /\ (2 <= length (fst (get_all_api_keys [] two_keys_at_second)))%nat
  /\ cursor (snd (get_all_api_keys [] two_keys_at_second)) = Some 1
  /\ exists environ',
       rotate_api_key [] two_keys_at_second = Ok environ'
       /\ get_api_key [] two_keys_at_second
          = Ok (fst (get_all_api_keys [] two_keys_at_second)
                  !! Z.to_nat
                       (1 mod Z.of_nat
                          (length (fst (get_all_api_keys []
                                          two_keys_at_second)))))
       /\ get_api_key [] environ'
          = Ok (fst (get_all_api_keys [] two_keys_at_second)
                  !! Z.to_nat
                       ((1 + 1) mod Z.of_nat
                          (length (fst (get_all_api_keys []
                                          two_keys_at_second)))))
       /\ fst (get_all_api_keys [] environ')
          = fst (get_all_api_keys [] two_keys_at_second).
Proof.
  assert (H1 : "_YT_KEY_IDX" ∉ (@nil (string * string)).*1)
    by apply not_elem_of_nil.
  assert (H2 : (2 <= length (fst (get_all_api_keys [] two_keys_at_second)))%nat)
    by (vm_compute; lia).
  assert (H3 : cursor (snd (get_all_api_keys [] two_keys_at_second)) = Some 1)
    by (vm_compute; reflexivity).
  split; [exact H1|]. split; [exact H2|]. split; [exact H3|].
  exact (rotate_api_key_then_get_api_key [] two_keys_at_second 1 H1 H2 H3).
Defined.

(** The keys the example pool hands out before and after a rotation. *)
Example rotate_api_key_then_get_api_key_keys :
  get_api_key [] two_keys_at_second = Ok (Some "key2")
  /\ match rotate_api_key [] two_keys_at_second with
     | Ok environ' => get_api_key [] environ'
     | Raise e => Raise e
     end = Ok (Some "key1").
Proof. split; vm_compute; reflexivity. Qed.

(** When the file assigns the cursor, the next load undoes the rotation. *)
Example rotation_undone_by_env_file :
  let env_file := [("_YT_KEY_IDX", "0")] in
  let environ :=
    list_to_map [("YOUTUBE_API_KEY", "key1"); ("YOUTUBE_API_KEY_2", "key2")] in
  get_api_key env_file environ = Ok (Some "key1")
  /\ match rotate_api_key env_file environ with
     | Ok environ' => get_api_key env_file environ'
     | Raise e => Raise e
     end = Ok (Some "key1").
Proof. split; vm_compute; reflexivity. Qed.

End KeyPool.

(** ** The [.env] file: what [save_env] writes, [load_env] reads *)

Section EnvFile.

Import SecretsManager.

(** Dropping from the left the characters that satisfy [p]. *)
Fixpoint ldrop (p : ascii -> bool) (l : list ascii) : list ascii :=
  match l with
  | c :: l' => if p c then ldrop p l' else l
  | [] => []
  end.

Definition strip_with (p : ascii -> bool) (l : list ascii) : list ascii :=
  rev (ldrop p (rev (ldrop p l))).

Lemma lstrip_chars_ldrop (l : list ascii) :
  Text.lstrip_chars l = ldrop Text.isspace l.
Proof. induction l as [|c l IH]; [done|]. cbn. by rewrite IH. Qed.


Lemma strip_chars_strip_with (l : list ascii) :
  strip_chars l = strip_with Text.isspace l.
Proof.
  unfold strip_chars, rstrip_chars, strip_with.
  by rewrite !lstrip_chars_ldrop.
Qed.

(** Neither the first nor the last character satisfies [p]. *)
Definition trimmed (p : ascii -> bool) (l : list ascii) : Prop :=
  (forall c, head l = Some c -> p c = false)
  /\ (forall c, last l = Some c -> p c = false).

Lemma head_rev (l : list ascii) : head (rev l) = last l.
Proof.
  destruct l as [|c l _] using rev_ind; [done|].
  by rewrite rev_unit, last_snoc.
Qed.

Lemma ldrop_fixed (p : ascii -> bool) (l : list ascii) :
  (forall c, head l = Some c -> p c = false) -> ldrop p l = l.
Proof. destruct l as [|c l]; [done|]. intros H. cbn. by rewrite (H c). Qed.

Lemma strip_with_fixed (p : ascii -> bool) (l : list ascii) :
  trimmed p l -> strip_with p l = l.
Proof.
  intros [Hh Hl]. unfold strip_with. rewrite (ldrop_fixed p l) by done.
  rewrite ldrop_fixed; [apply rev_involutive|].
  intros c. rewrite head_rev. apply Hl.
Qed.


(** The same on texts. *)
Definition bare (p : ascii -> bool) (s : string) : Prop :=
  trimmed p (list_ascii_of_string s).

Lemma strip_fixed (s : string) : bare Text.isspace s -> Text.strip s = s.
Proof.
  intros H. apply chars_inj.
  rewrite strip_chars_spec, strip_chars_strip_with. by apply strip_with_fixed.
Qed.







(** *** Lines *)







(** *** Entries *)











(** *** The dict *)








End EnvFile.


(** A value in quotes does not survive: the quotes are stripped when the
    file is read. *)
Example save_env_strips_quotes :
  SecretsManager.env_vars
    (Some (fst (SecretsManager.save_env "NAME" "'abc'" None ∅)))
  = [("NAME", "abc")].
Proof. vm_compute. reflexivity. Qed.

(** ** [_e]: text made safe for HTML *)

Section HtmlEscape.

Import App.

(** What stands for one character in the escaped text. *)
Definition escape_char (c : ascii) : string :=
  if Ascii.eqb c "&" then "&amp;"
  else if Ascii.eqb c "<" then "&lt;"
  else if Ascii.eqb c ">" then "&gt;"
  else String c EmptyString.

Fixpoint escape_all (t : string) : string :=
  match t with
  | EmptyString => EmptyString
  | String c rest => (escape_char c ++ escape_all rest)%string
  end.

Lemma string_app_assoc (a b c : string) :
  ((a ++ b) ++ c = a ++ (b ++ c))%string.
Proof.
  induction a as [|x a IH]; [done|].
  change (String x ((a ++ b) ++ c) = String x (a ++ (b ++ c)))%string.
  by rewrite IH.
Qed.

Lemma replace_char_app (old : ascii) (new a b : string) :
  Text.replace_char old new (a ++ b)%string
  = (Text.replace_char old new a ++ Text.replace_char old new b)%string.
Proof.
  induction a as [|x a IH]; [done|].
  change (String x a ++ b)%string with (String x (a ++ b)%string).
  cbn [Text.replace_char].
  destruct (Ascii.eqb x old); rewrite IH; [|done].
  by rewrite string_app_assoc.
Qed.

(** The three replacements, made one after the other, escape every
    character once. *)
Lemma replace_thrice (t : string) :
  Text.replace_char ">" "&gt;"
    (Text.replace_char "<" "&lt;" (Text.replace_char "&" "&amp;" t))
  = escape_all t.
Proof.
  induction t as [|c t IH]; [done|].
  cbn [Text.replace_char escape_all]. unfold escape_char.
  destruct (Ascii.eqb c "&") eqn:E1.
  - rewrite !replace_char_app, IH. reflexivity.
  - cbn [Text.replace_char]. destruct (Ascii.eqb c "<") eqn:E2.
    + rewrite replace_char_app, IH. reflexivity.
    + cbn [Text.replace_char].
      destruct (Ascii.eqb c ">") eqn:E3; rewrite IH; reflexivity.
Qed.

Lemma _e_escape_all (t : string) : _e t = escape_all t.
Proof.
  unfold _e. destruct t as [|c t]; [done|]. cbn [Text.truthy negb].
  replace (Text.truthy (String c t)) with true by reflexivity.
  apply replace_thrice.
Qed.

Lemma has_char_app (c : ascii) (a b : string) :
  Text.has_char c (a ++ b)%string = Text.has_char c a || Text.has_char c b.
Proof. unfold Text.has_char. by rewrite chars_app, existsb_app. Qed.

Lemma escape_all_no_angle (c : ascii) (t : string) :
  c = "<"%char \/ c = ">"%char -> Text.has_char c (escape_all t) = false.
Proof.
  intros Hc. induction t as [|d t IH]; [done|].
  cbn [escape_all]. rewrite has_char_app, IH, orb_false_r.
  unfold escape_char.
  destruct (Ascii.eqb_spec d "&"); [by destruct Hc as [->| ->]|].
  destruct (Ascii.eqb_spec d "<"); [by destruct Hc as [->| ->]|].
  destruct (Ascii.eqb_spec d ">"); [by destruct Hc as [->| ->]|].
  unfold Text.has_char. cbn. rewrite orb_false_r.
  destruct (Ascii.eqb_spec c d) as [<-|]; [|done].
  by destruct Hc.
Qed.

Lemma escape_all_plain (t : string) :
  Text.has_char "&" t = false -> Text.has_char "<" t = false ->
  Text.has_char ">" t = false -> escape_all t = t.
Proof.
  unfold Text.has_char. induction t as [|c t IH]; [done|].
  cbn [list_ascii_of_string existsb escape_all].
  intros [H1 H1']%orb_false_iff [H2 H2']%orb_false_iff
         [H3 H3']%orb_false_iff.
  rewrite IH by done. unfold escape_char.
  rewrite (Ascii.eqb_sym c "&"), H1, (Ascii.eqb_sym c "<"), H2,
          (Ascii.eqb_sym c ">"), H3.
  reflexivity.
Qed.

Ltac escape_cases H :=
  unfold escape_char in H;
  repeat match type of H with
         | context [Ascii.eqb ?c ?d] => destruct (Ascii.eqb_spec c d); subst
         end;
  simpl in H.

Lemma escape_all_inj (t t' : string) :
  escape_all t = escape_all t' -> t = t'.
Proof.
  revert t'. induction t as [|c t IH]; intros [|c' t'] H.
  - reflexivity.
  - cbn [escape_all] in H. escape_cases H; discriminate H.
  - cbn [escape_all] in H. escape_cases H; discriminate H.
  - cbn [escape_all] in H. escape_cases H; try discriminate H;
      simplify_eq; try done; f_equal; by apply IH.
Qed.

(** X17. [_e] replaces every character on its own, [&] by [&amp;], [<] by
    [&lt;] and [>] by [&gt;], and nothing is escaped twice; the result
    holds no [<] and no [>]; different texts have different results; and
    a text without these three characters is returned as it is. *)
Theorem _e_escapes (t t' : string) :
  _e t = escape_all t
  /\ Text.has_char "<" (_e t) = false
  /\ Text.has_char ">" (_e t) = false
  /\ (_e t = _e t' -> t = t')
  /\ (Text.has_char "&" t = false -> Text.has_char "<" t = false ->
      Text.has_char ">" t = false -> _e t = t).
Proof.
  rewrite !_e_escape_all. split; [done|].
  split; [apply escape_all_no_angle; by left|].
  split; [apply escape_all_no_angle; by right|].
  split; [apply escape_all_inj | apply escape_all_plain].
Qed.

Example _e_script :
  _e "<b>Tom & Jerry</b> &lt;" = "&lt;b&gt;Tom &amp; Jerry&lt;/b&gt; &amp;lt;".
Proof. reflexivity. Qed.

End HtmlEscape.

(** ** [_pf] as a filter on rows *)

Section RowWise.

Import Api YoutubeEngine App.
Local Open Scope Z_scope.

Variable re_compile : string -> option (string -> bool).

(** A step that keeps the rows that pass a test, each row on its own. *)
Definition rowwise (f : DataFrame -> result DataFrame) : Prop :=
  exists keep : Row.t -> bool, forall df, f df = Ok (List.filter keep df).

(** The text of an option, when one is given, is a pattern that
    [re.compile] accepts. *)
Definition compiles (t : option string) : Prop :=
  text_set t = true -> is_Some (re_compile (default EmptyString t)).

Lemma filter_all {A} (l : list A) : List.filter (fun _ => true) l = l.
Proof. induction l as [|x l IH]; [done|]. cbn. by rewrite IH. Qed.

Lemma filter_filter {A} (f g : A -> bool) (l : list A) :
  List.filter g (List.filter f l) = List.filter (fun x => f x && g x) l.
Proof.
  induction l as [|x l IH]; [done|]. cbn.
  destruct (f x); cbn; [destruct (g x)|]; by rewrite IH.
Qed.

Lemma rowwise_skip : rowwise (fun df => Ok df).
Proof. exists (fun _ => true). intros df. by rewrite filter_all. Qed.

Lemma rowwise_mask (mask : Row.t -> bool) :
  rowwise (fun df => Ok match df with
                        | [] => df
                        | _ :: _ => List.filter mask df
                        end).
Proof. exists mask. by intros [|r df]. Qed.

Lemma rowwise_text (column : Row.t -> string) (pat : string) :
  is_Some (re_compile pat) ->
  rowwise (fun df => match df with
                     | [] => Ok df
                     | _ :: _ => if negb (Text.truthy pat) then Ok df
                                 else str_contains re_compile column pat df
                     end).
Proof.
  intros [search Hs]. destruct (negb (Text.truthy pat)).
  - exists (fun _ => true). intros df. rewrite filter_all. by destruct df.
  - exists (fun r => search (column r)). intros [|r df]; [done|].
    unfold str_contains. by rewrite Hs.
Qed.

Lemma rowwise_regex (pat : string) :
  rowwise (fun df => filter_title_regex re_compile df pat).
Proof.
  unfold filter_title_regex, str_contains.
  destruct (negb (Text.truthy pat)).
  - exists (fun _ => true). intros df. rewrite filter_all. by destruct df.
  - destruct (re_compile pat) as [search|].
    + exists (fun r => search (Row.title r)). by intros [|r df].
    + exists (fun _ => true). intros df. rewrite filter_all. by destruct df.
Qed.

Lemma stages_rowwise (mv : Z) (kw : filter_kw) :
  compiles (tc kw) -> compiles (dc kw) -> compiles (cf kw) ->
  Forall (fun sg => rowwise (run_stage kw sg)) (stages re_compile mv).
Proof.
  intros Htc Hdc Hcf.
  unfold stages, gated_stages, views_ceiling.
  repeat apply Forall_cons_2; try apply Forall_nil_2;
    unfold run_stage; cbn [gate action];
    try (match goal with
         | |- rowwise (fun df => if ?g then _ else _) =>
             destruct g eqn:Hgate; [|apply rowwise_skip]
         end);
    first [ apply rowwise_regex
          | apply (rowwise_text Row.title); by apply Htc
          | apply (rowwise_text Row.description); by apply Hdc
          | apply (rowwise_text Row.channel); by apply Hcf
          | apply rowwise_mask ].
Qed.

Lemma run_stages_rowwise (kw : filter_kw) (sgs : list stage) :
  Forall (fun sg => rowwise (run_stage kw sg)) sgs ->
  rowwise (run_stages kw sgs).
Proof.
  induction 1 as [|sg sgs [keep1 H1] _ [keep2 H2]]; [apply rowwise_skip|].
  exists (fun r => keep1 r && keep2 r). intros df.
  cbn [run_stages]. by rewrite H1, H2, filter_filter.
Qed.

Lemma _pf_rowwise (mv : Z) (kw : filter_kw) :
  compiles (tc kw) -> compiles (dc kw) -> compiles (cf kw) ->
  rowwise (fun df => _pf re_compile df mv kw).
Proof.
  intros Htc Hdc Hcf.
  destruct (run_stages_rowwise kw _ (stages_rowwise mv kw Htc Hdc Hcf))
    as [keep H].
  exists keep. intros [|r df]; [done|]. apply H.
Qed.

(** X18. When the texts given for the title, description and channel
    filters compile, [_pf] returns, and it decides on every row by itself:
    there is a test on rows such that [_pf] keeps exactly the rows that
    pass it, in their order.  So filtering two collections one after the
    other and joining the results is filtering the joined collection, and
    filtering a result again changes nothing. *)
Theorem _pf_is_a_row_filter (mv : Z) (kw : filter_kw) :
  compiles (tc kw) -> compiles (dc kw) -> compiles (cf kw) ->
  (exists keep : Row.t -> bool,
     forall df, _pf re_compile df mv kw = Ok (List.filter keep df))
  /\ (forall df1 df2 out1 out2,
        _pf re_compile df1 mv kw = Ok out1 ->
        _pf re_compile df2 mv kw = Ok out2 ->
        _pf re_compile (df1 ++ df2) mv kw = Ok (out1 ++ out2))
  /\ (forall df out,
        _pf re_compile df mv kw = Ok out ->
        _pf re_compile out mv kw = Ok out).
Proof.
  intros Htc Hdc Hcf.
  destruct (_pf_rowwise mv kw Htc Hdc Hcf) as [keep H].
  split; [by exists keep|]. split.
  - intros df1 df2 out1 out2. rewrite !H. intros [= <-] [= <-].
    by rewrite List.filter_app.
  - intros df out. rewrite !H. intros [= <-].
    rewrite filter_filter. f_equal. apply List.filter_ext.
    intros r. by destruct (keep r).
Qed.

(** The keywords with the title regex taken out. *)
Definition without_tr (kw : filter_kw) : filter_kw :=
  Kw (mnv kw) (mnd kw) (mxd kw) (od kw) (mw kw) (gh kw) (go kw) (tc kw) None
     (st kw) (ac kw) (nd kw) (nt kw) (nl kw) (sd kw) (ul kw) (mvp kw)
     (mna kw) (mxa kw) (hr kw) (dc kw) (cf kw).

Lemma run_stages_ext (kw kw' : filter_kw) (sgs : list stage) :
  Forall (fun sg => forall df, run_stage kw sg df = run_stage kw' sg df) sgs ->
  forall df, run_stages kw sgs df = run_stages kw' sgs df.
Proof.
  induction 1 as [|sg sgs Hsg _ IH]; intros df; [done|].
  cbn [run_stages]. rewrite Hsg. destruct (run_stage kw' sg df); [apply IH|done].
Qed.

(** X19. A title regex that does not compile is ignored without a word:
    [_pf] returns what it returns when no title regex is given. *)
Theorem _pf_ignores_bad_title_regex (df : DataFrame) (mv : Z)
    (kw : filter_kw) :
  re_compile (default EmptyString (tr kw)) = None ->
  _pf re_compile df mv kw = _pf re_compile df mv (without_tr kw).
Proof.
  intros Hbad. unfold _pf. destruct df as [|r0 df0]; [done|].
  apply run_stages_ext.
  unfold stages, gated_stages, views_ceiling.
  repeat apply Forall_cons_2; try apply Forall_nil_2; intros df;
    unfold run_stage; cbn [gate action]; try reflexivity.
  cbn [without_tr tr text_set].
  destruct (text_set (tr kw)); [|done].
  unfold filter_title_regex, str_contains. rewrite Hbad.
  destruct df; [done|]. by destruct (negb _).
Qed.

End RowWise.

(** The page's keywords with a text for the title filter and a broken
    title regex. *)
Definition kw_title_cat : App.filter_kw :=
  App.Kw (Some 0) (Some 0) (Some 999999) (Some false) (Some 0%Q) (Some false)
    (Some false) (Some "cat") (Some "(") (Some false)
    (Some false) (Some false) (Some false) (Some false) (Some false)
    (Some false) (Some 1000%Q) (Some 0) (Some 99999) (Some (0, 23))
    (Some EmptyString) (Some EmptyString).

(** A compiler that accepts the pattern [cat] only, as a test for the
    letters [cat] in the cell. *)
Definition only_cat (pat : string) : option (string -> bool) :=
  if String.eqb pat "cat" then Some (Text.contains "cat") else None.

Lemma _pf_is_a_row_filter_witness :
  compiles only_cat (App.tc kw_title_cat)
  /\ compiles only_cat (App.dc kw_title_cat)
  /\ compiles only_cat (App.cf kw_title_cat)
  /\ (exists keep : Row.t -> bool,
        forall df,
          App._pf only_cat df 10 kw_title_cat = Api.Ok (List.filter keep df))
  /\ (forall df1 df2 out1 out2,
        App._pf only_cat df1 10 kw_title_cat = Api.Ok out1 ->
        App._pf only_cat df2 10 kw_title_cat = Api.Ok out2 ->
        App._pf only_cat (df1 ++ df2) 10 kw_title_cat = Api.Ok (out1 ++ out2))
  /\ (forall df out,
        App._pf only_cat df 10 kw_title_cat = Api.Ok out ->
        App._pf only_cat out 10 kw_title_cat = Api.Ok out).
Proof.
  assert (H1 : compiles only_cat (App.tc kw_title_cat))
    by (intros _; by eexists).
  assert (H2 : compiles only_cat (App.dc kw_title_cat))
    by (intros H; discriminate H).
  assert (H3 : compiles only_cat (App.cf kw_title_cat))
    by (intros H; discriminate H).
  split; [exact H1|]. split; [exact H2|]. split; [exact H3|].
  exact (_pf_is_a_row_filter only_cat 10 kw_title_cat H1 H2 H3).
Defined.

Lemma _pf_ignores_bad_title_regex_witness :
  only_cat (default EmptyString (App.tr kw_title_cat)) = None
  /\ App._pf only_cat [row_with_views 5] 10 kw_title_cat
     = App._pf only_cat [row_with_views 5] 10 (without_tr kw_title_cat).
Proof.
  split; [reflexivity|].
  apply (_pf_ignores_bad_title_regex only_cat [row_with_views 5] 10
           kw_title_cat).
  reflexivity.
Defined.

(** A broken text in the title filter, on the other hand, makes [_pf]
    fail as soon as a row reaches that filter. *)
Example _pf_bad_title_text_raises :
  App._pf (fun _ => None) [row_with_views 5] 10 kw_title_cat
  = Api.Raise YoutubeEngine.re_error.
Proof. vm_compute. reflexivity. Qed.

(** ** The queries of [build_search_queries] *)

Section BuiltQueries.

Import YoutubeEngine.

Lemma lstrip_chars_head (l : list ascii) (c : ascii) :
  head (Text.lstrip_chars l) = Some c -> Text.isspace c = false.
Proof.
  induction l as [|d l IH]; [done|]. cbn.
  destruct (Text.isspace d) eqn:E; [exact IH|]. cbn. by intros [= <-].
Qed.

(** What [strip] returns has no white space at either end. *)
Lemma strip_chars_trimmed (l : list ascii) :
  trimmed Text.isspace (strip_chars l).
Proof.
  unfold strip_chars. set (m := Text.lstrip_chars l).
  assert (Hm : forall c, head m = Some c -> Text.isspace c = false)
    by apply lstrip_chars_head.
  split; intros c Hc.
  - destruct (rstrip_chars_prefix m) as [w Hw].
    destruct (rstrip_chars m) as [|d r]; [done|].
    cbn in Hc. injection Hc as ->. apply Hm. by rewrite Hw.
  - unfold rstrip_chars in Hc. rewrite <- head_rev, rev_involutive in Hc.
    by apply lstrip_chars_head in Hc.
Qed.

Lemma strip_idem (s : string) : Text.strip (Text.strip s) = Text.strip s.
Proof.
  apply strip_fixed. unfold bare. rewrite strip_chars_spec.
  apply strip_chars_trimmed.
Qed.

(** A text is stripped to nothing exactly when it is all white space. *)
Lemma lstrip_chars_nil (l : list ascii) :
  Text.lstrip_chars l = [] <-> Forall (fun c => Text.isspace c = true) l.
Proof.
  induction l as [|c l IH]; [done|]. cbn.
  destruct (Text.isspace c) eqn:E.
  - rewrite IH. split; [by apply Forall_cons_2|].
    by intros [_ ?]%Forall_cons.
  - split; [done|]. intros [H _]%Forall_cons. congruence.
Qed.

Lemma strip_chars_nil (l : list ascii) :
  strip_chars l = [] <-> Forall (fun c => Text.isspace c = true) l.
Proof.
  unfold strip_chars, rstrip_chars. split.
  - intros H. apply lstrip_chars_nil.
    destruct (Text.lstrip_chars l) as [|c m] eqn:E; [done|]. exfalso.
    assert (Hc : Text.isspace c = false)
      by (apply (lstrip_chars_head l); by rewrite E).
    apply (f_equal (@rev ascii)) in H. rewrite rev_involutive in H.
    cbn [rev] in H. apply lstrip_chars_nil in H.
    rewrite Forall_app, Forall_singleton in H. destruct H as [_ H]. congruence.
  - intros H. apply lstrip_chars_nil in H. by rewrite H.
Qed.

Lemma strip_app_nonempty (a b : string) :
  Text.strip b <> EmptyString -> Text.strip (a ++ b)%string <> EmptyString.
Proof.
  intros Hb Hab. apply Hb. apply chars_inj.
  apply (f_equal list_ascii_of_string) in Hab.
  rewrite strip_chars_spec in *. cbn [list_ascii_of_string] in *.
  apply strip_chars_nil in Hab. apply strip_chars_nil.
  rewrite chars_app, Forall_app in Hab. by destruct Hab as [_ ?].
Qed.

Lemma generated_queries_nonblank (keywords : string)
    (filename_patterns : list string) (custom_pattern : string)
    (weirdness_keywords : list string) :
  Text.strip keywords <> EmptyString ->
  Forall (fun q => Text.strip q <> EmptyString)
    (generated_queries keywords filename_patterns custom_pattern
       weirdness_keywords).
Proof.
  intros Hkw. unfold generated_queries.
  assert (Ht : Text.truthy (Text.strip keywords) = true)
    by (by apply truthy_nonempty).
  assert (Hkk : Text.strip (Text.strip keywords) <> EmptyString)
    by (by rewrite strip_idem).
  rewrite Ht. repeat apply Forall_app_2.
  - by apply Forall_singleton.
  - apply Forall_map, Forall_forall. intros pk _.
    by apply strip_app_nonempty, strip_app_nonempty.
  - destruct (Text.truthy (Text.strip custom_pattern)) eqn:Hc; [|done].
    apply Forall_singleton. rewrite strip_idem. by apply truthy_nonempty.
  - apply Forall_map, Forall_forall. intros wk _.
    by apply strip_app_nonempty, strip_app_nonempty.
Qed.

(** X20. Every query that [build_search_queries] returns is stripped.
    When the keywords are not blank, they come first, as the first query,
    and no returned query is empty. *)
Theorem build_search_queries_shape (keywords : string)
    (filename_patterns : list string) (custom_pattern : string)
    (weirdness_keywords : list string) :
  let result :=
    build_search_queries keywords filename_patterns custom_pattern
      weirdness_keywords in
  Forall (fun q => Text.strip q = q) result
  /\ (Text.strip keywords <> EmptyString ->
      head result = Some (Text.strip keywords)
      /\ Forall (fun q => q <> EmptyString) result).
Proof.
  intros result. subst result. unfold build_search_queries.
  rewrite dedup_queries_first_seen, app_nil_l.
  set (queries := generated_queries keywords filename_patterns
                    custom_pattern weirdness_keywords).
  set (kept := first_seen query_key (fun _ => true) queries ∅).
  split.
  - destruct (Text.strip <$> kept) as [|q l] eqn:E.
    + by apply Forall_singleton.
    + rewrite <- E. apply Forall_fmap, Forall_forall. intros q' _.
      apply strip_idem.
  - intros Hkw.
    assert (Hq : exists rest, queries = Text.strip keywords :: rest).
    { subst queries. unfold generated_queries.
      replace (Text.truthy (Text.strip keywords)) with true
        by (symmetry; by apply truthy_nonempty).
      eexists. reflexivity. }
    destruct Hq as [rest Hq].
    assert (Hk : exists more, kept = Text.strip keywords :: more).
    { subst kept. rewrite Hq. cbn [first_seen andb].
      rewrite bool_decide_eq_true_2 by set_solver. eauto. }
    destruct Hk as [more Hk].
    assert (Hall : Forall (fun q => Text.strip q <> EmptyString) kept).
    { apply Forall_forall. intros q Hin. subst kept.
      apply first_seen_elem in Hin as (Hin & _ & _). revert q Hin.
      apply Forall_forall. by apply generated_queries_nonblank. }
    destruct (Text.strip <$> kept) as [|q l] eqn:E;
      [by rewrite Hk in E|].
    rewrite <- E. split.
    + rewrite Hk. cbn. by rewrite strip_idem.
    + by apply Forall_fmap.
Qed.

(** Without keywords a blank pattern becomes an empty query; the fallback
    is for the case that no query at all was generated. *)
Example build_search_queries_empty_query :
  build_search_queries EmptyString [" "] EmptyString [] = [EmptyString].
Proof. vm_compute. reflexivity. Qed.

End BuiltQueries.

(** ** Page tokens *)

Section PageTokens.

Import Api YoutubeEngine App.

Variable search_api : search_oracle.
Variable keys : list string.

(** [tok] was handed out, as the token of the next page, in an answer to
    a call for [q] in [tr]. *)
Definition token_known (q : string) (tr : list event) (tok : string) : Prop :=
  exists pre svc n tok0 response rest,
    tr = pre ++ SearchCall svc q n tok0 :: rest
    /\ search_api pre svc q n tok0 = Ok response
    /\ response_nextPageToken response = Some tok.

(** Every token sent in [tr] was handed out before, for the same query. *)
Definition tokens_known (tr : list event) : Prop :=
  forall pre svc q n tok post,
    tr = pre ++ SearchCall svc q n (Some tok) :: post ->
    token_known q pre tok.

(** The token the run holds for the next call. *)
Definition holds_known (q : string) (s : state) : Prop :=
  forall tok, next_page_token s = Some tok -> token_known q (trace s) tok.

Lemma token_known_app (q : string) (tr more : list event) (tok : string) :
  token_known q tr tok -> token_known q (tr ++ more) tok.
Proof.
  intros (pre & svc & n & tok0 & response & rest & -> & Ha & Ht).
  exists pre, svc, n, tok0, response, (rest ++ more).
  by rewrite <- app_assoc.
Qed.

Lemma tokens_known_snoc (tr : list event) (ev : event) :
  tokens_known tr ->
  (forall svc q n tok, ev = SearchCall svc q n (Some tok) ->
                       token_known q tr tok) ->
  tokens_known (tr ++ [ev]).
Proof.
  intros Htr Hev pre svc q n tok post E.
  assert (Hpost : post = [] \/ exists p x, post = p ++ [x])
    by (destruct post as [|x p _] using rev_ind; eauto).
  destruct Hpost as [->|(p & x & ->)].
  - apply app_inj_tail in E as [<- ->]. exact (Hev svc q n tok eq_refl).
  - rewrite app_comm_cons, app_assoc in E.
    apply app_inj_tail in E as [-> _].
    exact (Htr pre svc q n tok p eq_refl).
Qed.

Lemma tokens_known_other (tr : list event) (ev : event) :
  tokens_known tr -> is_search_call ev = false -> tokens_known (tr ++ [ev]).
Proof.
  intros Htr Hev. apply tokens_known_snoc; [done|].
  intros svc q n tok ->. discriminate Hev.
Qed.

(** The call of a pass through the retry loop sends the token held. *)
Lemma the_call_known (q : string) (batch_size : Z) (s : state) :
  holds_known q s -> tokens_known (trace s) ->
  tokens_known (trace s ++ [the_call q batch_size s]).
Proof.
  intros Hs Htr. apply tokens_known_snoc; [done|].
  unfold the_call. intros svc q' n tok [= _ <- _ Htok]. apply Hs.
  by destruct (token_truthy (next_page_token s)).
Qed.

Lemma attempt_tokens (q : string) (mpq batch_size : Z) (s : state) :
  holds_known q s -> tokens_known (trace s) ->
  holds_known q (snd (attempt search_api keys q mpq batch_size s))
  /\ tokens_known (trace (snd (attempt search_api keys q mpq batch_size s))).
Proof.
  intros Hs Htr.
  pose proof (the_call_known q batch_size s Hs Htr) as Hcall.
  unfold the_call in Hcall.
  unfold attempt, search_youtube.
  destruct (search_api (trace s) (active_svc s) q (Z.min batch_size 50)
              (if token_truthy (next_page_token s)
               then next_page_token s else None))
    as [[items token]|e] eqn:E; unfold try_body;
    cbn [error YoutubeEngine.items nextPageToken response_items
         response_nextPageToken].
  - destruct items as [|it items].
    + cbn. split; [|done]. intros tok Htok. cbn in Htok.
      by apply token_known_app, Hs.
    + cbn [negb orb].
      assert (Hnew : forall tok, token = Some tok ->
                token_known q
                  (trace s
                   ++ [SearchCall (active_svc s) q (Z.min batch_size 50)
                         (if token_truthy (next_page_token s)
                          then next_page_token s else None)]) tok).
      { intros tok ->. eexists (trace s), _, _, _, _, []. done. }
      destruct (token_truthy (next_page_token
                  (accumulate (it :: items) token (with_trace _ s))));
        cbn; split; done.
  - unfold on_exception. rewrite is_quota_mock.
    cbn [log with_trace with_current_key_idx current_key_idx trace].
    destruct (current_key_idx s + 1 <? length keys)%nat; cbn.
    + split.
      * intros tok Htok. cbn in Htok.
        by apply token_known_app, token_known_app, Hs.
      * by apply tokens_known_other.
    + split.
      * intros tok Htok. cbn in Htok.
        by apply token_known_app, token_known_app, token_known_app, Hs.
      * apply tokens_known_other; [|done].
        by apply tokens_known_other.
Qed.

Lemma retry_loop_tokens (budget : nat) (q : string) (mpq batch_size : Z)
    (s : state) :
  holds_known q s -> tokens_known (trace s) ->
  holds_known q (retry_loop search_api keys budget q mpq batch_size s)
  /\ tokens_known
       (trace (retry_loop search_api keys budget q mpq batch_size s)).
Proof.
  revert s. induction budget as [|budget IH]; intros s Hs Htr;
    cbn [retry_loop]; [done|].
  destruct (attempt_tokens q mpq batch_size s Hs Htr) as [Hs1 Htr1].
  destruct (attempt search_api keys q mpq batch_size s) as [[|] s1];
    cbn [snd] in *; [by apply IH | done].
Qed.

Lemma page_loop_tokens (fuel : nat) (q : string) (mpq : Z) (s s' : state) :
  holds_known q s -> tokens_known (trace s) ->
  page_loop search_api keys fuel q mpq s = Some s' ->
  tokens_known (trace s').
Proof.
  revert s. induction fuel as [|fuel IH]; intros s Hs Htr; [done|].
  cbn [page_loop]. destruct (fetched_count s <? mpq)%Z.
  - intros Hrun.
    destruct (retry_loop_tokens (length keys + 1) q mpq
                (Z.min 50 (mpq - fetched_count s)) (begin_page s))
      as [Hs1 Htr1]; [exact Hs | exact Htr |].
    by eapply IH.
  - by intros [= <-].
Qed.

Lemma query_loop_tokens (fuel : nat) (qs : list string) (mpq : Z)
    (s s' : state) :
  tokens_known (trace s) ->
  query_loop search_api keys fuel qs mpq s = Some s' ->
  tokens_known (trace s').
Proof.
  revert s. induction qs as [|q qs IH]; intros s Htr; cbn [query_loop].
  - by intros [= <-].
  - unfold run_query.
    destruct (page_loop search_api keys fuel q mpq (begin_query s))
      as [s1|] eqn:E1; [|done].
    apply IH. eapply (page_loop_tokens _ q); [| |exact E1]; [|exact Htr].
    intros tok Htok. discriminate Htok.
Qed.

(** X21. The run never makes up a page token and never carries one over
    to another query: every token sent in a search call was handed out by
    the provider, as the token of the next page, in an answer to an
    earlier call of the run for the same query. *)
Theorem page_tokens_come_from_the_provider (svc : option service)
    (qs : list string) (mpq : Z) :
  exists s',
    query_loop search_api keys (S (Z.to_nat mpq)) qs mpq (initial svc)
    = Some s'
    /\ forall pre svc' q n tok post,
         trace s' = pre ++ SearchCall svc' q n (Some tok) :: post ->
         exists pre1 svc1 n1 tok1 response rest,
           pre = pre1 ++ SearchCall svc1 q n1 tok1 :: rest
           /\ search_api pre1 svc1 q n1 tok1 = Ok response
           /\ response_nextPageToken response = Some tok.
Proof.
  destruct (query_loop_runs search_api keys (S (Z.to_nat mpq)) qs mpq
              (initial svc)) as (s' & _ & Hrun & _); [lia|].
  exists s'. split; [exact Hrun|].
  apply (query_loop_tokens _ _ _ _ _) in Hrun; [exact Hrun|].
  intros pre svc' q n tok post E. by destruct pre.
Qed.

End PageTokens.

(** Two pages of one query: the second call sends the token of the first
    answer. *)
Example page_token_of_second_call :
  option_map App.trace
    (App.query_loop
       (fun tr _ _ _ _ =>
          match tr with
          | [] => Api.Ok (Api.SearchResponse
                            [Api.Item (Some (Api.IdDict (Some "v1"))) "hit"]
                            (Some "PAGE2"))
          | _ => Api.Ok (Api.SearchResponse [] None)
          end)
       ["key1"] 3 ["cats"] 2 (App.initial (Some Api.Given)))
  = Some [ Api.SearchCall (Some Api.Given) "cats" 2 None;
           Api.SearchCall (Some Api.Given) "cats" 1 (Some "PAGE2") ].
Proof. vm_compute. reflexivity. Qed.

(** ** A saved key is a key of the pool *)

Section SavedKeys.

Import Api SecretsManager.
Local Open Scope Z_scope.











End SavedKeys.


(** The pool after two keys have been saved, one after the other. *)
Example pool_after_two_saves :
  let text1 := fst (SecretsManager.save_api_key "AIza-first" None ∅) in
  let text2 :=
    fst (SecretsManager.save_additional_api_key "AIza-third" 3 (Some text1) ∅)
  in
  fst (SecretsManager.get_all_api_keys
         (SecretsManager.env_assignments (Some text2)) ∅)
  = ["AIza-first"; "AIza-third"].
Proof. vm_compute. reflexivity. Qed.

(** ** The score and the age of a video *)

Section ScoreAge.

Import YoutubeEngine.
Local Open Scope Z_scope.

(** Case analysis on the comparisons of the goal, dropping at once the
    combinations that cannot occur. *)
Ltac z_split :=
  repeat (match goal with
          | |- context [(?a <? ?b)%Z] => destruct (Z.ltb_spec a b)
          | |- context [(?a <=? ?b)%Z] => destruct (Z.leb_spec a b)
          end; cbn [andb orb negb]; try lia).

Lemma temporal_points_monotone (age_days age_days' views : Z) :
  age_days <= age_days' ->
  temporal_points age_days views <= temporal_points age_days' views.
Proof. intros H. unfold temporal_points. z_split. Qed.

Lemma velocity_points_monotone (age_days age_days' : Z) (v v' : Q) :
  age_days <= age_days' -> (v' <= v)%Q ->
  velocity_points age_days v <= velocity_points age_days' v'.
Proof.
  intros Ha Hv.
  pose proof (velocity_points_antitone age_days v' v Hv) as H1.
  assert (H2 : velocity_points age_days v' <= velocity_points age_days' v').
  { unfold velocity_points.
    destruct (Z.ltb_spec 365 age_days), (Z.ltb_spec 365 age_days');
      cbn [andb]; try lia.
    destruct (Py.Qltb v' (1 # 100)); [lia|].
    destruct (Py.Qltb v' (5 # 100)); lia. }
  lia.
Qed.

(** An older video with the same views has no higher velocity. *)
Lemma vpd_antitone_in_age (views age_days age_days' : Z) :
  0 <= views -> age_days <= age_days' ->
  (vpd views age_days' <= vpd views age_days)%Q.
Proof.
  intros Hv Ha. unfold vpd. apply round_mono.
  assert (Hm : 0 < Z.max age_days 1 <= Z.max age_days' 1) by lia.
  revert Hm. generalize (Z.max age_days 1) (Z.max age_days' 1).
  intros m m' [Hm Hmm].
  rewrite <- (Z2Pos.id m), <- (Z2Pos.id m') by lia.
  rewrite <- !Qmake_Qdiv. unfold Qle. cbn [Qnum Qden].
  apply Z.mul_le_mono_nonneg_l; [done|].
  rewrite !Z2Pos.id by lia. done.
Qed.

(** X23. Age never lowers the score.  With everything else equal, an
    older record (with a velocity that is not higher) scores at least what
    the younger one scores; in particular so when the velocity is the one
    [parse_video_data] derives from the views and the age. *)
Theorem compute_weirdness_score_monotone_in_age
    (title description : string)
    (views likes comments duration_seconds age_days age_days' : Z)
    (tags : list string) (has_location : bool) (title_entropy : Q)
    (desc_length : Z) (all_caps numbers_only : bool)
    (views_per_day views_per_day' : Q) :
  age_days <= age_days' ->
  0 <= views ->
  (views_per_day' <= views_per_day)%Q ->
  (compute_weirdness_score title description views likes comments
     duration_seconds age_days tags has_location title_entropy desc_length
     all_caps numbers_only views_per_day
   <= compute_weirdness_score title description views likes comments
        duration_seconds age_days' tags has_location title_entropy
        desc_length all_caps numbers_only views_per_day')%Q
  /\ (compute_weirdness_score title description views likes comments
        duration_seconds age_days tags has_location title_entropy
        desc_length all_caps numbers_only (vpd views age_days)
      <= compute_weirdness_score title description views likes comments
           duration_seconds age_days' tags has_location title_entropy
           desc_length all_caps numbers_only (vpd views age_days'))%Q.
Proof.
  intros Ha Hviews Hq.
  assert (Hgen : forall v v' : Q, (v' <= v)%Q ->
            total_points title description views likes comments
              duration_seconds age_days tags has_location title_entropy
              desc_length all_caps numbers_only v
            <= total_points title description views likes comments
                 duration_seconds age_days' tags has_location title_entropy
                 desc_length all_caps numbers_only v').
  { intros v v' Hv. unfold total_points.
    pose proof (temporal_points_monotone age_days age_days' views Ha).
    pose proof (velocity_points_monotone age_days age_days' v v' Ha Hv).
    lia. }
  split; rewrite !compute_weirdness_score_value, <- Zle_Qle;
    apply Z.min_le_compat_l, Hgen; [done|].
  by apply vpd_antitone_in_age.
Qed.

Lemma compute_weirdness_score_monotone_in_age_witness :
  400 <= 6000 /\ 0 <= 3 /\ ((1 # 2000) <= (3 # 400))%Q
  /\ (compute_weirdness_score "MVI_0012" EmptyString 3 0 0 2 400 [] false
        1 0 false false (3 # 400)
      <= compute_weirdness_score "MVI_0012" EmptyString 3 0 0 2 6000 [] false
           1 0 false false (1 # 2000))%Q
  /\ (compute_weirdness_score "MVI_0012" EmptyString 3 0 0 2 400 [] false
        1 0 false false (vpd 3 400)
      <= compute_weirdness_score "MVI_0012" EmptyString 3 0 0 2 6000 [] false
           1 0 false false (vpd 3 6000))%Q.
Proof.
  assert (Ha : 400 <= 6000) by lia.
  assert (Hv : 0 <= 3) by lia.
  assert (Hq : ((1 # 2000) <= (3 # 400))%Q) by (vm_compute; discriminate).
  split; [exact Ha|]. split; [exact Hv|]. split; [exact Hq|].
  exact (compute_weirdness_score_monotone_in_age "MVI_0012" EmptyString
           3 0 0 2 400 6000 [] false 1 0 false false (3 # 400) (1 # 2000)
           Ha Hv Hq).
Defined.

End ScoreAge.

(** ** The target count of a query *)

Section TargetCount.

Import Api YoutubeEngine App.
Local Open Scope Z_scope.

Variable search_api : search_oracle.
Variable keys : list string.

(** A provider that returns no more hits than it is asked for. *)
Definition polite : Prop :=
  forall tr svc q n tok response,
    1 <= n -> search_api tr svc q n tok = Ok response ->
    Z.of_nat (length (response_items response)) <= n.

(** [base] hits were there when the query began; the query has added at
    most [mpq], and while it is under way [fetched_count] counts what it
    has added. *)
Definition within_target (mpq base : Z) (s : state) : Prop :=
  Z.of_nat (length (ai s)) - base <= Z.max 0 mpq
  /\ (fetched_count s < mpq ->
      fetched_count s = Z.of_nat (length (ai s)) - base).

Lemma attempt_within_target (q : string) (mpq batch_size base : Z)
    (s : state) :
  polite ->
  within_target mpq base s -> fetched_count s < mpq ->
  1 <= batch_size <= mpq - fetched_count s ->
  within_target mpq base (snd (attempt search_api keys q mpq batch_size s))
  /\ (fst (attempt search_api keys q mpq batch_size s) = Continue ->
      fetched_count (snd (attempt search_api keys q mpq batch_size s))
      = fetched_count s).
Proof.
  intros Hpolite [Hlen Hfc] Hlt Hbs. specialize (Hfc Hlt).
  unfold within_target. remember (Z.max 0 mpq) as M eqn:HM.
  unfold attempt, search_youtube.
  destruct (search_api (trace s) (active_svc s) q (Z.min batch_size 50)
              (if token_truthy (next_page_token s)
               then next_page_token s else None))
    as [[items token]|e] eqn:E; unfold try_body;
    cbn [error YoutubeEngine.items nextPageToken response_items
         response_nextPageToken].
  - apply Hpolite in E; [|lia]. cbn [response_items] in E.
    destruct items as [|it items].
    + cbn. split; [|done]. split; [lia|]. cbn. lia.
    + cbn [negb orb].
      destruct (token_truthy (next_page_token
                  (accumulate (it :: items) token (with_trace _ s))));
        cbn [fst snd]; (split; [|done]); split; cbn;
        rewrite ?length_app; cbn [length] in *; lia.
  - unfold on_exception. rewrite is_quota_mock.
    cbn [log with_trace with_current_key_idx current_key_idx trace].
    destruct (current_key_idx s + 1 <? length keys)%nat; cbn [fst snd].
    + split; [|done]. split; cbn; lia.
    + split; [|done]. split; cbn; lia.
Qed.

Lemma retry_loop_within_target (budget : nat) (q : string)
    (mpq batch_size base : Z) (s : state) :
  polite ->
  within_target mpq base s -> fetched_count s < mpq ->
  1 <= batch_size <= mpq - fetched_count s ->
  within_target mpq base
    (retry_loop search_api keys budget q mpq batch_size s).
Proof.
  intros Hpolite. revert s.
  induction budget as [|budget IH]; intros s Hs Hlt Hbs;
    cbn [retry_loop]; [done|].
  destruct (attempt_within_target q mpq batch_size base s Hpolite Hs Hlt Hbs)
    as [Hs1 Hfc1].
  destruct (attempt search_api keys q mpq batch_size s) as [[|] s1];
    cbn [fst snd] in *; [|done].
  specialize (Hfc1 eq_refl). apply IH; [done | lia | lia].
Qed.

Lemma page_loop_within_target (fuel : nat) (q : string) (mpq base : Z)
    (s s' : state) :
  polite ->
  within_target mpq base s ->
  page_loop search_api keys fuel q mpq s = Some s' ->
  within_target mpq base s'.
Proof.
  intros Hpolite. revert s.
  induction fuel as [|fuel IH]; intros s Hs; [done|].
  cbn [page_loop]. destruct (Z.ltb_spec (fetched_count s) mpq) as [Hlt|Hge].
  - apply IH. apply retry_loop_within_target; [done | exact Hs | exact Hlt|].
    cbn. lia.
  - by intros [= <-].
Qed.

Lemma query_loop_within_target (fuel : nat) (qs : list string) (mpq : Z)
    (s s' : state) :
  polite ->
  query_loop search_api keys fuel qs mpq s = Some s' ->
  Z.of_nat (length (ai s'))
  <= Z.of_nat (length (ai s)) + Z.of_nat (length qs) * Z.max 0 mpq.
Proof.
  intros Hpolite. revert s.
  induction qs as [|q qs IH]; intros s; cbn [query_loop].
  - intros [= <-]. cbn. lia.
  - unfold run_query.
    destruct (page_loop search_api keys fuel q mpq (begin_query s))
      as [s1|] eqn:E1; [|done].
    intros Hrun. apply IH in Hrun.
    destruct (page_loop_within_target fuel q mpq
                (Z.of_nat (length (ai s))) (begin_query s) s1 Hpolite)
      as [H1 _]; [|exact E1|].
    + split; cbn; lia.
    + cbn [length]. lia.
Qed.

(** X24. The target is kept when the provider keeps to the page size.
    If the provider never returns more hits than a call asks for, a run
    of the query loop adds at most [mpq] hits per query. *)
Theorem query_loop_respects_target (qs : list string) (mpq : Z) (s : state) :
  polite ->
  exists s',
    query_loop search_api keys (S (Z.to_nat mpq)) qs mpq s = Some s'
    /\ Z.of_nat (length (ai s'))
       <= Z.of_nat (length (ai s)) + Z.of_nat (length qs) * Z.max 0 mpq.
Proof.
  intros Hpolite.
  destruct (query_loop_runs search_api keys (S (Z.to_nat mpq)) qs mpq s)
    as (s' & _ & Hrun & _); [lia|].
  exists s'. split; [exact Hrun|].
  by eapply query_loop_within_target.
Qed.

End TargetCount.

(** A provider that answers every call with one hit and the token of a
    next page. *)
Definition one_hit_a_page : Api.search_oracle :=
  fun _ _ _ _ _ =>
    Api.Ok (Api.SearchResponse [Api.Item (Some (Api.IdDict (Some "v1"))) "hit"]
              (Some "NEXT")).

Lemma query_loop_respects_target_witness :
  polite one_hit_a_page
  /\ exists s',
       App.query_loop one_hit_a_page ["key1"] (S (Z.to_nat 3)) ["a"; "b"] 3
         (App.initial (Some Api.Given)) = Some s'
       /\ (Z.of_nat (length (App.ai s'))
           <= Z.of_nat (length (App.ai (App.initial (Some Api.Given))))
              + Z.of_nat (length ["a"; "b"]) * Z.max 0 3)%Z.
Proof.
  assert (H : polite one_hit_a_page).
  { intros tr svc q n tok response Hn [= <-]. cbn. lia. }
  split; [exact H|].
  exact (query_loop_respects_target one_hit_a_page ["key1"] ["a"; "b"] 3
           (App.initial (Some Api.Given)) H).
Defined.

(** A provider that returns three hits whatever it is asked for takes the
    run past a target of one. *)
Example target_exceeded_by_rude_provider :
  option_map (fun s => length (App.ai s))
    (App.query_loop
       (fun _ _ _ _ _ =>
          Api.Ok (Api.SearchResponse
                    [Api.Item (Some (Api.IdDict (Some "v1"))) "hit";
                     Api.Item (Some (Api.IdDict (Some "v2"))) "hit";
                     Api.Item (Some (Api.IdDict (Some "v3"))) "hit"] None))
       ["key1"] 2 ["a"] 1 (App.initial (Some Api.Given)))
  = Some 3%nat.
Proof. vm_compute. reflexivity. Qed.
